(** * rank_filter: the sliding-window rank-order filter of
    [include/rank_filter.hxx], embedded and verified.

    The template [lineRankOrderFilter1D] is instantiated at an integer
    element type ([T := Z], only compared, never computed with).  [size_t]
    is a 64-bit unsigned integer: a [Z] in [0, 2^64) whose arithmetic wraps.
    A finite [double] is the rational number it denotes, and the one
    floating-point computation, [rank * length_sub_1], is rounded the way
    IEEE 754 binary64 rounds: the window length is converted to the nearest
    binary64 value and so is the exact product of the two factors, ties
    going to the even significand.  A container asked for more elements
    than its [max_size()] throws [std::length_error] and the call ends
    there.  Assertions are compiled in (no [NDEBUG]); a rank that is not
    a finite number fails the assertion of line 57 and is not modelled.
    The node-based ordered set is a
    strictly sorted list of pairs; a set iterator is the element it points
    to (node iterators stay attached to their element across unrelated
    inserts and erases), [None] standing for a singular or past-the-end
    iterator.  Every operation the C++ standard leaves undefined (reading
    through such an iterator, indexing out of range, stepping off either
    end) yields no result. *)

From Stdlib Require Import ZArith QArith Qround Qpower List Bool Lia Lqa.
From Stdlib Require Import Permutation Sorted.
From Stdlib Require String DecimalString.
Import String.StringSyntax.
Import ListNotations.

Local Open Scope Z_scope.

(** ** Machine integers *)

Definition size_bits : Z := 64.
Definition size_modulus : Z := 2 ^ size_bits.

(** Arithmetic on [size_t] is taken modulo [2^64]. *)
Definition wrap (z : Z) : Z := z mod size_modulus.

(** [std::distance(begin, end)] of a range held in a list. *)
Definition distance {A : Type} (l : list A) : Z := Z.of_nat (length l).

(** ** Element types *)

Definition T : Type := Z.

(** [typedef std::pair<T, size_t> TC]. *)
Definition TC : Type := (T * Z)%type.

(** [std::less<TC>]: the lexicographic order of [std::pair]. *)
Definition TC_less (a b : TC) : bool :=
  (fst a <? fst b) || (negb (fst b <? fst a) && (snd a <? snd b)).

Definition TC_eqb (a b : TC) : bool :=
  (fst a =? fst b) && (snd a =? snd b).

(** ** The ordered set and its iterators *)

Definition set : Type := list TC.
Definition iterator : Type := option TC.

Definition iterator_eqb (a b : iterator) : bool :=
  match a, b with
  | Some x, Some y => TC_eqb x y
  | None, None => true
  | _, _ => false
  end.

Fixpoint set_mem (x : TC) (s : set) : bool :=
  match s with
  | [] => false
  | y :: s' => TC_eqb x y || set_mem x s'
  end.

(** [it->first] and [*it]: only an iterator attached to a stored element may
    be read. *)
Definition deref (s : set) (it : iterator) : option TC :=
  match it with
  | Some x => if set_mem x s then Some x else None
  | None => None
  end.

(** [s.insert(x)]: the new set and [.first] of the returned pair, the
    iterator to the element equivalent to [x] (the stored one when the set
    already holds it). *)
Fixpoint set_insert (x : TC) (s : set) : set * iterator :=
  match s with
  | [] => ([x], Some x)
  | y :: s' =>
      if TC_less x y then (x :: s, Some x)
      else if TC_less y x then
        let (s'', it) := set_insert x s' in (y :: s'', it)
      else (s, Some y)
  end.

Fixpoint remove_elt (x : TC) (s : set) : set :=
  match s with
  | [] => []
  | y :: s' => if TC_eqb x y then s' else y :: remove_elt x s'
  end.

(** [s.erase(it)]. *)
Definition set_erase (it : iterator) (s : set) : option set :=
  match deref s it with
  | Some x => Some (remove_elt x s)
  | None => None
  end.

(** [s.begin()]. *)
Definition set_begin (s : set) : iterator := hd_error s.

Fixpoint elt_next (x : TC) (s : set) : option (iterator) :=
  match s with
  | [] => None
  | y :: s' => if TC_eqb x y then Some (hd_error s') else elt_next x s'
  end.

Fixpoint elt_prev (x : TC) (s : set) : option iterator :=
  match s with
  | [] => None
  | y :: s' =>
      match s' with
      | [] => None
      | z :: _ => if TC_eqb x z then Some (Some y) else elt_prev x s'
      end
  end.

(** [++it]: the in-order successor, possibly [end()]. *)
Definition iter_incr (s : set) (it : iterator) : option iterator :=
  match deref s it with
  | Some x => elt_next x s
  | None => None
  end.

(** [--it]: the in-order predecessor; there is none before [begin()]. *)
Definition iter_decr (s : set) (it : iterator) : option iterator :=
  match it with
  | Some x => elt_prev x s
  | None => match s with [] => None | _ => Some (Some (last s (0, 0))) end
  end.

(** [std::advance(it, n)] for [n >= 0]. *)
Fixpoint advance (s : set) (it : iterator) (n : nat) : option iterator :=
  match n with
  | O => Some it
  | S n' =>
      match iter_incr s it with
      | Some it' => advance s it' n'
      | None => None
      end
  end.

(** ** Indexed containers *)

(** [c[i] = v] on a deque or through a random-access output iterator. *)
Fixpoint write_at {A : Type} (l : list A) (i : nat) (v : A) : option (list A) :=
  match l, i with
  | [], _ => None
  | _ :: l', O => Some (v :: l')
  | x :: l', S i' =>
      match write_at l' i' v with
      | Some l'' => Some (x :: l'')
      | None => None
      end
  end.

(** [c.back()] together with [c.pop_back()]. *)
Definition pop_back {A : Type} (l : list A) : option (A * list A) :=
  match rev l with
  | [] => None
  | x :: r => Some (x, rev r)
  end.

(** ** Binary64 arithmetic

    Rounding of a rational number to the nearest [double]: in the binade
    of [x] the representable values are the multiples of [2^e] with
    [e = floor (log2 x) - 52], and no spacing is finer than [2^-1074], the
    spacing of the subnormal numbers.  A value half-way between two
    neighbours goes to the one with the even significand.  The products
    formed here stay below [2^64], far from overflow. *)

Local Open Scope Q_scope.

Definition Qltb (a b : Q) : bool := negb (Qle_bool b a).

Definition pow2 (e : Z) : Q := 2 ^ e.

(** [floor (log2 x)] of a positive rational. *)
Definition Qlog2 (x : Q) : Z :=
  let d := (Z.log2 (Qnum x) - Z.log2 (Zpos (Qden x)))%Z in
  if Qle_bool (pow2 d) x then d else (d - 1)%Z.

(** The nearest integer, ties to even. *)
Definition round_half_even (x : Q) : Z :=
  let f := Qfloor x in
  let r := x - inject_Z f in
  if Qltb r (1 # 2) then f
  else if Qltb (1 # 2) r then (f + 1)%Z
  else if Z.even f then f else (f + 1)%Z.

(** The exponent of the unit in the last place at [x]. *)
Definition binary64_exponent (x : Q) : Z := Z.max (Qlog2 x - 52) (-1074).

Definition binary64_positive (x : Q) : Q :=
  let e := binary64_exponent x in
  inject_Z (round_half_even (x / pow2 e)) * pow2 e.

(** The [double] nearest to [x]. *)
Definition binary64 (x : Q) : Q :=
  if Qltb 0 x then binary64_positive x
  else if Qltb x 0 then - binary64_positive (- x)
  else 0.

(** The [double] nearest to 0.35, the value of the literal [0.35]:
    [3152519739159347 / 2^53], a little below 0.35. *)
Definition double_0_35 : Q := 3152519739159347 # 9007199254740992.

(** The multiples of [2^e]. *)
Definition on_grid (e : Z) (x : Q) : Prop :=
  exists m : Z, x == inject_Z m * pow2 e.

(** ** [boost::math::round] and the rank position *)

(** [boost::math::round(v)] on a finite [double], as current Boost
    releases implement it (Boost is not part of the repository): zero
    inside [(-0.5, 0.5)], else [ceil] or [floor] stepped back by one when
    it went more than a half too far.  [ceil], [floor] and the differences
    [ceil(v) - v] and [v - floor(v)] of a [double] are again [double]s, so
    nothing is rounded on the way. *)
Definition round (v : Q) : Z :=
  if Qltb (- (1 # 2)) v && Qltb v (1 # 2) then 0%Z
  else if Qltb 0 v then
    let c := Qceiling v in
    if Qltb (1 # 2) (inject_Z c - v) then (c - 1)%Z else c
  else
    let f := Qfloor v in
    if Qltb (1 # 2) (v - inject_Z f) then (f + 1)%Z else f.

(** [static_cast<size_t>(boost::math::round(rank * length_sub_1))] (line
    98): [length_sub_1] is converted to [double], the product of the two
    [double]s is rounded to a [double], and that is rounded to an
    integer. *)
Definition rank_position (rank : Q) (length_sub_1 : Z) : Z :=
  round (binary64 (rank * binary64 (inject_Z length_sub_1))).

Local Close Scope Q_scope.

(** ** Window initialisation (lines 71-95) *)

(** [for (size_t j = half_length; j > 0;) window_init[--j] = *(++src_pos);] *)
Fixpoint reflect_fill (j : nat) (src : list T) (src_pos : nat)
    (window_init : list T) : option (nat * list T) :=
  match j with
  | O => Some (src_pos, window_init)
  | S j' =>
      match nth_error src (S src_pos) with
      | None => None
      | Some v =>
          match write_at window_init j' v with
          | None => None
          | Some window_init' => reflect_fill j' src (S src_pos) window_init'
          end
      end
  end.

(** What the two insertion loops carry along. *)
Record window := mkWindow {
  w_sorted : set;                 (* sorted_window *)
  w_iters : list iterator;        (* window_iters *)
  w_seen : Z                      (* values_seen *)
}.

(** [window_iters[j] = sorted_window.insert(each_pair).first; ++values_seen] *)
Definition insert_at (j : nat) (v : T) (w : window) : option window :=
  let each_pair := (v, w_seen w) in
  let (s, it) := set_insert each_pair (w_sorted w) in
  match write_at (w_iters w) j it with
  | None => None
  | Some iters => Some (mkWindow s iters (wrap (w_seen w + 1)))
  end.

(** The loop of lines 82-87, [n] iterations from index [j]. *)
Fixpoint insert_reflected (n j : nat) (window_init : list T) (w : window)
    : option window :=
  match n with
  | O => Some w
  | S n' =>
      match nth_error window_init j with
      | None => None
      | Some v =>
          match insert_at j v w with
          | None => None
          | Some w' => insert_reflected n' (S j) window_init w'
          end
      end
  end.

(** The loop of lines 88-94, [n] iterations from index [j]. *)
Fixpoint insert_forward (n j : nat) (window_init : list T) (w : window)
    : option window :=
  match n with
  | O => Some w
  | S n' =>
      match pop_back window_init with
      | None => None
      | Some (v, window_init') =>
          match insert_at j v w with
          | None => None
          | Some w' => insert_forward n' (S j) window_init' w'
          end
      end
  end.

(** The largest number of elements a [std::deque] takes: its [max_size()],
    which the constructor [deque(n)] checks, throwing [std::length_error]
    for a larger [n].  The value is the library's, not the header's: here
    [PTRDIFF_MAX / 8], that of libstdc++ for elements one pointer wide; no
    implementation admits more than [PTRDIFF_MAX] elements. *)
Definition deque_max_size : Z := (2 ^ (size_bits - 1) - 1) / 8.

(** How the set-up of the window ends: the filled window and the source
    position after it, an exception out of a container's constructor, or
    undefined behaviour. *)
Inductive setup :=
| SetupDone (w : window) (src_pos : nat)
| SetupLengthError
| SetupUndefined.

(** Lines 60-95: the two deques are made ([window_iters(length)] on line
    62, [window_init(half_length_add_1)] on line 72) and the window is
    filled. *)
Definition window_setup (src : list T) (half_length : Z) : setup :=
  let half_length_add_1 := wrap (half_length + 1) in
  let length_sub_1 := wrap (2 * half_length) in
  let length := wrap (length_sub_1 + 1) in
  if deque_max_size <? length then SetupLengthError
  else
    let w0 := mkWindow [] (repeat None (Z.to_nat length)) 0 in
    if deque_max_size <? half_length_add_1 then SetupLengthError
    else
      let window_init := repeat 0 (Z.to_nat half_length_add_1) in
      match nth_error src 0 with
      | None => SetupUndefined
      | Some v0 =>
          match write_at window_init (Z.to_nat half_length) v0 with
          | None => SetupUndefined
          | Some window_init1 =>
              match reflect_fill (Z.to_nat half_length) src 0 window_init1 with
              | None => SetupUndefined
              | Some (src_pos, window_init2) =>
                  match insert_reflected (Z.to_nat half_length) 0
                          window_init2 w0 with
                  | None => SetupUndefined
                  | Some w1 =>
                      match insert_forward (Z.to_nat (length - half_length))
                              (Z.to_nat half_length) window_init2 w1 with
                      | None => SetupUndefined
                      | Some w2 => SetupDone w2 (S src_pos)
                      end
                  end
              end
          end
      end.

(** ** The roll-forward loop (lines 102-180) *)

Record state := mkState {
  sorted_window : set;
  window_iters : list iterator;
  values_seen : Z;
  src_pos : nat;
  src_not_empty : bool;
  window_reflect_pos : Z;
  rank_point : iterator;
  rank_value : T;
  dest : list T;
  dest_pos : nat;
  writes : list nat               (* ghost: destination offsets stored to, oldest first *)
}.

(** The branch the if/else-if chain of lines 137-176 takes. *)
Inductive branch := BranchA | BranchB | BranchC | BranchD | FallThrough.

Definition select_branch (rank_value prev_value next_value : T) : branch :=
  if (rank_value <? prev_value) && (rank_value <=? next_value) then BranchA
  else if (rank_value >=? prev_value) && (rank_value >? next_value) then BranchB
  else if (rank_value <? prev_value) && (rank_value >? next_value) then BranchC
  else if (rank_value >=? prev_value) && (rank_value <=? next_value) then BranchD
  else FallThrough.

(** [sorted_window.erase(prev_iter);
     window_iters.push_back(sorted_window.insert(next_pair).first);] *)
Definition erase_then_insert (s : set) (iters : list iterator)
    (prev_iter : iterator) (next_pair : TC) : option (set * list iterator) :=
  match set_erase prev_iter s with
  | None => None
  | Some s1 =>
      let (s2, it) := set_insert next_pair s1 in Some (s2, iters ++ [it])
  end.

(** Lines 134-176: the new set, queue and cursor. *)
Definition roll_update (s : set) (iters : list iterator)
    (rank_point prev_iter : iterator) (rank_value prev_value next_value : T)
    (next_pair : TC) : option (set * list iterator * iterator) :=
  match select_branch rank_value prev_value next_value with
  | BranchA =>
      match erase_then_insert s iters prev_iter next_pair with
      | None => None
      | Some (s2, iters') => Some (s2, iters', rank_point)
      end
  | BranchB =>
      if iterator_eqb rank_point prev_iter then
        let (s1, it) := set_insert next_pair s in
        match iter_decr s1 rank_point with
        | None => None
        | Some rank_point' =>
            match set_erase prev_iter s1 with
            | None => None
            | Some s2 => Some (s2, iters ++ [it], rank_point')
            end
        end
      else
        match erase_then_insert s iters prev_iter next_pair with
        | None => None
        | Some (s2, iters') => Some (s2, iters', rank_point)
        end
  | BranchC =>
      match erase_then_insert s iters prev_iter next_pair with
      | None => None
      | Some (s2, iters') =>
          match iter_decr s2 rank_point with
          | None => None
          | Some rank_point' => Some (s2, iters', rank_point')
          end
      end
  | BranchD =>
      if iterator_eqb rank_point prev_iter then
        let (s1, it) := set_insert next_pair s in
        match iter_incr s1 rank_point with
        | None => None
        | Some rank_point' =>
            match set_erase prev_iter s1 with
            | None => None
            | Some s2 => Some (s2, iters ++ [it], rank_point')
            end
        end
      else
        match erase_then_insert s iters prev_iter next_pair with
        | None => None
        | Some (s2, iters') =>
            match iter_incr s2 rank_point with
            | None => None
            | Some rank_point' => Some (s2, iters', rank_point')
            end
        end
  | FallThrough => Some (s, iters, rank_point)
  end.

(** Lines 118-130: the incoming value, and the source position, flag and
    reflection counter after it was fetched.  [iters] is the queue after
    [pop_front]. *)
Definition next_sample (src : list T) (st : state) (iters : list iterator)
    : option (T * nat * bool * Z) :=
  if src_not_empty st then
    match nth_error src (src_pos st) with
    | None => None
    | Some next_value =>
        let src_pos' := S (src_pos st) in
        Some (next_value, src_pos', negb (src_pos' =? length src)%nat,
              window_reflect_pos st)
    end
  else
    let window_reflect_pos' := wrap (window_reflect_pos st - 2) in
    match nth_error iters (Z.to_nat window_reflect_pos') with
    | None => None
    | Some it =>
        match deref (sorted_window st) it with
        | None => None
        | Some p => Some (fst p, src_pos st, false, window_reflect_pos')
        end
    end.

(** One iteration of the while loop. *)
Definition roll_step (src : list T) (st : state) : option state :=
  match window_iters st with
  | [] => None
  | prev_iter :: iters =>
      match deref (sorted_window st) prev_iter with
      | None => None
      | Some prev_pair =>
          let prev_value := fst prev_pair in
          match next_sample src st iters with
          | None => None
          | Some (next_value, src_pos', src_not_empty', window_reflect_pos') =>
              let values_seen' := wrap (values_seen st + 1) in
              let next_pair := (next_value, values_seen') in
              match roll_update (sorted_window st) iters (rank_point st)
                      prev_iter (rank_value st) prev_value next_value
                      next_pair with
              | None => None
              | Some (s', iters', rank_point') =>
                  match deref s' rank_point' with
                  | None => None
                  | Some rank_pair =>
                      let dest_pos' := S (dest_pos st) in
                      match write_at (dest st) dest_pos' (fst rank_pair) with
                      | None => None
                      | Some dest' =>
                          Some (mkState s' iters' values_seen' src_pos'
                                  src_not_empty' window_reflect_pos'
                                  rank_point' (fst rank_pair) dest' dest_pos'
                                  (writes st ++ [dest_pos']))
                      end
                  end
              end
          end
      end
  end.

(** [src_not_empty || (window_reflect_pos > 0)] *)
Definition loop_cond (st : state) : bool :=
  src_not_empty st || (window_reflect_pos st >? 0).

(** How a call ends. *)
Inductive violation := DestinationTooSmall | WindowTooLarge | RankOutOfRange.

(** A failed assertion and an exception leave the destination as it was
    passed in. *)
Inductive outcome :=
| AssertionFailed (v : violation) (dest : list T)
| LengthError (dest : list T)
| Undefined
| OutOfFuel
| Returned (st : state).

(** The while loop, cut off after [fuel] iterations. *)
Fixpoint roll_forward (fuel : nat) (src : list T) (st : state) : outcome :=
  if loop_cond st then
    match fuel with
    | O => OutOfFuel
    | S fuel' =>
        match roll_step src st with
        | None => Undefined
        | Some st' => roll_forward fuel' src st'
        end
    end
  else Returned st.

(** Lines 97-110: seat the cursor, store the first output. *)
Definition cursor_setup (src dest : list T) (rank : Q) (half_length : Z)
    (w : window) (src_pos : nat) : option state :=
  let length_sub_1 := wrap (2 * half_length) in
  let rank_pos := rank_position rank length_sub_1 in
  match advance (w_sorted w) (set_begin (w_sorted w)) (Z.to_nat rank_pos) with
  | None => None
  | Some rank_point =>
      match deref (w_sorted w) rank_point with
      | None => None
      | Some rank_pair =>
          match write_at dest 0 (fst rank_pair) with
          | None => None
          | Some dest' =>
              Some (mkState (w_sorted w) (w_iters w) (w_seen w) src_pos
                      (negb (src_pos =? length src)%nat) length_sub_1
                      rank_point (fst rank_pair) dest' 0 [0%nat])
          end
      end
  end.

(** The state on entry to the while loop. *)
Definition initial_state (src dest : list T) (half_length : Z) (rank : Q)
    : option state :=
  match window_setup src half_length with
  | SetupDone w src_pos => cursor_setup src dest rank half_length w src_pos
  | _ => None
  end.

Definition lineRankOrderFilter1D (fuel : nat) (src dest : list T)
    (half_length : Z) (rank : Q) : outcome :=
  let half_length_add_1 := wrap (half_length + 1) in
  if negb (distance src <=? distance dest) then
    AssertionFailed DestinationTooSmall dest
  else if negb (half_length_add_1 <=? distance src) then
    AssertionFailed WindowTooLarge dest
  else if negb (Qle_bool 0 rank && Qle_bool rank 1) then
    AssertionFailed RankOutOfRange dest
  else
    match window_setup src half_length with
    | SetupLengthError => LengthError dest
    | SetupUndefined => Undefined
    | SetupDone w src_pos =>
        match cursor_setup src dest rank half_length w src_pos with
        | None => Undefined
        | Some st => roll_forward fuel src st
        end
    end.

Definition output (o : outcome) : option (list T) :=
  match o with
  | Returned st => Some (dest st)
  | _ => None
  end.

(** ** The reference filter, written from the specification

    Each output is an order statistic of the boundary-reflected window
    around its position, found by sorting that window from scratch. *)

(** Mirror a position that falls off either end of a sequence of [n]
    samples back inside. *)
Definition reflect_index (n : nat) (p : Z) : nat :=
  Z.to_nat (if p <? 0 then - p
            else if Z.of_nat n <=? p then 2 * (Z.of_nat n - 1) - p
            else p).

(** The value in slot [j] of the reflected window centred at [p]. *)
Definition window_value (src : list T) (h p j : nat) : T :=
  nth (reflect_index (length src) (Z.of_nat p - Z.of_nat h + Z.of_nat j))
      src 0.

(** The [2 * h + 1] values of the reflected window centred at [p]. *)
Definition reflected_window (src : list T) (h p : nat) : list T :=
  map (window_value src h p) (seq 0 (2 * h + 1)).

Fixpoint sort_insert (x : T) (l : list T) : list T :=
  match l with
  | [] => [x]
  | y :: l' => if x <=? y then x :: l else y :: sort_insert x l'
  end.

(** Brute-force sort of the values of one window. *)
Definition sort_values (l : list T) : list T := fold_right sort_insert [] l.

(** The [k]-th smallest value of the window centred at [p]. *)
Definition reference_value (src : list T) (h k p : nat) : T :=
  nth k (sort_values (reflected_window src h p)) 0.

(** The [k]-th smallest value of every window, in position order. *)
Definition rank_filter_reference (src : list T) (h k : nat) : list T :=
  map (reference_value src h k) (seq 0 (length src)).

(** ** Running the loop a given number of times *)

Fixpoint run_steps (n : nat) (src : list T) (st : state) : option state :=
  match n with
  | O => Some st
  | S n' =>
      match roll_step src st with
      | None => None
      | Some st' => run_steps n' src st'
      end
  end.

(** The state after [n] iterations of the while loop. *)
Definition state_after (n : nat) (src dest : list T) (half_length : Z)
    (rank : Q) : option state :=
  match initial_state src dest half_length rank with
  | None => None
  | Some st => run_steps n src st
  end.

(** What callers must provide: a half length whose window fits in the
    source, a destination at least as long as the source, and a rank in
    [0, 1].  The source range and the [2 * half_length + 1] nodes of the
    window lie in one 64-bit address space, so their counts together stay
    below [2^64]; and the window, every sample of which takes a node of
    several machine words, has no more than [2^53] samples, so that its
    length is a [double] and within what a deque takes. *)
Definition valid_input (src dest : list T) (half_length : Z) (rank : Q) : Prop :=
  0 <= half_length /\
  half_length + 1 <= distance src /\
  distance src <= distance dest /\
  2 * half_length + 1 + distance src < size_modulus /\
  (0 <= rank)%Q /\ (rank <= 1)%Q /\
  2 * half_length <= 2 ^ 53.

(** The ordinal position the cursor is seated at, as a count. *)
Definition rank_index (half_length : Z) (rank : Q) : nat :=
  Z.to_nat (rank_position rank (wrap (2 * half_length))).

(** The sequence index of the [m]-th sample ever inserted: [values_seen] is
    read and then incremented during setup, incremented and then read in
    the loop, so the value [2 * h + 1] is never handed out. *)
Definition sequence_index (h m : nat) : Z :=
  if (m <=? 2 * h)%nat then Z.of_nat m else Z.of_nat m + 1.

(** The sample in slot [j] of the window centred at [p]. *)
Definition window_pair (src : list T) (h p j : nat) : TC :=
  (window_value src h p j, sequence_index h (p + j)).

(** The samples of the window centred at [p], oldest first. *)
Definition window_pairs (src : list T) (h p : nat) : list TC :=
  map (window_pair src h p) (seq 0 (2 * h + 1)).

(** The order of the set as a relation, and what it means for the list
    that holds the set to be in that order. *)
Definition TC_lt (a b : TC) : Prop := TC_less a b = true.

Abbreviation sorted := (StronglySorted TC_lt).

(** No sample of [s] lies strictly between [a] and [b], whichever of the
    two is the smaller. *)
Definition none_between (s : set) (a b : TC) : Prop :=
  forall x, In x s ->
    ~ (TC_lt a x /\ TC_lt x b) /\ ~ (TC_lt b x /\ TC_lt x a).

(** The cursor of [st'] is the cursor of [st] or was a neighbour of it. *)
Definition cursor_adjacent (st st' : state) : Prop :=
  exists r r', rank_point st = Some r /\ rank_point st' = Some r' /\
               none_between (sorted_window st') r r'.

(** The window while it is being filled: [m] samples are in. *)
Record filled (src : list T) (h m : nat) (w : window) : Prop := {
  fl_sorted : sorted (w_sorted w);
  fl_perm : Permutation (w_sorted w) (map (window_pair src h 0) (seq 0 m));
  fl_iters :
    w_iters w =
    map (fun j => if (j <? m)%nat then Some (window_pair src h 0 j) else None)
        (seq 0 (2 * h + 1));
  fl_seen : w_seen w = Z.of_nat m
}.

(** The loop invariant: what the state is after the output at position [i]
    was stored, for a call on [src] and [dest0] with half length [h] and
    cursor position [k]. *)
Record tracks (src dest0 : list T) (h k i : nat) (st : state) : Prop := {
  tr_iters : window_iters st = map Some (window_pairs src h i);
  tr_sorted : sorted (sorted_window st);
  tr_perm : Permutation (sorted_window st) (window_pairs src h i);
  tr_seen : values_seen st = Z.of_nat (2 * h + 1 + i);
  tr_src_pos : src_pos st = Nat.min (h + 1 + i) (length src);
  tr_src_flag : src_not_empty st = (h + 1 + i <? length src)%nat;
  tr_reflect :
    window_reflect_pos st = Z.of_nat (2 * Nat.min h (length src - 1 - i));
  tr_cursor :
    exists r, rank_point st = Some r /\
              nth_error (sorted_window st) k = Some r /\
              rank_value st = fst r;
  tr_dest_pos : dest_pos st = i;
  tr_writes : writes st = seq 0 (S i);
  tr_dest :
    dest st = map (reference_value src h k) (seq 0 (S i)) ++ skipn (S i) dest0
}.

(** Samples of the ordered window strictly below a given one. *)
Definition count_below (r : TC) (s : set) : nat :=
  length (filter (fun x => TC_less x r) s).

(** ** Printing an array (lines 186-200)

    [operator<<] for [boost::array<T, N>].  The array is the list of its
    [N] elements, the stream the text written to it so far, and the
    element type comes with its own [operator<<], here [show].  Reading
    [that[i]] with [i] outside the array yields no result. *)

(** [unsigned int] is a 32-bit unsigned integer. *)
Definition uint_modulus : Z := 2 ^ 32.

Inductive printed :=
| Printed (out : String.string)
| PrintUndefined
| PrintOutOfFuel.

Section Print.

Variable E : Type.
Variable show : E -> String.string.

(** [for (unsigned int i = 0; i < (N - 1); ++i) out << that[i] << ", ";]
    cut off after [fuel] iterations.  [N - 1] is computed in [size_t], the
    counter is widened to [size_t] for the comparison. *)
Fixpoint print_elements (fuel : nat) (that : list E) (i : Z)
    (out : String.string) : printed :=
  if i <? wrap (distance that - 1) then
    match fuel with
    | O => PrintOutOfFuel
    | S fuel' =>
        match nth_error that (Z.to_nat i) with
        | None => PrintUndefined
        | Some x =>
            print_elements fuel' that ((i + 1) mod uint_modulus)
              (String.append (String.append out (show x)) ", ")
        end
    end
  else Printed out.

Definition print_array (fuel : nat) (that : list E) (out : String.string)
    : printed :=
  match print_elements fuel that 0 (String.append out "{ ") with
  | Printed out' =>
      match nth_error that (Z.to_nat (wrap (distance that - 1))) with
      | None => PrintUndefined
      | Some x => Printed (String.append (String.append out' (show x)) " }")
      end
  | PrintUndefined => PrintUndefined
  | PrintOutOfFuel => PrintOutOfFuel
  end.

(** The text of some elements, a comma and a blank after each. *)
Definition comma_after_each (l : list E) : String.string :=
  fold_right (fun x rest => String.append (show x) (String.append ", " rest))
    String.EmptyString l.

End Print.

Arguments Printed out%_string_scope.
Arguments print_array E%_type_scope show%_function_scope fuel%_nat_scope
  that%_list_scope out%_string_scope.

(** [operator<<] of an integer element: its decimal numeral. *)
Definition show_Z (z : Z) : String.string :=
  DecimalString.NilZero.string_of_int (Z.to_int z).

(** How many values of a window are smaller, or larger, than a given one. *)
Definition count_less (v : T) (w : list T) : nat :=
  length (filter (fun x => x <? v) w).

Definition count_greater (v : T) (w : list T) : nat :=
  length (filter (fun x => v <? x) w).

(** * Properties *)

(** ** Concrete runs *)

(** Median of three over a sequence of seven, both ends reflected. *)
Example median_of_three :
  output (lineRankOrderFilter1D 6 [5; 3; 8; 1; 9; 2; 7]
            [0; 0; 0; 0; 0; 0; 0] 1 (1 # 2))
  = Some [3; 5; 3; 8; 2; 7; 2].
Proof. vm_compute. reflexivity. Qed.

Example median_of_three_reference :
  rank_filter_reference [5; 3; 8; 1; 9; 2; 7] 1 1 = [3; 5; 3; 8; 2; 7; 2].
Proof. vm_compute. reflexivity. Qed.

(** Rank 0 picks the minimum of each window, rank 1 the maximum. *)
Example minimum_of_five :
  output (lineRankOrderFilter1D 6 [5; 3; 8; 1; 9; 2; 7]
            [0; 0; 0; 0; 0; 0; 0] 2 0)
  = Some [3; 1; 1; 1; 1; 1; 2].
Proof. vm_compute. reflexivity. Qed.

Example maximum_of_five :
  output (lineRankOrderFilter1D 6 [5; 3; 8; 1; 9; 2; 7]
            [0; 0; 0; 0; 0; 0; 0] 2 1)
  = Some [8; 8; 9; 9; 9; 9; 9].
Proof. vm_compute. reflexivity. Qed.

(** Equal values are told apart by their sequence indices. *)
Example all_equal :
  output (lineRankOrderFilter1D 4 [4; 4; 4; 4; 4] [0; 0; 0; 0; 0] 2 (1 # 2))
  = Some [4; 4; 4; 4; 4].
Proof. vm_compute. reflexivity. Qed.

(** The product of line 98 is a [double].  The [double] written [0.35] is
    a little below 0.35 and ten times it a little below 3.5, but the
    nearest [double] to that product is 3.5 itself, which [round] takes to
    4: the cursor sits at position 4, where the exact product would have
    put it at 3.  Likewise [0.95 * 10] is 9.5 and [0.15 * 10] is 1.5. *)
Example product_of_doubles :
  (binary64 (double_0_35 * binary64 (inject_Z 10))
   == 7 # 2)%Q /\
  rank_position double_0_35 10 = 4 /\
  rank_position (4278419646001971 # 4503599627370496) 10 = 10 /\
  rank_position (5404319552844595 # 36028797018963968) 10 = 2.
Proof. vm_compute. repeat split. Qed.

Example rank_035_of_eleven :
  output (lineRankOrderFilter1D 10 [0; 1; 2; 3; 4; 5; 6; 7; 8; 9; 10]
            [0; 0; 0; 0; 0; 0; 0; 0; 0; 0; 0] 5
            double_0_35)
  = Some [2; 2; 2; 2; 3; 4; 5; 6; 7; 7; 7].
Proof. vm_compute. reflexivity. Qed.

(** Lengths beyond [2^53] are not all [double]s: the nearest one may be
    below or above. *)
Example length_conversion :
  (binary64 (inject_Z (2 ^ 54 + 2)) == inject_Z (2 ^ 54))%Q /\
  (binary64 (inject_Z (2 ^ 54 + 6)) == inject_Z (2 ^ 54 + 8))%Q.
Proof. vm_compute. repeat split. Qed.

(** One iteration too few and the loop is still running. *)
Example cut_short :
  lineRankOrderFilter1D 5 [5; 3; 8; 1; 9; 2; 7] [0; 0; 0; 0; 0; 0; 0] 1 (1 # 2)
  = OutOfFuel.
Proof. vm_compute. reflexivity. Qed.

(** The three assertions, in the order they are made. *)
Example destination_too_small :
  lineRankOrderFilter1D 0 [1; 2] [0] 5 2 = AssertionFailed DestinationTooSmall [0].
Proof. vm_compute. reflexivity. Qed.

Example window_too_large :
  lineRankOrderFilter1D 0 [1; 2] [0; 0] 2 2 = AssertionFailed WindowTooLarge [0; 0].
Proof. vm_compute. reflexivity. Qed.

Example rank_out_of_range :
  lineRankOrderFilter1D 0 [1; 2] [0; 0] 1 (3 # 2)
  = AssertionFailed RankOutOfRange [0; 0].
Proof. vm_compute. reflexivity. Qed.

(** A window of [2^62 + 1] samples over a source that can not hold it is
    turned down by the window check; one of [2^64 - 1] samples passes it
    and ends in the constructor of the deque. *)
Example window_far_too_large :
  lineRankOrderFilter1D 0 [1; 2] [0; 0] (2 ^ 61) 0
  = AssertionFailed WindowTooLarge [0; 0] /\
  lineRankOrderFilter1D 0 [1; 2] [0; 0] (2 ^ 64 - 1) 0 = LengthError [0; 0].
Proof. vm_compute. split; reflexivity. Qed.

(** ** The pair order *)

Lemma TC_less_spec (a b : TC) :
  TC_less a b = true <->
  fst a < fst b \/ (fst a = fst b /\ snd a < snd b).
Proof.
  unfold TC_less.
  rewrite orb_true_iff, andb_true_iff, negb_true_iff, !Z.ltb_lt, Z.ltb_ge.
  lia.
Qed.

Lemma TC_less_false (a b : TC) :
  TC_less a b = false <->
  fst b < fst a \/ (fst a = fst b /\ snd b <= snd a).
Proof.
  destruct (TC_less a b) eqn:E.
  - apply TC_less_spec in E. split; [discriminate | lia].
  - split; [intros _ | reflexivity].
    assert (~ (fst a < fst b \/ (fst a = fst b /\ snd a < snd b))) as H.
    { rewrite <- TC_less_spec. congruence. }
    lia.
Qed.

Lemma TC_eqb_eq (a b : TC) : TC_eqb a b = true <-> a = b.
Proof.
  unfold TC_eqb. rewrite andb_true_iff, !Z.eqb_eq.
  destruct a, b; simpl. split; [intros [-> ->]; reflexivity | intros [= -> ->]; auto].
Qed.

Lemma TC_eqb_refl (a : TC) : TC_eqb a a = true.
Proof. apply TC_eqb_eq. reflexivity. Qed.

Lemma TC_eqb_neq (a b : TC) : TC_eqb a b = false <-> a <> b.
Proof.
  rewrite <- TC_eqb_eq. destruct (TC_eqb a b); split; congruence.
Qed.

Lemma pair_eq (a b : TC) : fst a = fst b -> snd a = snd b -> a = b.
Proof. destruct a, b; simpl; congruence. Qed.

(** Turn every comparison of pairs in sight into linear arithmetic over
    their components. *)
Ltac tc_arith :=
  unfold TC_lt in *;
  repeat match goal with
  | H : TC_less _ _ = true |- _ => apply TC_less_spec in H
  | H : TC_less _ _ = false |- _ => apply TC_less_false in H
  | H : TC_eqb _ _ = true |- _ => apply TC_eqb_eq in H
  | |- TC_less _ _ = true => apply TC_less_spec
  | |- TC_less _ _ = false => apply TC_less_false
  end;
  simpl in *; try lia.

Lemma TC_lt_trans (a b c : TC) : TC_lt a b -> TC_lt b c -> TC_lt a c.
Proof. intros. tc_arith. Qed.

Lemma TC_lt_irrefl (a : TC) : ~ TC_lt a a.
Proof. intros H. tc_arith. Qed.

Lemma TC_less_irrefl (a : TC) : TC_less a a = false.
Proof. tc_arith. Qed.

Lemma TC_trichotomy (a b : TC) :
  TC_less a b = false -> TC_less b a = false -> a = b.
Proof. intros. apply pair_eq; tc_arith. Qed.

Lemma TC_lt_asym (a b : TC) : TC_lt a b -> TC_less b a = false.
Proof. intros. tc_arith. Qed.

(** ** Sorted lists as sets *)

Lemma set_mem_In (x : TC) (s : set) : set_mem x s = true <-> In x s.
Proof.
  induction s as [|y s IH]; simpl.
  - split; [discriminate | tauto].
  - rewrite orb_true_iff, TC_eqb_eq, IH. intuition congruence.
Qed.

Lemma deref_In (s : set) (x : TC) : In x s -> deref s (Some x) = Some x.
Proof. intros H. simpl. apply set_mem_In in H. now rewrite H. Qed.

Lemma deref_Some (s : set) (it : iterator) (x : TC) :
  deref s it = Some x -> it = Some x /\ In x s.
Proof.
  destruct it as [y|]; simpl; [|discriminate].
  destruct (set_mem y s) eqn:E; [|discriminate].
  intros [= ->]. split; [reflexivity | now apply set_mem_In].
Qed.

Lemma sorted_head_lt (y : TC) (s : set) (x : TC) :
  sorted (y :: s) -> In x s -> TC_lt y x.
Proof.
  intros H Hin. apply StronglySorted_inv in H as [_ H].
  rewrite Forall_forall in H. auto.
Qed.

Lemma sorted_tail (y : TC) (s : set) : sorted (y :: s) -> sorted s.
Proof. intros H. now apply StronglySorted_inv in H. Qed.

Lemma sorted_head_notin (y : TC) (s : set) : sorted (y :: s) -> ~ In y s.
Proof.
  intros H Hin. eapply TC_lt_irrefl, sorted_head_lt; eauto.
Qed.

Lemma sorted_NoDup (s : set) : sorted s -> NoDup s.
Proof.
  induction s as [|y s IH]; intros H; constructor.
  - now apply sorted_head_notin.
  - apply IH. eapply sorted_tail; eauto.
Qed.

Lemma set_insert_fresh (x : TC) (s : set) :
  sorted s -> ~ In x s ->
  exists s', set_insert x s = (s', Some x) /\ sorted s' /\
             Permutation s' (x :: s).
Proof.
  induction s as [|y s IH]; intros Hs Hx; simpl.
  - exists [x]. repeat split; auto. repeat constructor.
  - destruct (TC_less x y) eqn:Exy.
    + exists (x :: y :: s). repeat split; auto.
      constructor; auto. constructor; auto.
      apply Forall_forall. intros z Hz.
      eapply TC_lt_trans; [exact Exy|]. eapply sorted_head_lt; eauto.
    + destruct (TC_less y x) eqn:Eyx.
      * destruct IH as (s' & E & Hs' & Hp).
        { eapply sorted_tail; eauto. }
        { simpl in Hx. tauto. }
        rewrite E. exists (y :: s'). repeat split.
        -- constructor; auto. apply Forall_forall. intros z Hz.
           eapply Permutation_in in Hz; [|exact Hp].
           destruct Hz as [<-|Hz]; [exact Eyx|].
           eapply sorted_head_lt; eauto.
        -- rewrite Hp. apply perm_swap.
      * exfalso. apply Hx. left. symmetry. now apply TC_trichotomy.
Qed.

Lemma remove_elt_perm (x : TC) (s : set) :
  In x s -> Permutation s (x :: remove_elt x s).
Proof.
  induction s as [|y s IH]; simpl; [tauto|]. intros H.
  destruct (TC_eqb x y) eqn:E.
  - apply TC_eqb_eq in E. now subst.
  - apply TC_eqb_neq in E. destruct H as [H|H]; [congruence|].
    rewrite (IH H) at 1. apply perm_swap.
Qed.

Lemma remove_elt_incl (x z : TC) (s : set) :
  In z (remove_elt x s) -> In z s.
Proof.
  induction s as [|y s IH]; simpl; [tauto|].
  destruct (TC_eqb x y); simpl; tauto.
Qed.

Lemma remove_elt_sorted (x : TC) (s : set) :
  sorted s -> sorted (remove_elt x s).
Proof.
  induction s as [|y s IH]; simpl; intros H; [constructor|].
  destruct (TC_eqb x y).
  - eapply sorted_tail; eauto.
  - constructor.
    + apply IH. eapply sorted_tail; eauto.
    + apply Forall_forall. intros z Hz. apply remove_elt_incl in Hz.
      eapply sorted_head_lt; eauto.
Qed.

Lemma set_erase_In (x : TC) (s : set) :
  In x s -> set_erase (Some x) s = Some (remove_elt x s).
Proof. intros H. unfold set_erase. now rewrite deref_In. Qed.

(** ** Ordinal positions *)

Lemma count_below_cons (r x : TC) (s : set) :
  count_below r (x :: s) =
  ((if TC_less x r then 1 else 0) + count_below r s)%nat.
Proof. unfold count_below. simpl. now destruct (TC_less x r). Qed.

Lemma count_below_perm (r : TC) (s s' : set) :
  Permutation s s' -> count_below r s = count_below r s'.
Proof.
  induction 1; rewrite ?count_below_cons; lia.
Qed.

Lemma count_below_none (r : TC) (s : set) :
  Forall (TC_lt r) s -> count_below r s = 0%nat.
Proof.
  induction 1 as [|x s Hx _ IH]; [reflexivity|].
  rewrite count_below_cons, IH. now rewrite (TC_lt_asym _ _ Hx).
Qed.

Lemma nth_error_count (s : set) (k : nat) (r : TC) :
  sorted s -> nth_error s k = Some r -> count_below r s = k.
Proof.
  revert k. induction s as [|y s IH]; intros [|k] Hs E; simpl in E;
    try discriminate.
  - injection E as ->. rewrite count_below_cons, TC_less_irrefl.
    apply count_below_none. now apply StronglySorted_inv in Hs.
  - rewrite count_below_cons.
    assert (TC_lt y r) as Hy.
    { eapply sorted_head_lt; eauto. eapply nth_error_In; eauto. }
    rewrite Hy. simpl. f_equal. apply IH; auto. eapply sorted_tail; eauto.
Qed.

Lemma count_nth_error (s : set) (r : TC) :
  sorted s -> In r s -> nth_error s (count_below r s) = Some r.
Proof.
  intros Hs Hr. destruct (In_nth_error _ _ Hr) as [k Hk].
  now rewrite (nth_error_count _ _ _ Hs Hk).
Qed.

Lemma sorted_nth_lt (s : set) (i j : nat) (a b : TC) :
  sorted s -> nth_error s i = Some a -> nth_error s j = Some b ->
  (i < j)%nat -> TC_lt a b.
Proof.
  revert i j. induction s as [|y s IH]; intros [|i] [|j] Hs Ha Hb Hij;
    simpl in *; try discriminate; try lia.
  - injection Ha as ->. eapply sorted_head_lt; eauto.
    eapply nth_error_In; eauto.
  - eapply IH; eauto; [eapply sorted_tail; eauto | lia].
Qed.

Lemma sorted_lt_nth (s : set) (i j : nat) (a b : TC) :
  sorted s -> nth_error s i = Some a -> nth_error s j = Some b ->
  TC_lt a b -> (i < j)%nat.
Proof.
  intros Hs Ha Hb Hab.
  destruct (Nat.lt_trichotomy i j) as [H|[H|H]]; auto.
  - subst. rewrite Ha in Hb. injection Hb as ->.
    now apply TC_lt_irrefl in Hab.
  - pose proof (sorted_nth_lt _ _ _ _ _ Hs Hb Ha H) as Hba.
    apply TC_lt_asym in Hba. unfold TC_lt in Hab. congruence.
Qed.

(** An element with a larger one somewhere in the set has a successor. *)
Lemma successor_exists (s : set) (k : nat) (r n : TC) :
  sorted s -> nth_error s k = Some r -> In n s -> TC_lt r n ->
  exists r', nth_error s (S k) = Some r'.
Proof.
  intros Hs Hr Hn Hlt. destruct (In_nth_error _ _ Hn) as [m Hm].
  pose proof (sorted_lt_nth _ _ _ _ _ Hs Hr Hm Hlt).
  destruct (nth_error s (S k)) eqn:E; eauto.
  apply nth_error_None in E.
  assert (m < length s)%nat by (apply nth_error_Some; congruence). lia.
Qed.

Lemma predecessor_exists (s : set) (k : nat) (r : TC) :
  nth_error s (S k) = Some r -> exists r', nth_error s k = Some r'.
Proof.
  intros Hr. destruct (nth_error s k) eqn:E; eauto.
  apply nth_error_None in E.
  assert (S k < length s)%nat by (apply nth_error_Some; congruence). lia.
Qed.

Lemma elt_next_nth (s : set) (k : nat) (r : TC) :
  sorted s -> nth_error s k = Some r ->
  elt_next r s = Some (nth_error s (S k)).
Proof.
  revert k. induction s as [|y s IH]; intros [|k] Hs E; simpl in E;
    try discriminate; simpl.
  - injection E as ->. rewrite TC_eqb_refl. now destruct s.
  - assert (TC_eqb r y = false) as ->.
    { apply TC_eqb_neq. intros ->.
      eapply sorted_head_notin; eauto. eapply nth_error_In; eauto. }
    apply IH; auto. eapply sorted_tail; eauto.
Qed.

Lemma elt_prev_nth (s : set) (k : nat) (r : TC) :
  sorted s -> nth_error s (S k) = Some r ->
  elt_prev r s = Some (nth_error s k).
Proof.
  revert k. induction s as [|y s IH]; intros k Hs E; simpl in E;
    try discriminate.
  destruct s as [|z s]; [now destruct k|].
  destruct k as [|k]; simpl in E.
  - injection E as ->. simpl. now rewrite TC_eqb_refl.
  - assert (TC_eqb r z = false) as Hz.
    { apply TC_eqb_neq. intros ->.
      eapply sorted_head_notin; [eapply sorted_tail; eauto|].
      eapply nth_error_In; eauto. }
    change (elt_prev r (y :: z :: s))
      with (if TC_eqb r z then Some (Some y) else elt_prev r (z :: s)).
    rewrite Hz. apply (IH k); auto. eapply sorted_tail; eauto.
Qed.

Lemma iter_incr_nth (s : set) (k : nat) (r : TC) :
  sorted s -> nth_error s k = Some r ->
  iter_incr s (Some r) = Some (nth_error s (S k)).
Proof.
  intros Hs Hr. unfold iter_incr.
  rewrite deref_In by (eapply nth_error_In; eauto).
  now apply elt_next_nth.
Qed.

Lemma iter_decr_nth (s : set) (k : nat) (r : TC) :
  sorted s -> nth_error s (S k) = Some r ->
  iter_decr s (Some r) = Some (nth_error s k).
Proof. intros. now apply elt_prev_nth. Qed.

Lemma advance_nth (s : set) (n j : nat) :
  sorted s -> (j + n <= length s)%nat ->
  advance s (nth_error s j) n = Some (nth_error s (j + n)).
Proof.
  revert j. induction n as [|n IH]; intros j Hs Hj; simpl.
  - now rewrite Nat.add_0_r.
  - destruct (nth_error s j) as [x|] eqn:E.
    + rewrite (iter_incr_nth _ _ _ Hs E), IH by (auto; lia).
      do 2 f_equal. lia.
    + apply nth_error_None in E. lia.
Qed.

Lemma advance_begin (s : set) (n : nat) :
  sorted s -> (n <= length s)%nat ->
  advance s (set_begin s) n = Some (nth_error s n).
Proof.
  intros Hs Hn. unfold set_begin.
  replace (hd_error s) with (nth_error s 0) by now destruct s.
  now apply advance_nth.
Qed.

(** ** How one insertion or one erasure moves an element *)

Lemma position_insert (s s1 : set) (n r : TC) (k : nat) :
  sorted s -> sorted s1 -> Permutation s1 (n :: s) ->
  nth_error s k = Some r ->
  nth_error s1 (if TC_less n r then S k else k) = Some r.
Proof.
  intros Hs Hs1 Hp Hr.
  assert (In r s1) as Hin.
  { eapply Permutation_in; [symmetry; exact Hp|].
    right. eapply nth_error_In; eauto. }
  pose proof (count_nth_error _ _ Hs1 Hin) as E.
  rewrite (count_below_perm _ _ _ Hp), count_below_cons in E.
  rewrite (nth_error_count _ _ _ Hs Hr) in E.
  destruct (TC_less n r); exact E.
Qed.

Lemma position_erase (s : set) (p r : TC) (j : nat) :
  sorted s -> In p s -> nth_error s j = Some r -> r <> p ->
  exists j', nth_error (remove_elt p s) j' = Some r /\
             j = ((if TC_less p r then 1 else 0) + j')%nat.
Proof.
  intros Hs Hp Hr Hne.
  pose proof (remove_elt_perm _ _ Hp) as Hperm.
  assert (In r (remove_elt p s)) as Hin.
  { assert (In r (p :: remove_elt p s)) as [H|H]; auto.
    - eapply Permutation_in; [exact Hperm|]. eapply nth_error_In; eauto.
    - congruence. }
  exists (count_below r (remove_elt p s)). split.
  - apply count_nth_error; auto. now apply remove_elt_sorted.
  - rewrite <- (nth_error_count _ _ _ Hs Hr).
    now rewrite (count_below_perm _ _ _ Hperm), count_below_cons.
Qed.

Lemma erase_then_insert_spec (s : set) (iters : list iterator) (p n : TC) :
  sorted s -> In p s -> ~ In n s ->
  exists s2, erase_then_insert s iters (Some p) n = Some (s2, iters ++ [Some n])
             /\ sorted s2 /\ Permutation s2 (n :: remove_elt p s).
Proof.
  intros Hs Hp Hn. unfold erase_then_insert.
  rewrite (set_erase_In _ _ Hp).
  destruct (set_insert_fresh n (remove_elt p s)) as (s2 & E & Hs2 & Hperm).
  - now apply remove_elt_sorted.
  - intros H. apply Hn. eapply remove_elt_incl; eauto.
  - rewrite E. eauto.
Qed.

Lemma insert_then_erase_perm (s s1 : set) (p n : TC) :
  In p s -> Permutation s1 (n :: s) ->
  Permutation (remove_elt p s1) (n :: remove_elt p s).
Proof.
  intros Hp Hperm.
  assert (In p s1) as Hp1.
  { eapply Permutation_in; [symmetry; exact Hperm|]. now right. }
  apply (Permutation_cons_inv (a := p)).
  rewrite <- (remove_elt_perm _ _ Hp1), Hperm.
  rewrite (remove_elt_perm _ _ Hp) at 1. apply perm_swap.
Qed.

Lemma select_branch_cases (rv pv nv : T) :
  select_branch rv pv nv =
  if rv <? pv then (if rv <=? nv then BranchA else BranchC)
  else (if rv <=? nv then BranchD else BranchB).
Proof.
  unfold select_branch. rewrite !Z.geb_leb, !Z.gtb_ltb.
  destruct (Z.ltb_spec rv pv), (Z.leb_spec rv nv), (Z.leb_spec pv rv),
    (Z.ltb_spec nv rv); simpl; try reflexivity; lia.
Qed.

#[local] Arguments iter_decr : simpl never.
#[local] Arguments iter_incr : simpl never.
#[local] Arguments set_erase : simpl never.
#[local] Arguments deref : simpl never.

(** ** The four-case cursor update keeps the cursor's ordinal position *)

Lemma between_self (r x : TC) : ~ (TC_lt r x /\ TC_lt x r).
Proof. intros [H1 H2]. apply TC_lt_asym in H1. unfold TC_lt in H2. congruence. Qed.

(** Nothing lies between two neighbours of a sorted list. *)
Lemma between_neighbours (s : set) (j : nat) (a b x : TC) :
  sorted s -> nth_error s j = Some a -> nth_error s (S j) = Some b ->
  In x s ->
  ~ (TC_lt a x /\ TC_lt x b) /\ ~ (TC_lt b x /\ TC_lt x a).
Proof.
  intros Hs Ha Hb Hx. split; intros [H1 H2].
  - destruct (In_nth_error _ _ Hx) as [m Hm].
    pose proof (sorted_lt_nth _ _ _ _ _ Hs Ha Hm H1).
    pose proof (sorted_lt_nth _ _ _ _ _ Hs Hm Hb H2). lia.
  - assert (TC_lt a b) as Hab by (eapply (sorted_nth_lt s j (S j)); eauto).
    eapply (between_self a b). split; [exact Hab|].
    eapply TC_lt_trans; eauto.
Qed.

(** [p], the sample leaving, is the oldest of the window, so it carries the
    smallest sequence index; the sample entering carries an index above all
    of them.  Then the cursor ends at the ordinal position it started from,
    having moved by at most one place. *)
Lemma roll_update_position (s : set) (iters : list iterator) (k : nat)
    (r p : TC) (nv : T) (ni : Z) :
  sorted s -> nth_error s k = Some r -> In p s ->
  (forall x, In x s -> snd p <= snd x) ->
  (forall x, In x s -> snd x < ni) ->
  exists s' r',
    roll_update s iters (Some r) (Some p) (fst r) (fst p) nv (nv, ni)
      = Some (s', iters ++ [Some (nv, ni)], Some r') /\
    sorted s' /\ Permutation s' ((nv, ni) :: remove_elt p s) /\
    nth_error s' k = Some r' /\
    forall x, In x s' ->
      ~ (TC_lt r x /\ TC_lt x r') /\ ~ (TC_lt r' x /\ TC_lt x r).
Proof.
  intros Hs Hr Hp Hmin Hfresh.
  set (n := (nv, ni)).
  assert (In r s) as Hrin by (eapply nth_error_In; eauto).
  assert (~ In n s) as Hn.
  { intros H. apply Hfresh in H. simpl in H. lia. }
  pose proof (Hmin r Hrin) as Hpr. pose proof (Hfresh r Hrin) as Hrn.
  destruct (erase_then_insert_spec s iters p n Hs Hp Hn)
    as (s2 & Eei & Hs2 & Hperm2).
  destruct (set_insert_fresh n s Hs Hn) as (s1 & Eins & Hs1 & Hperm1).
  assert (In p s1) as Hp1.
  { eapply Permutation_in; [symmetry; exact Hperm1|]. now right. }
  assert (In n s1) as Hn1.
  { eapply Permutation_in; [symmetry; exact Hperm1|]. now left. }
  assert (In n s2) as Hn2.
  { eapply Permutation_in; [symmetry; exact Hperm2|]. now left. }
  pose proof (position_insert s s1 n r k Hs Hs1 Hperm1 Hr) as Hpos1.
  assert (r <> p ->
          nth_error s2 ((if TC_less n r then S k else k)
                        - (if TC_less p r then 1 else 0)) = Some r) as Hpos2.
  { intros Hne.
    destruct (position_erase s p r k Hs Hp Hr Hne) as (j' & Hj' & Ek).
    pose proof (position_insert _ s2 n r j' (remove_elt_sorted p s Hs) Hs2
                  Hperm2 Hj') as H.
    destruct (TC_less n r), (TC_less p r); subst k;
      cbn [Nat.add Nat.sub]; rewrite ?Nat.sub_0_r; assumption. }
  assert (fst p <= fst r -> TC_eqb r p = false -> TC_less p r = true)
    as Hbelow.
  { intros Hle Erp. apply TC_eqb_neq in Erp. apply TC_less_spec.
    destruct (Z.eq_dec (snd p) (snd r)) as [Esnd|Esnd]; [|lia].
    destruct (Z.eq_dec (fst p) (fst r)) as [Efst|Efst]; [|lia].
    exfalso. apply Erp. symmetry. now apply pair_eq. }
  unfold roll_update. rewrite select_branch_cases.
  destruct (Z.ltb_spec (fst r) (fst p)) as [Hrp|Hrp];
    destruct (Z.leb_spec (fst r) nv) as [Hrv|Hrv]; simpl.
  - (* both above the cursor *)
    rewrite Eei. exists s2, r.
    assert (TC_less n r = false) as En by (subst n; tc_arith).
    assert (TC_less p r = false) as Ep by tc_arith.
    rewrite En, Ep, Nat.sub_0_r in Hpos2.
    repeat (split; [solve [auto]|]).
    split; [apply Hpos2; intros ->; lia|].
    intros x _. split; apply between_self.
  - (* leaves above, enters below *)
    rewrite Eei.
    assert (TC_less n r = true) as En by (subst n; tc_arith).
    assert (TC_less p r = false) as Ep by tc_arith.
    rewrite En, Ep, Nat.sub_0_r in Hpos2.
    assert (r <> p) as Hne by (intros ->; lia).
    specialize (Hpos2 Hne).
    rewrite (iter_decr_nth _ _ _ Hs2 Hpos2).
    destruct (predecessor_exists _ _ _ Hpos2) as [r' Hr']. rewrite Hr'.
    exists s2, r'. repeat (split; [solve [auto]|]).
    intros x Hx.
    destruct (between_neighbours s2 k r' r x Hs2 Hr' Hpos2 Hx). tauto.
  - (* leaves at or below, enters at or above *)
    assert (TC_less n r = false) as En by (subst n; tc_arith).
    rewrite En in Hpos1, Hpos2.
    destruct (TC_eqb r p) eqn:Erp.
    + apply TC_eqb_eq in Erp. subst p. fold n. rewrite Eins.
      rewrite (iter_incr_nth _ _ _ Hs1 Hpos1).
      destruct (successor_exists s1 k r n Hs1 Hpos1 Hn1) as [r' Hr'].
      { subst n; tc_arith. }
      rewrite Hr', (set_erase_In _ _ Hp1).
      exists (remove_elt r s1), r'.
      split; [reflexivity|].
      split; [now apply remove_elt_sorted|].
      split; [now apply insert_then_erase_perm|].
      split.
      * assert (TC_lt r r') as Hlt.
        { eapply (sorted_nth_lt s1 k (S k)); eauto. }
        destruct (position_erase s1 r r' (S k) Hs1 Hp1 Hr') as (j' & Hj' & Ek).
        { intros ->. now apply TC_lt_irrefl in Hlt. }
        rewrite Hlt in Ek. simpl in Ek. injection Ek as ->. exact Hj'.
      * intros x Hx. apply remove_elt_incl in Hx.
        apply (between_neighbours s1 k r r' x Hs1 Hpos1 Hr' Hx).
    + specialize (Hbelow Hrp eq_refl). apply TC_eqb_neq in Erp.
      rewrite Hbelow in Hpos2. specialize (Hpos2 Erp).
      fold n. rewrite Eei.
      rewrite (iter_incr_nth _ _ _ Hs2 Hpos2).
      destruct (successor_exists s2 _ r n Hs2 Hpos2 Hn2) as [r' Hr'].
      { subst n; tc_arith. }
      rewrite Hr'. exists s2, r'. repeat (split; [solve [auto]|]).
      split.
      * rewrite <- Hr'.
        destruct k as [|k']; [|f_equal; lia].
        destruct (position_erase s p r 0 Hs Hp Hr Erp) as (j' & _ & Ek).
        rewrite Hbelow in Ek. lia.
      * intros x Hx.
        apply (between_neighbours s2 _ r r' x Hs2 Hpos2 Hr' Hx).
  - (* both below the cursor *)
    assert (TC_less n r = true) as En by (subst n; tc_arith).
    rewrite En in Hpos1, Hpos2.
    destruct (TC_eqb r p) eqn:Erp.
    + apply TC_eqb_eq in Erp. subst p. fold n. rewrite Eins.
      rewrite (iter_decr_nth _ _ _ Hs1 Hpos1).
      destruct (predecessor_exists _ _ _ Hpos1) as [r' Hr'].
      rewrite Hr', (set_erase_In _ _ Hp1).
      exists (remove_elt r s1), r'.
      split; [reflexivity|].
      split; [now apply remove_elt_sorted|].
      split; [now apply insert_then_erase_perm|].
      split.
      * assert (TC_lt r' r) as Hlt.
        { eapply (sorted_nth_lt s1 k (S k)); eauto. }
        destruct (position_erase s1 r r' k Hs1 Hp1 Hr') as (j' & Hj' & Ek).
        { intros ->. now apply TC_lt_irrefl in Hlt. }
        rewrite (TC_lt_asym _ _ Hlt) in Ek. simpl in Ek. now subst j'.
      * intros x Hx. apply remove_elt_incl in Hx.
        destruct (between_neighbours s1 k r' r x Hs1 Hr' Hpos1 Hx). tauto.
    + specialize (Hbelow Hrp eq_refl). apply TC_eqb_neq in Erp.
      rewrite Hbelow in Hpos2. specialize (Hpos2 Erp).
      fold n. rewrite Eei. exists s2, r.
      repeat (split; [solve [auto]|]).
      split.
      * simpl in Hpos2. now rewrite Nat.sub_0_r in Hpos2.
      * intros x _. split; apply between_self.
Qed.

(** ** Lists read and written by index *)

Lemma nth_error_map_seq {A : Type} (f : nat -> A) (n j : nat) :
  nth_error (map f (seq 0 n)) j = if (j <? n)%nat then Some (f j) else None.
Proof.
  rewrite nth_error_map, nth_error_seq. now destruct (j <? n)%nat.
Qed.

Lemma nth_map_seq {A : Type} (f : nat -> A) (n j : nat) (d : A) :
  (j < n)%nat -> nth j (map f (seq 0 n)) d = f j.
Proof.
  intros Hj. apply nth_error_nth. rewrite nth_error_map_seq.
  destruct (Nat.ltb_spec j n); [reflexivity|lia].
Qed.

Lemma repeat_map_seq {A : Type} (a : A) (n : nat) :
  repeat a n = map (fun _ => a) (seq 0 n).
Proof.
  apply nth_error_ext. intros j. rewrite nth_error_map_seq.
  destruct (Nat.ltb_spec j n).
  - now apply nth_error_repeat.
  - apply nth_error_None. now rewrite repeat_length.
Qed.

Lemma write_at_Some {A : Type} (l : list A) (i : nat) (v : A) :
  (i < length l)%nat ->
  exists l', write_at l i v = Some l' /\
    forall j, nth_error l' j = if (j =? i)%nat then Some v else nth_error l j.
Proof.
  revert i. induction l as [|x l IH]; intros [|i] Hi; simpl in Hi; try lia.
  - exists (v :: l). split; [reflexivity|]. now intros [|j].
  - destruct (IH i) as (l' & E & Hl'); [lia|].
    exists (x :: l'). simpl. rewrite E. split; [reflexivity|].
    intros [|j]; [reflexivity|]. apply Hl'.
Qed.

Lemma write_at_map_seq {A : Type} (f g : nat -> A) (n i : nat) (v : A) :
  (i < n)%nat -> g i = v -> (forall j, (j < n)%nat -> j <> i -> g j = f j) ->
  write_at (map f (seq 0 n)) i v = Some (map g (seq 0 n)).
Proof.
  intros Hi Hv Hg.
  destruct (write_at_Some (map f (seq 0 n)) i v) as (l' & E & Hl').
  { now rewrite length_map, length_seq. }
  rewrite E. f_equal. apply nth_error_ext. intros j.
  rewrite Hl', !nth_error_map_seq.
  destruct (Nat.eqb_spec j i) as [->|Hne].
  - apply Nat.ltb_lt in Hi. now rewrite Hi, Hv.
  - destruct (Nat.ltb_spec j n); [|reflexivity]. now rewrite Hg.
Qed.

Lemma write_at_middle {A : Type} (l1 l2 : list A) (x v : A) :
  write_at (l1 ++ x :: l2) (length l1) v = Some (l1 ++ v :: l2).
Proof.
  induction l1 as [|y l1 IH]; simpl; [reflexivity|]. now rewrite IH.
Qed.

Lemma pop_back_map_seq {A : Type} (f : nat -> A) (m : nat) :
  pop_back (map f (seq 0 (S m))) = Some (f m, map f (seq 0 m)).
Proof.
  unfold pop_back. rewrite seq_S, map_app, rev_app_distr. simpl.
  now rewrite rev_involutive.
Qed.

(** ** Machine arithmetic on valid inputs *)

Lemma wrap_small (z : Z) : 0 <= z < size_modulus -> wrap z = z.
Proof. intros H. unfold wrap. now apply Z.mod_small. Qed.

(** ** Window slots *)

Lemma window_value_left (src : list T) (h j : nat) :
  (j <= h)%nat -> window_value src h 0 j = nth (h - j) src 0.
Proof.
  intros Hj. unfold window_value, reflect_index. f_equal.
  destruct (Z.ltb_spec (Z.of_nat 0 - Z.of_nat h + Z.of_nat j) 0); [lia|].
  destruct (Z.leb_spec (Z.of_nat (length src))
              (Z.of_nat 0 - Z.of_nat h + Z.of_nat j)); lia.
Qed.

Lemma window_value_inside (src : list T) (h p j : nat) :
  (h <= p + j)%nat -> (p + j - h < length src)%nat ->
  window_value src h p j = nth (p + j - h) src 0.
Proof.
  intros H1 H2. unfold window_value, reflect_index. f_equal.
  destruct (Z.ltb_spec (Z.of_nat p - Z.of_nat h + Z.of_nat j) 0); [lia|].
  destruct (Z.leb_spec (Z.of_nat (length src))
              (Z.of_nat p - Z.of_nat h + Z.of_nat j)); lia.
Qed.

Lemma window_value_right (src : list T) (h p j : nat) :
  (length src + h <= p + j)%nat ->
  window_value src h p j = nth (2 * (length src - 1) + h - p - j) src 0.
Proof.
  intros H1. unfold window_value, reflect_index. f_equal.
  destruct (Z.ltb_spec (Z.of_nat p - Z.of_nat h + Z.of_nat j) 0); [lia|].
  destruct (Z.leb_spec (Z.of_nat (length src))
              (Z.of_nat p - Z.of_nat h + Z.of_nat j)); lia.
Qed.

Lemma window_value_shift (src : list T) (h p j : nat) :
  window_value src h (S p) j = window_value src h p (S j).
Proof. unfold window_value. do 2 f_equal. lia. Qed.

Lemma window_pair_shift (src : list T) (h p j : nat) :
  window_pair src h (S p) j = window_pair src h p (S j).
Proof.
  unfold window_pair. rewrite window_value_shift. do 2 f_equal. lia.
Qed.

Lemma sequence_index_mono (h a b : nat) :
  (a < b)%nat -> sequence_index h a < sequence_index h b.
Proof.
  intros H. unfold sequence_index.
  destruct (Nat.leb_spec a (2 * h)), (Nat.leb_spec b (2 * h)); lia.
Qed.

Lemma window_pairs_In (src : list T) (h p : nat) (x : TC) :
  In x (window_pairs src h p) <->
  exists j, (j <= 2 * h)%nat /\ x = window_pair src h p j.
Proof.
  unfold window_pairs. rewrite in_map_iff. split.
  - intros (j & <- & Hj). apply in_seq in Hj. exists j. split; [lia|auto].
  - intros (j & Hj & ->). exists j. split; [auto|]. apply in_seq. lia.
Qed.

Lemma window_pairs_step (src : list T) (h p : nat) :
  window_pairs src h (S p) =
  tl (window_pairs src h p) ++ [window_pair src h p (2 * h + 1)].
Proof.
  apply nth_error_ext. intros j. unfold window_pairs.
  rewrite nth_error_map_seq.
  replace (2 * h + 1)%nat with (S (2 * h)) at 2 by lia.
  rewrite <- cons_seq, <- seq_shift. cbn [tl map]. rewrite map_map.
  destruct (Nat.ltb_spec j (2 * h + 1)) as [Hj|Hj].
  - destruct (Nat.eq_dec j (2 * h)) as [->|Hne].
    + rewrite nth_error_app2 by (rewrite length_map, length_seq; lia).
      rewrite length_map, length_seq, Nat.sub_diag. simpl.
      rewrite window_pair_shift. do 2 f_equal. lia.
    + rewrite nth_error_app1 by (rewrite length_map, length_seq; lia).
      rewrite nth_error_map_seq.
      destruct (Nat.ltb_spec j (2 * h)); [|lia].
      now rewrite window_pair_shift.
  - symmetry. apply nth_error_None.
    rewrite length_app, length_map, length_seq. simpl. lia.
Qed.

(** ** Initialisation *)

(** [window_init] once the slots from [j] up hold their sample. *)
Lemma reflect_fill_spec (src : list T) (h j : nat) :
  (h < length src)%nat -> (j <= h)%nat ->
  reflect_fill j src (h - j)
    (map (fun idx => if (idx <? j)%nat then 0 else nth (h - idx) src 0)
         (seq 0 (S h)))
  = Some (h, map (fun idx => nth (h - idx) src 0) (seq 0 (S h))).
Proof.
  intros Hh. induction j as [|j IH]; intros Hj.
  - simpl. now rewrite Nat.sub_0_r.
  - cbn [reflect_fill].
    replace (S (h - S j)) with (h - j)%nat by lia.
    rewrite (nth_error_nth' src 0) by lia.
    rewrite (write_at_map_seq _
               (fun idx => if (idx <? j)%nat then 0 else nth (h - idx) src 0)).
    + apply IH. lia.
    + lia.
    + now rewrite Nat.ltb_irrefl.
    + intros i _ Hi.
      destruct (Nat.ltb_spec i j), (Nat.ltb_spec i (S j)); auto; lia.
Qed.

Lemma filled_empty (src : list T) (h : nat) :
  filled src h 0 (mkWindow [] (repeat None (2 * h + 1)) 0).
Proof.
  constructor; simpl; auto.
  - constructor.
  - apply repeat_map_seq.
Qed.

Lemma insert_at_filled (src : list T) (h m : nat) (w : window) :
  filled src h m w -> (m <= 2 * h)%nat ->
  Z.of_nat (2 * h + 1) < size_modulus ->
  exists w', insert_at m (window_value src h 0 m) w = Some w' /\
             filled src h (S m) w'.
Proof.
  intros [Hs Hp Hi Hn] Hm Hbound. unfold insert_at. rewrite Hn.
  assert ((window_value src h 0 m, Z.of_nat m) = window_pair src h 0 m) as ->.
  { unfold window_pair, sequence_index. simpl.
    destruct (Nat.leb_spec m (h + (h + 0))); [reflexivity|lia]. }
  destruct (set_insert_fresh (window_pair src h 0 m) (w_sorted w) Hs)
    as (s' & E & Hs' & Hp').
  { intros Hin. eapply Permutation_in in Hin; [|exact Hp].
    apply in_map_iff in Hin as (j & Ej & Hj). apply in_seq in Hj.
    apply (f_equal snd) in Ej. simpl in Ej.
    pose proof (sequence_index_mono h j m). lia. }
  rewrite E, Hi.
  rewrite (write_at_map_seq _
    (fun j => if (j <? S m)%nat then Some (window_pair src h 0 j) else None)).
  - eexists. split; [reflexivity|].
    constructor; cbn [w_sorted w_iters w_seen]; auto.
    + rewrite Hp', seq_S, map_app. simpl.
      rewrite Hp. apply Permutation_cons_append.
    + rewrite wrap_small by lia. lia.
  - lia.
  - destruct (Nat.ltb_spec m (S m)); [reflexivity|lia].
  - intros j _ Hj.
    destruct (Nat.ltb_spec j m), (Nat.ltb_spec j (S m)); auto; lia.
Qed.

Lemma insert_reflected_filled (src : list T) (h n : nat) :
  Z.of_nat (2 * h + 1) < size_modulus ->
  forall (m : nat) (w : window),
  (m + n <= h)%nat -> filled src h m w ->
  exists w',
    insert_reflected n m (map (fun idx => nth (h - idx) src 0) (seq 0 (S h))) w
      = Some w' /\
    filled src h (m + n) w'.
Proof.
  intros Hbound. induction n as [|n IH]; intros m w Hm Hw.
  - exists w. rewrite Nat.add_0_r. now split.
  - cbn [insert_reflected]. rewrite nth_error_map_seq.
    destruct (Nat.ltb_spec m (S h)); [|lia].
    rewrite <- window_value_left by lia.
    destruct (insert_at_filled src h m w Hw) as (w1 & E & Hw1); [lia|auto|].
    rewrite E. destruct (IH (S m) w1) as (w' & E' & Hw'); [lia|auto|].
    exists w'. split; [exact E'|].
    now replace (m + S n)%nat with (S m + n)%nat by lia.
Qed.

Lemma insert_forward_filled (src : list T) (h n : nat) :
  Z.of_nat (2 * h + 1) < size_modulus -> (h < length src)%nat ->
  forall (m : nat) (w : window),
  (m + n = 2 * h + 1)%nat -> (n <= h + 1)%nat -> filled src h m w ->
  exists w',
    insert_forward n m (map (fun idx => nth (h - idx) src 0) (seq 0 n)) w
      = Some w' /\
    filled src h (2 * h + 1) w'.
Proof.
  intros Hbound Hh. induction n as [|n IH]; intros m w Hm Hn Hw.
  - exists w. replace (2 * h + 1)%nat with m by lia. now split.
  - cbn [insert_forward]. rewrite pop_back_map_seq.
    replace (nth (h - n) src 0) with (window_value src h 0 m).
    2:{ rewrite window_value_inside by lia. f_equal. lia. }
    destruct (insert_at_filled src h m w Hw) as (w1 & E & Hw1); [lia|auto|].
    rewrite E. apply IH; auto; lia.
Qed.

Lemma deque_max_size_window : 2 ^ 53 + 1 <= deque_max_size.
Proof. apply Z.leb_le. reflexivity. Qed.

Lemma window_setup_spec (src : list T) (h : nat) :
  (h < length src)%nat -> Z.of_nat (2 * h + 1) < size_modulus ->
  2 * Z.of_nat h <= 2 ^ 53 ->
  exists w, window_setup src (Z.of_nat h) = SetupDone w (S h) /\
            filled src h (2 * h + 1) w.
Proof.
  intros Hh Hbound Hdeque. unfold window_setup.
  pose proof deque_max_size_window as Hmax.
  rewrite (wrap_small (Z.of_nat h + 1)) by lia.
  rewrite (wrap_small (2 * Z.of_nat h)) by lia.
  rewrite (wrap_small (2 * Z.of_nat h + 1)) by lia.
  destruct (Z.ltb_spec deque_max_size (2 * Z.of_nat h + 1)) as [?|_]; [lia|].
  destruct (Z.ltb_spec deque_max_size (Z.of_nat h + 1)) as [?|_]; [lia|].
  clear Hmax Hdeque.
  rewrite Nat2Z.id.
  replace (Z.to_nat (Z.of_nat h + 1)) with (S h) by lia.
  replace (Z.to_nat (2 * Z.of_nat h + 1)) with (2 * h + 1)%nat by lia.
  replace (Z.to_nat (2 * Z.of_nat h + 1 - Z.of_nat h)) with (S h) by lia.
  rewrite (nth_error_nth' src 0) by lia.
  rewrite (repeat_map_seq 0 (S h)).
  rewrite (write_at_map_seq _
             (fun idx => if (idx <? h)%nat then 0 else nth (h - idx) src 0)).
  - pose proof (reflect_fill_spec src h h Hh (Nat.le_refl h)) as E.
    rewrite Nat.sub_diag in E. rewrite E.
    destruct (insert_reflected_filled src h h Hbound 0 _ (Nat.le_refl h)
                (filled_empty src h)) as (w1 & E1 & Hw1).
    rewrite E1.
    destruct (insert_forward_filled src h (S h) Hbound Hh h w1)
      as (w2 & E2 & Hw2); auto; try lia.
    rewrite E2. eauto.
  - lia.
  - now rewrite Nat.ltb_irrefl, Nat.sub_diag.
  - intros j Hj Hne. destruct (Nat.ltb_spec j h); auto. lia.
Qed.

(** ** Sorting the values of a window *)

Lemma sort_insert_perm (x : T) (l : list T) :
  Permutation (sort_insert x l) (x :: l).
Proof.
  induction l as [|y l IH]; simpl; auto.
  destruct (x <=? y); auto. rewrite IH. apply perm_swap.
Qed.

Lemma sort_insert_sorted (x : T) (l : list T) :
  StronglySorted Z.le l -> StronglySorted Z.le (sort_insert x l).
Proof.
  induction l as [|y l IH]; intros Hl; simpl.
  - repeat constructor.
  - apply StronglySorted_inv in Hl as [Hl Hy].
    destruct (Z.leb_spec x y).
    + constructor; [now constructor|]. constructor; auto.
      eapply Forall_impl; [|exact Hy]. intros; simpl in *; lia.
    + constructor; auto. apply Forall_forall. intros z Hz.
      eapply Permutation_in in Hz; [|apply sort_insert_perm].
      destruct Hz as [<-|Hz]; [lia|]. rewrite Forall_forall in Hy. auto.
Qed.

Lemma sort_values_perm (l : list T) : Permutation (sort_values l) l.
Proof.
  induction l as [|x l IH]; simpl; auto.
  rewrite sort_insert_perm. now constructor.
Qed.

Lemma sort_values_sorted (l : list T) : StronglySorted Z.le (sort_values l).
Proof.
  induction l as [|x l IH]; simpl; [constructor|].
  now apply sort_insert_sorted.
Qed.

Lemma sorted_perm_unique (l1 l2 : list T) :
  StronglySorted Z.le l1 -> StronglySorted Z.le l2 -> Permutation l1 l2 ->
  l1 = l2.
Proof.
  revert l2. induction l1 as [|x l1 IH]; intros l2 H1 H2 Hp.
  - apply Permutation_nil in Hp. now subst.
  - destruct l2 as [|y l2].
    { symmetry in Hp. now apply Permutation_nil in Hp. }
    apply StronglySorted_inv in H1 as [H1 Hx].
    apply StronglySorted_inv in H2 as [H2 Hy].
    rewrite Forall_forall in Hx, Hy.
    assert (x = y) as ->.
    { assert (In x (y :: l2)) as Hxin
        by (eapply Permutation_in; [exact Hp|now left]).
      assert (In y (x :: l1)) as Hyin
        by (eapply Permutation_in; [symmetry; exact Hp|now left]).
      destruct Hxin as [->|Hxin]; auto.
      destruct Hyin as [->|Hyin]; auto.
      apply Hx in Hyin. apply Hy in Hxin. lia. }
    f_equal. apply IH; auto. eapply Permutation_cons_inv; eauto.
Qed.

Lemma map_fst_sorted (s : set) : sorted s -> StronglySorted Z.le (map fst s).
Proof.
  induction 1 as [|x s Hs IH Hx]; simpl; constructor; auto.
  apply Forall_forall. intros v Hv.
  apply in_map_iff in Hv as (y & <- & Hy).
  rewrite Forall_forall in Hx. apply Hx in Hy. tc_arith.
Qed.

Lemma map_fst_window_pairs (src : list T) (h p : nat) :
  map fst (window_pairs src h p) = reflected_window src h p.
Proof. unfold window_pairs, reflected_window. now rewrite map_map. Qed.

(** The ordered window, stripped of its sequence indices, is the sorted
    window of the reference. *)
Lemma sorted_window_values (src : list T) (h p : nat) (s : set) :
  sorted s -> Permutation s (window_pairs src h p) ->
  map fst s = sort_values (reflected_window src h p).
Proof.
  intros Hs Hp. apply sorted_perm_unique.
  - now apply map_fst_sorted.
  - apply sort_values_sorted.
  - rewrite sort_values_perm, <- map_fst_window_pairs.
    now apply Permutation_map.
Qed.

Lemma cursor_value (src : list T) (h k p : nat) (s : set) (r : TC) :
  sorted s -> Permutation s (window_pairs src h p) ->
  nth_error s k = Some r -> reference_value src h k p = fst r.
Proof.
  intros Hs Hp Hr. unfold reference_value.
  rewrite <- (sorted_window_values src h p s Hs Hp).
  apply nth_error_nth. now apply map_nth_error.
Qed.

Lemma window_pairs_length (src : list T) (h p : nat) :
  length (window_pairs src h p) = (2 * h + 1)%nat.
Proof. unfold window_pairs. now rewrite length_map, length_seq. Qed.

(** ** Comparisons of rationals *)

Lemma Qltb_lt (a b : Q) : Qltb a b = true <-> (a < b)%Q.
Proof.
  unfold Qltb. rewrite negb_true_iff.
  destruct (Qle_bool b a) eqn:E.
  - apply Qle_bool_iff in E. split; [discriminate | lra].
  - split; [intros _ | reflexivity].
    apply Qnot_le_lt. rewrite <- Qle_bool_iff. congruence.
Qed.

Lemma Qltb_ge (a b : Q) : Qltb a b = false <-> (b <= a)%Q.
Proof.
  destruct (Qltb a b) eqn:E.
  - apply Qltb_lt in E. split; [discriminate | lra].
  - split; [intros _ | reflexivity].
    apply Qnot_lt_le. rewrite <- Qltb_lt. congruence.
Qed.

Lemma Qltb_comp (a a' b b' : Q) :
  (a == a')%Q -> (b == b')%Q -> Qltb a b = Qltb a' b'.
Proof. intros Ea Eb. unfold Qltb. f_equal. now apply Qleb_comp. Qed.

(** ** Powers of two *)

Lemma pow2_pos (e : Z) : (0 < pow2 e)%Q.
Proof. apply Qpower_0_lt. reflexivity. Qed.

Lemma pow2_add (a b : Z) : (pow2 (a + b) == pow2 a * pow2 b)%Q.
Proof. apply Qpower_plus. discriminate. Qed.

Lemma pow2_succ (a : Z) : (pow2 (a + 1) == 2 * pow2 a)%Q.
Proof. rewrite pow2_add. unfold pow2 at 2. rewrite Qpower_1_r. ring. Qed.

Lemma pow2_le (a b : Z) : a <= b -> (pow2 a <= pow2 b)%Q.
Proof. intros H. apply Qpower_le_compat_l; [exact H | discriminate]. Qed.

Lemma pow2_lt (a b : Z) : a < b -> (pow2 a < pow2 b)%Q.
Proof. intros H. apply Qpower_lt_compat_l; [exact H | reflexivity]. Qed.

Lemma pow2_inject (e : Z) : 0 <= e -> (pow2 e == inject_Z (2 ^ e))%Q.
Proof. intros H. unfold pow2. now rewrite Zpower_Qpower. Qed.

Lemma pow2_sub (a b : Z) : (pow2 (a - b) == pow2 a / pow2 b)%Q.
Proof. apply Qpower_minus. discriminate. Qed.

(** The quotient of two powers of two is an integer when the exponents
    are in order. *)
Lemma pow2_quotient (a b : Z) :
  b <= a -> (pow2 a / pow2 b == inject_Z (2 ^ (a - b)))%Q.
Proof. intros H. rewrite <- pow2_sub. apply pow2_inject. lia. Qed.

(** ** The binary logarithm *)

Lemma Qdiv_lt_cross (a b c d : Q) :
  (0 < b)%Q -> (0 < d)%Q -> (a * d < c * b)%Q -> (a / b < c / d)%Q.
Proof.
  intros Hb Hd H. apply Qlt_shift_div_r; [exact Hb|].
  setoid_replace (c / d * b)%Q with (c * b / d)%Q by (field; lra).
  apply Qlt_shift_div_l; assumption.
Qed.

Lemma Qlog2_spec (x : Q) :
  (0 < x)%Q -> (pow2 (Qlog2 x) <= x)%Q /\ (x < pow2 (Qlog2 x + 1))%Q.
Proof.
  intros Hx. unfold Qlog2.
  destruct x as [p q]. cbn [Qnum Qden].
  assert (0 < p) as Hp.
  { unfold Qlt in Hx. cbn in Hx. lia. }
  destruct (Z.log2_spec p Hp) as [Hp1 Hp2].
  destruct (Z.log2_spec (Zpos q) (Pos2Z.is_pos q)) as [Hq1 Hq2].
  pose proof (Z.log2_nonneg p) as Hlp.
  pose proof (Z.log2_nonneg (Zpos q)) as Hlq.
  set (lp := Z.log2 p) in *. set (lq := Z.log2 (Zpos q)) in *.
  rewrite Z.pow_succ_r in Hp2, Hq2 by assumption.
  rewrite Zle_Qle in Hp1, Hq1. rewrite Zlt_Qlt in Hp2, Hq2.
  rewrite inject_Z_mult in Hp2, Hq2.
  rewrite <- (pow2_inject lp), <- (pow2_inject lq) in * by assumption.
  change (inject_Z 2) with 2%Q in *.
  pose proof (pow2_pos lp) as HA. pose proof (pow2_pos lq) as HB.
  assert (0 < inject_Z (Zpos q))%Q as HQ by lra.
  assert (p # q == inject_Z p / inject_Z (Zpos q))%Q as Ex
    by apply Qmake_Qdiv.
  assert (pow2 (lp - lq - 1) < p # q)%Q as Hlow.
  { rewrite Ex.
    replace (lp - lq - 1) with (lp - (lq + 1)) by lia.
    rewrite pow2_sub, pow2_succ.
    apply Qdiv_lt_cross; nra. }
  assert (p # q < pow2 (lp - lq + 1))%Q as Hhigh.
  { rewrite Ex.
    replace (lp - lq + 1) with (lp + 1 - lq) by lia.
    rewrite pow2_sub, pow2_succ.
    apply Qdiv_lt_cross; nra. }
  destruct (Qle_bool (pow2 (lp - lq)) (p # q)) eqn:E.
  - apply Qle_bool_iff in E. split; assumption.
  - assert (p # q < pow2 (lp - lq))%Q as E'.
    { apply Qnot_le_lt. rewrite <- Qle_bool_iff. congruence. }
    replace (lp - lq - 1 + 1) with (lp - lq) by lia.
    split; [apply Qlt_le_weak|]; assumption.
Qed.

Lemma Qlog2_unique (x : Q) (l : Z) :
  (pow2 l <= x)%Q -> (x < pow2 (l + 1))%Q -> Qlog2 x = l.
Proof.
  intros H1 H2.
  assert (0 < x)%Q as Hx by (pose proof (pow2_pos l); lra).
  destruct (Qlog2_spec x Hx) as [H3 H4].
  destruct (Z.lt_trichotomy (Qlog2 x) l) as [H|[H|H]]; [|exact H|].
  - pose proof (pow2_le (Qlog2 x + 1) l ltac:(lia)). lra.
  - pose proof (pow2_le (l + 1) (Qlog2 x) ltac:(lia)). lra.
Qed.

Lemma Qlog2_comp (x y : Q) : (0 < x)%Q -> (x == y)%Q -> Qlog2 x = Qlog2 y.
Proof.
  intros Hx E. destruct (Qlog2_spec x Hx) as [H1 H2].
  symmetry. apply Qlog2_unique; rewrite <- E; assumption.
Qed.

Lemma Qlog2_monotone (x y : Q) :
  (0 < x)%Q -> (x <= y)%Q -> Qlog2 x <= Qlog2 y.
Proof.
  intros Hx Hxy.
  destruct (Qlog2_spec x Hx) as [H1 H2].
  destruct (Qlog2_spec y ltac:(lra)) as [H3 H4].
  destruct (Z_le_gt_dec (Qlog2 x) (Qlog2 y)) as [H|H]; [exact H|].
  pose proof (pow2_le (Qlog2 y + 1) (Qlog2 x) ltac:(lia)). lra.
Qed.

(** ** Rounding to the nearest integer, ties to even *)

Lemma round_half_even_comp (x y : Q) :
  (x == y)%Q -> round_half_even x = round_half_even y.
Proof.
  intros E. unfold round_half_even.
  rewrite (Qfloor_comp x y E).
  rewrite (Qltb_comp (x - inject_Z (Qfloor y)) (y - inject_Z (Qfloor y))
             (1 # 2) (1 # 2)) by (try rewrite E; reflexivity).
  rewrite (Qltb_comp (1 # 2) (1 # 2) (x - inject_Z (Qfloor y))
             (y - inject_Z (Qfloor y))) by (try rewrite E; reflexivity).
  reflexivity.
Qed.

Lemma round_half_even_integer (n : Z) : round_half_even (inject_Z n) = n.
Proof.
  unfold round_half_even. rewrite Qfloor_Z.
  assert (Qltb (inject_Z n - inject_Z n) (1 # 2) = true) as ->
    by (apply Qltb_lt; lra).
  reflexivity.
Qed.

Lemma round_half_even_monotone (x y : Q) :
  (x <= y)%Q -> round_half_even x <= round_half_even y.
Proof.
  intros Hxy. pose proof (Qfloor_resp_le x y Hxy) as Hf.
  pose proof (Qfloor_le x) as Hx1. pose proof (Qlt_floor x) as Hx2.
  pose proof (Qfloor_le y) as Hy1. pose proof (Qlt_floor y) as Hy2.
  rewrite inject_Z_plus in Hx2, Hy2. change (inject_Z 1) with 1%Q in *.
  unfold round_half_even.
  destruct (Z.eq_dec (Qfloor x) (Qfloor y)) as [E|N].
  - rewrite E in *.
    destruct (Qltb (x - inject_Z (Qfloor y)) (1 # 2)) eqn:E1;
      destruct (Qltb (1 # 2) (x - inject_Z (Qfloor y))) eqn:E2;
      destruct (Qltb (y - inject_Z (Qfloor y)) (1 # 2)) eqn:E3;
      destruct (Qltb (1 # 2) (y - inject_Z (Qfloor y))) eqn:E4;
      destruct (Z.even (Qfloor y));
      try lia;
      repeat match goal with
        | H : Qltb _ _ = true |- _ => apply Qltb_lt in H
        | H : Qltb _ _ = false |- _ => apply Qltb_ge in H
        end; lra.
  - assert (Qfloor x + 1 <= Qfloor y) by lia.
    destruct (Qltb (x - inject_Z (Qfloor x)) (1 # 2));
      destruct (Qltb (1 # 2) (x - inject_Z (Qfloor x)));
      destruct (Qltb (y - inject_Z (Qfloor y)) (1 # 2));
      destruct (Qltb (1 # 2) (y - inject_Z (Qfloor y)));
      destruct (Z.even (Qfloor x)); destruct (Z.even (Qfloor y)); lia.
Qed.

Lemma round_half_even_near (x : Q) :
  (inject_Z (round_half_even x) - (1 # 2) <= x)%Q /\
  (x <= inject_Z (round_half_even x) + (1 # 2))%Q.
Proof.
  pose proof (Qfloor_le x) as H1. pose proof (Qlt_floor x) as H2.
  rewrite inject_Z_plus in H2. change (inject_Z 1) with 1%Q in H2.
  unfold round_half_even.
  destruct (Qltb (x - inject_Z (Qfloor x)) (1 # 2)) eqn:E1.
  - apply Qltb_lt in E1. split; lra.
  - apply Qltb_ge in E1.
    destruct (Qltb (1 # 2) (x - inject_Z (Qfloor x))) eqn:E2.
    + rewrite inject_Z_plus. change (inject_Z 1) with 1%Q. split; lra.
    + apply Qltb_ge in E2. destruct (Z.even (Qfloor x)).
      * split; lra.
      * rewrite inject_Z_plus. change (inject_Z 1) with 1%Q. split; lra.
Qed.

(** ** Rounding to the grid of one exponent *)

Lemma grid_round_exact (e : Z) (x : Q) :
  on_grid e x ->
  (inject_Z (round_half_even (x / pow2 e)) * pow2 e == x)%Q.
Proof.
  intros [m E]. pose proof (pow2_pos e) as He.
  rewrite (round_half_even_comp _ (inject_Z m)).
  - rewrite round_half_even_integer. now rewrite E.
  - rewrite E. field. lra.
Qed.

Lemma grid_round_monotone (e : Z) (x y : Q) :
  (x <= y)%Q ->
  (inject_Z (round_half_even (x / pow2 e)) * pow2 e
   <= inject_Z (round_half_even (y / pow2 e)) * pow2 e)%Q.
Proof.
  intros Hxy. pose proof (pow2_pos e) as He.
  apply Qmult_le_compat_r; [|lra].
  rewrite <- Zle_Qle. apply round_half_even_monotone.
  apply Qmult_le_compat_r; [exact Hxy|].
  apply Qlt_le_weak, Qinv_lt_0_compat, He.
Qed.

Lemma grid_coarser (e e' : Z) (x : Q) :
  e <= e' -> on_grid e' x -> on_grid e x.
Proof.
  intros H [m E]. exists (m * 2 ^ (e' - e))%Z.
  rewrite E, inject_Z_mult, <- pow2_inject by lia.
  replace e' with (e' - e + e) at 1 by lia. rewrite pow2_add. ring.
Qed.

Lemma grid_pow2 (e l : Z) : e <= l -> on_grid e (pow2 l).
Proof.
  intros H. exists (2 ^ (l - e))%Z.
  rewrite <- pow2_inject by lia. rewrite <- pow2_add. now replace (l - e + e) with l by lia.
Qed.

(** ** Binary64 rounding of positive values *)

Lemma binary64_exponent_monotone (x y : Q) :
  (0 < x)%Q -> (x <= y)%Q -> binary64_exponent x <= binary64_exponent y.
Proof.
  intros Hx Hxy. unfold binary64_exponent.
  pose proof (Qlog2_monotone x y Hx Hxy). lia.
Qed.

Lemma binary64_exponent_comp (x y : Q) :
  (0 < x)%Q -> (x == y)%Q -> binary64_exponent x = binary64_exponent y.
Proof.
  intros Hx E. unfold binary64_exponent. now rewrite (Qlog2_comp x y Hx E).
Qed.

Lemma binary64_positive_comp (x y : Q) :
  (0 < x)%Q -> (x == y)%Q ->
  (binary64_positive x == binary64_positive y)%Q.
Proof.
  intros Hx E. unfold binary64_positive.
  rewrite (binary64_exponent_comp x y Hx E).
  rewrite (round_half_even_comp (x / pow2 (binary64_exponent y))
             (y / pow2 (binary64_exponent y))) by now rewrite E.
  reflexivity.
Qed.

Lemma binary64_positive_exact (x : Q) :
  on_grid (binary64_exponent x) x -> (binary64_positive x == x)%Q.
Proof. apply grid_round_exact. Qed.

Lemma binary64_positive_monotone (x y : Q) :
  (0 < x)%Q -> (x <= y)%Q ->
  (binary64_positive x <= binary64_positive y)%Q.
Proof.
  intros Hx Hxy.
  pose proof (binary64_exponent_monotone x y Hx Hxy) as He.
  unfold binary64_positive.
  destruct (Z.eq_dec (binary64_exponent x) (binary64_exponent y)) as [E|N].
  - rewrite E. now apply grid_round_monotone.
  - assert (binary64_exponent x < binary64_exponent y) as Hlt by lia.
    clear He N. unfold binary64_exponent in Hlt.
    set (ex := binary64_exponent x). set (ey := binary64_exponent y).
    assert (ey = Qlog2 y - 52) as Ey by (unfold ey, binary64_exponent; lia).
    assert (Qlog2 x - 52 <= ex) as Ex by (unfold ex, binary64_exponent; lia).
    assert (ex < ey) as Hlt' by (unfold ex, ey, binary64_exponent; lia).
    destruct (Qlog2_spec x Hx) as [_ Hx2].
    destruct (Qlog2_spec y ltac:(lra)) as [Hy1 _].
    set (b := pow2 (Qlog2 y)).
    assert (x <= b)%Q as Hxb.
    { pose proof (pow2_le (Qlog2 x + 1) (Qlog2 y) ltac:(lia)).
      unfold b. lra. }
    apply Qle_trans with b.
    + rewrite <- (grid_round_exact ex b) by (apply grid_pow2; lia).
      now apply grid_round_monotone.
    + rewrite <- (grid_round_exact ey b) at 1 by (apply grid_pow2; lia).
      now apply grid_round_monotone.
Qed.

(** The rounded value is a multiple of the unit in the last place and
    within half a unit of the argument. *)
Lemma binary64_positive_near (x : Q) :
  on_grid (binary64_exponent x) (binary64_positive x) /\
  (binary64_positive x - (1 # 2) * pow2 (binary64_exponent x) <= x)%Q /\
  (x <= binary64_positive x + (1 # 2) * pow2 (binary64_exponent x))%Q.
Proof.
  unfold binary64_positive.
  pose proof (pow2_pos (binary64_exponent x)) as He.
  set (e := pow2 (binary64_exponent x)) in *.
  destruct (round_half_even_near (x / e)) as [H1 H2].
  set (m := inject_Z (round_half_even (x / e))) in *.
  split; [now eexists|].
  assert (x == x / e * e)%Q as Ex by (field; lra).
  set (y := (x / e)%Q) in *.
  assert ((m - (1 # 2)) * e <= y * e)%Q
    by (apply Qmult_le_compat_r; lra).
  assert (y * e <= (m + (1 # 2)) * e)%Q
    by (apply Qmult_le_compat_r; lra).
  clearbody m y e. split; lra.
Qed.

Lemma binary64_positive_nonneg (x : Q) :
  (0 < x)%Q -> (0 <= binary64_positive x)%Q.
Proof.
  intros Hx. unfold binary64_positive.
  pose proof (pow2_pos (binary64_exponent x)) as He.
  apply Qmult_le_0_compat; [|lra].
  rewrite <- (Zle_Qle 0).
  rewrite <- (round_half_even_integer 0).
  apply round_half_even_monotone. change (inject_Z 0) with 0%Q.
  apply Qle_shift_div_l; [exact He|lra].
Qed.

(** ** Binary64 rounding *)

Lemma binary64_comp (x y : Q) : (x == y)%Q -> (binary64 x == binary64 y)%Q.
Proof.
  intros E. unfold binary64.
  rewrite (Qltb_comp 0 0 x y), (Qltb_comp x y 0 0) by (auto; reflexivity).
  destruct (Qltb 0 y) eqn:E1.
  - apply Qltb_lt in E1. apply binary64_positive_comp; [lra|exact E].
  - destruct (Qltb y 0) eqn:E2; [|reflexivity].
    apply Qltb_lt in E2.
    rewrite (binary64_positive_comp (- x) (- y)); [reflexivity|lra|lra].
Qed.

Lemma binary64_zero (x : Q) : (x == 0)%Q -> (binary64 x == 0)%Q.
Proof.
  intros E. rewrite (binary64_comp x 0 E). reflexivity.
Qed.

Lemma binary64_nonneg (x : Q) : (0 <= x)%Q -> (0 <= binary64 x)%Q.
Proof.
  intros Hx. unfold binary64.
  destruct (Qltb 0 x) eqn:E1.
  - apply Qltb_lt in E1. now apply binary64_positive_nonneg.
  - destruct (Qltb x 0) eqn:E2; [|lra].
    apply Qltb_lt in E2. lra.
Qed.

Lemma binary64_monotone (x y : Q) :
  (0 <= x)%Q -> (x <= y)%Q -> (binary64 x <= binary64 y)%Q.
Proof.
  intros Hx Hxy. unfold binary64 at 1.
  destruct (Qltb 0 x) eqn:E1.
  - apply Qltb_lt in E1. unfold binary64.
    assert (Qltb 0 y = true) as -> by (apply Qltb_lt; lra).
    now apply binary64_positive_monotone.
  - destruct (Qltb x 0) eqn:E2.
    + apply Qltb_lt in E2. lra.
    + apply binary64_nonneg. lra.
Qed.

(** Integers up to [2^53] are binary64 values. *)
Lemma binary64_integer (n : Z) :
  0 <= n <= 2 ^ 53 -> (binary64 (inject_Z n) == inject_Z n)%Q.
Proof.
  intros Hn. unfold binary64.
  destruct (Qltb 0 (inject_Z n)) eqn:E1.
  - apply Qltb_lt in E1.
    apply binary64_positive_exact.
    destruct (Qlog2_spec _ E1) as [H1 H2].
    set (l := Qlog2 (inject_Z n)) in *.
    assert (l <= 53) as Hl.
    { destruct (Z_le_gt_dec l 53) as [H|H]; [exact H|].
      pose proof (pow2_le 54 l ltac:(lia)) as H3.
      rewrite (pow2_inject 54) in H3 by lia.
      assert (inject_Z (2 ^ 54) <= inject_Z n)%Q as H4 by lra.
      rewrite <- Zle_Qle in H4. lia. }
    unfold binary64_exponent. fold l.
    destruct (Z.eq_dec l 53) as [E|N].
    + assert (n = 2 ^ 53) as ->.
      { rewrite E, (pow2_inject 53) in H1 by lia.
        rewrite <- Zle_Qle in H1. lia. }
      exists (2 ^ 52)%Z. rewrite E.
      change (Z.max (53 - 52) (-1074)) with 1%Z.
      unfold pow2. rewrite Qpower_1_r. reflexivity.
    + set (e := Z.max (l - 52) (-1074)).
      assert (e <= 0) as He by (unfold e; lia).
      exists (n * 2 ^ (- e))%Z.
      rewrite inject_Z_mult, <- pow2_inject by lia.
      rewrite <- Qmult_assoc, <- pow2_add.
      replace (- e + e) with 0%Z by lia. unfold pow2.
      rewrite Qpower_0_r. ring.
  - destruct (Qltb (inject_Z n) 0) eqn:E2.
    + apply Qltb_lt in E2. exfalso.
      assert (0 <= inject_Z n)%Q by (rewrite <- (Zle_Qle 0); lia). lra.
    + apply Qltb_ge in E1, E2. lra.
Qed.

Lemma binary64_bounded (x : Q) (n : Z) :
  n <= 2 ^ 53 -> (0 <= x)%Q -> (x <= inject_Z n)%Q ->
  (0 <= binary64 x)%Q /\ (binary64 x <= inject_Z n)%Q.
Proof.
  intros Hn H0 Hx. split; [now apply binary64_nonneg|].
  assert (0 <= n) as Hn0.
  { rewrite Zle_Qle. change (inject_Z 0) with 0%Q. lra. }
  rewrite <- (binary64_integer n) by lia.
  now apply binary64_monotone.
Qed.

(** A multiple of [2^a] below [2^(a + 53)] has a significand of at most
    53 bits and is a binary64 value. *)
Lemma binary64_dyadic (x : Q) (m a : Z) :
  -1074 <= a -> (0 <= x)%Q -> (x == inject_Z m * pow2 a)%Q ->
  (x < pow2 (a + 53))%Q -> (binary64 x == x)%Q.
Proof.
  intros Ha H0 E Hx. unfold binary64.
  destruct (Qltb 0 x) eqn:E1.
  - apply Qltb_lt in E1. apply binary64_positive_exact.
    apply (grid_coarser _ a); [|now exists m].
    destruct (Qlog2_spec x E1) as [H1 _].
    unfold binary64_exponent.
    destruct (Z_le_gt_dec (Qlog2 x) (a + 52)) as [H|H]; [lia|].
    pose proof (pow2_le (a + 53) (Qlog2 x) ltac:(lia)). lra.
  - apply Qltb_ge in E1.
    assert (Qltb x 0 = false) as -> by (apply Qltb_ge; lra). lra.
Qed.

Lemma binary64_half_integer (k : Z) :
  0 <= k < 2 ^ 52 ->
  (binary64 (inject_Z k + (1 # 2)) == inject_Z k + (1 # 2))%Q.
Proof.
  intros Hk.
  assert (0 <= inject_Z k)%Q as H0 by (rewrite <- (Zle_Qle 0); lia).
  assert (inject_Z k + 1 <= inject_Z (2 ^ 52))%Q as H1.
  { change 1%Q with (inject_Z 1). rewrite <- inject_Z_plus, <- Zle_Qle. lia. }
  apply (binary64_dyadic _ (2 * k + 1) (-1)); [lia|lra| |].
  - rewrite inject_Z_plus, inject_Z_mult.
    change (pow2 (-1)) with (/ 2)%Q. change (inject_Z 2) with 2%Q.
    change (inject_Z 1) with 1%Q. field.
  - change (-1 + 53) with 52. rewrite pow2_inject by lia. lra.
Qed.

(** ** Rounding to an integer *)

Lemma round_bounds (v : Q) (n : Z) :
  (0 <= v)%Q -> (v <= inject_Z n)%Q -> 0 <= round v <= n.
Proof.
  intros H0 Hn.
  assert (0 <= n) as Hn0.
  { rewrite Zle_Qle. change (inject_Z 0) with 0%Q. lra. }
  unfold round.
  destruct (Qltb (- (1 # 2)) v && Qltb v (1 # 2)) eqn:E1; [lia|].
  destruct (Qltb 0 v) eqn:E2.
  - apply Qltb_lt in E2.
    pose proof (Qceiling_resp_le _ _ Hn) as Hc. rewrite Qceiling_Z in Hc.
    pose proof (Qle_ceiling v) as Hv.
    assert (0 < Qceiling v).
    { rewrite Zlt_Qlt. change (inject_Z 0) with 0%Q. lra. }
    destruct (Qltb (1 # 2) (inject_Z (Qceiling v) - v)); lia.
  - apply Qltb_ge in E2.
    apply andb_false_iff in E1 as [E1|E1]; apply Qltb_ge in E1; lra.
Qed.

(** The product of line 98 lies in the window: a rank in [0, 1] times a
    length that is a [double] rounds to a value between zero and that
    length. *)
Lemma rank_product_bounds (rank : Q) (n : Z) :
  0 <= n <= 2 ^ 53 -> (0 <= rank)%Q -> (rank <= 1)%Q ->
  (0 <= binary64 (rank * binary64 (inject_Z n)))%Q /\
  (binary64 (rank * binary64 (inject_Z n)) <= inject_Z n)%Q.
Proof.
  intros Hn H0 H1.
  assert (0 <= inject_Z n)%Q as Hz by (rewrite <- (Zle_Qle 0); lia).
  pose proof (binary64_integer n Hn) as E.
  apply binary64_bounded; [lia| |]; rewrite E; nra.
Qed.

Lemma rank_position_bounds (rank : Q) (n : Z) :
  0 <= n <= 2 ^ 53 -> (0 <= rank)%Q -> (rank <= 1)%Q ->
  0 <= rank_position rank n <= n.
Proof.
  intros Hn H0 H1. unfold rank_position.
  destruct (rank_product_bounds rank n Hn H0 H1).
  now apply round_bounds.
Qed.

Lemma rank_index_bound (h : nat) (rank : Q) :
  Z.of_nat (2 * h + 1) < size_modulus -> 2 * Z.of_nat h <= 2 ^ 53 ->
  (0 <= rank)%Q -> (rank <= 1)%Q ->
  (rank_index (Z.of_nat h) rank <= 2 * h)%nat.
Proof.
  intros Hb Hw H0 H1. unfold rank_index.
  rewrite wrap_small by lia.
  pose proof (rank_position_bounds rank (2 * Z.of_nat h)) as H.
  lapply H; [clear H; intros H|lia]. specialize (H H0 H1). lia.
Qed.

(** ** The invariant holds on entry to the loop *)

Lemma filled_full_iters (src : list T) (h : nat) (w : window) :
  filled src h (2 * h + 1) w -> w_iters w = map Some (window_pairs src h 0).
Proof.
  intros Hw. rewrite (fl_iters _ _ _ _ Hw). unfold window_pairs.
  rewrite map_map. apply map_ext_in. intros j Hj. apply in_seq in Hj.
  destruct (Nat.ltb_spec j (2 * h + 1)); [reflexivity|lia].
Qed.

Lemma cursor_setup_tracks (src dest0 : list T) (h : nat) (rank : Q)
    (w : window) :
  (h < length src)%nat -> (length src <= length dest0)%nat ->
  Z.of_nat (2 * h + 1) < size_modulus -> 2 * Z.of_nat h <= 2 ^ 53 ->
  (0 <= rank)%Q -> (rank <= 1)%Q ->
  filled src h (2 * h + 1) w ->
  exists st,
    cursor_setup src dest0 rank (Z.of_nat h) w (S h) = Some st /\
    tracks src dest0 h (rank_index (Z.of_nat h) rank) 0 st.
Proof.
  intros Hh Hd Hb Hdouble H0 H1 Hw.
  pose proof (rank_index_bound h rank Hb Hdouble H0 H1) as Hk.
  clear Hdouble.
  pose proof (fl_sorted _ _ _ _ Hw) as Hs.
  pose proof (fl_perm _ _ _ _ Hw) as Hp. fold (window_pairs src h 0) in Hp.
  assert (length (w_sorted w) = (2 * h + 1)%nat) as Hlen.
  { rewrite (Permutation_length Hp). apply window_pairs_length. }
  unfold cursor_setup. fold (rank_index (Z.of_nat h) rank).
  set (k := rank_index (Z.of_nat h) rank) in *.
  rewrite advance_begin by (auto; lia).
  destruct (nth_error (w_sorted w) k) as [r|] eqn:Er.
  2:{ apply nth_error_None in Er. lia. }
  rewrite deref_In by (eapply nth_error_In; eauto).
  destruct dest0 as [|d0 dest0]; [simpl in Hd; lia|]. simpl write_at.
  eexists. split; [reflexivity|].
  constructor; cbn [sorted_window window_iters values_seen src_pos
                      src_not_empty window_reflect_pos rank_point rank_value
                      dest dest_pos writes]; auto.
  - now apply filled_full_iters.
  - rewrite (fl_seen _ _ _ _ Hw). f_equal. lia.
  - lia.
  - destruct (Nat.eqb_spec (S h) (length src)),
      (Nat.ltb_spec (h + 1 + 0) (length src)); simpl; auto; lia.
  - rewrite wrap_small by lia. lia.
  - eauto.
  - simpl. now rewrite (cursor_value src h k 0 _ r Hs Hp Er).
Qed.

Lemma initial_state_tracks (src dest0 : list T) (h : nat) (rank : Q) :
  (h < length src)%nat -> (length src <= length dest0)%nat ->
  Z.of_nat (2 * h + 1) < size_modulus -> 2 * Z.of_nat h <= 2 ^ 53 ->
  (0 <= rank)%Q -> (rank <= 1)%Q ->
  exists st,
    initial_state src dest0 (Z.of_nat h) rank = Some st /\
    tracks src dest0 h (rank_index (Z.of_nat h) rank) 0 st.
Proof.
  intros Hh Hd Hb Hdouble H0 H1. unfold initial_state.
  destruct (window_setup_spec src h Hh Hb Hdouble) as (w & E & Hw).
  rewrite E. now apply cursor_setup_tracks.
Qed.

(** ** The invariant is kept by every iteration *)

Lemma window_pairs_cons (src : list T) (h p : nat) :
  window_pairs src h p =
  window_pair src h p 0 :: map (fun j => window_pair src h p (S j)) (seq 0 (2 * h)).
Proof.
  unfold window_pairs. replace (2 * h + 1)%nat with (S (2 * h)) by lia.
  rewrite <- cons_seq, <- seq_shift. cbn [map]. now rewrite map_map.
Qed.

Section Loop.

(** One call: its source, the destination as passed in, the half length
    and the ordinal position of the cursor. *)
Variables (src dest0 : list T) (h k : nat).

Hypothesis window_fits : (h < length src)%nat.
Hypothesis result_fits : (length src <= length dest0)%nat.
Hypothesis counters_fit :
  Z.of_nat (2 * h + 1) + Z.of_nat (length src) < size_modulus.

Lemma loop_cond_tracks (i : nat) (st : state) :
  (i < length src)%nat ->
  tracks src dest0 h k i st ->
  loop_cond st = (S i <? length src)%nat.
Proof using.
  clear window_fits result_fits counters_fit.
  intros Hi Ht. unfold loop_cond.
  rewrite (tr_src_flag _ _ _ _ _ _ Ht), (tr_reflect _ _ _ _ _ _ Ht).
  destruct (Nat.ltb_spec (h + 1 + i) (length src)),
    (Nat.ltb_spec (S i) (length src)); cbn [orb]; try lia;
    rewrite Z.gtb_ltb.
  - apply Z.ltb_lt. lia.
  - apply Z.ltb_ge. lia.
Qed.

(** The sample that enters is the one in the last slot of the next
    window, whether it is read from the source or from the queue. *)
Lemma next_sample_tracks (i : nat) (st : state) :
  (S i < length src)%nat ->
  tracks src dest0 h k i st ->
  next_sample src st (map Some (tl (window_pairs src h i))) =
  Some (window_value src h i (2 * h + 1),
        Nat.min (h + 1 + S i) (length src),
        (h + 1 + S i <? length src)%nat,
        Z.of_nat (2 * Nat.min h (length src - 1 - S i))).
Proof using window_fits counters_fit.
  clear result_fits.
  intros Hi Ht. unfold next_sample.
  rewrite (tr_src_flag _ _ _ _ _ _ Ht), (tr_src_pos _ _ _ _ _ _ Ht),
    (tr_reflect _ _ _ _ _ _ Ht).
  destruct (Nat.ltb_spec (h + 1 + i) (length src)) as [Hin|Hout].
  - replace (Nat.min (h + 1 + i) (length src)) with (h + 1 + i)%nat by lia.
    rewrite (nth_error_nth' src 0) by lia.
    rewrite window_value_inside by lia.
    f_equal. apply f_equal2; [apply f_equal2; [apply f_equal2|]|]; try lia.
    + f_equal. lia.
    + destruct (Nat.eqb_spec (S (h + 1 + i)) (length src)),
        (Nat.ltb_spec (h + 1 + S i) (length src)); simpl; auto; lia.
  - replace (Nat.min h (length src - 1 - i)) with (length src - 1 - i)%nat
      by lia.
    rewrite wrap_small by lia.
    replace (Z.to_nat (Z.of_nat (2 * (length src - 1 - i)) - 2))
      with (2 * (length src - 2 - i))%nat by lia.
    rewrite window_pairs_cons. cbn [tl]. rewrite map_map.
    rewrite nth_error_map_seq.
    destruct (Nat.ltb_spec (2 * (length src - 2 - i)) (2 * h)); [|lia].
    rewrite deref_In.
    2:{ eapply Permutation_in; [symmetry; apply (tr_perm _ _ _ _ _ _ Ht)|].
        apply window_pairs_In. eexists. split; [|reflexivity]. lia. }
    cbn [fst window_pair].
    rewrite window_value_inside by lia.
    rewrite window_value_right by lia.
    f_equal. apply f_equal2; [apply f_equal2; [apply f_equal2|]|]; try lia.
    + f_equal. lia.
    + destruct (Nat.ltb_spec (h + 1 + S i) (length src)); auto; lia.
Qed.

Lemma roll_step_invariant (i : nat) (st : state) :
  (S i < length src)%nat ->
  tracks src dest0 h k i st ->
  exists st', roll_step src st = Some st' /\
              tracks src dest0 h k (S i) st' /\ cursor_adjacent st st'.
Proof using window_fits result_fits counters_fit.
  intros Hi Ht.
  pose proof (next_sample_tracks i st Hi Ht) as En.
  destruct Ht as [Hiters Hs Hp Hseen Hpos Hflag Hrefl (r & Hrp & Hr & Hrv)
                    Hdpos Hwrites Hdest].
  set (p := window_pair src h i 0).
  set (n := window_pair src h i (2 * h + 1)).
  assert (In p (sorted_window st)) as Hpin.
  { eapply Permutation_in; [symmetry; exact Hp|].
    apply window_pairs_In. exists 0%nat. split; [lia|reflexivity]. }
  assert (wrap (values_seen st + 1) = snd n) as Hni.
  { rewrite Hseen, wrap_small by lia. subst n.
    unfold window_pair, sequence_index. cbn [snd].
    destruct (Nat.leb_spec (i + (2 * h + 1)) (2 * h)); lia. }
  destruct (roll_update_position (sorted_window st)
              (map Some (tl (window_pairs src h i))) k r p (fst n) (snd n))
    as (s' & r' & Eup & Hs' & Hp' & Hr' & Hadj); auto.
  { intros x Hx. eapply Permutation_in in Hx; [|exact Hp].
    apply window_pairs_In in Hx as (j & Hj & ->). subst p.
    cbn [snd window_pair].
    destruct j; [lia|]. apply Z.lt_le_incl, sequence_index_mono. lia. }
  { intros x Hx. eapply Permutation_in in Hx; [|exact Hp].
    apply window_pairs_In in Hx as (j & Hj & ->). subst n.
    cbn [snd window_pair].
    apply sequence_index_mono. lia. }
  unfold roll_step. rewrite Hiters.
  rewrite (window_pairs_cons src h i). cbn [map]. fold p.
  rewrite deref_In by exact Hpin.
  replace (map Some (map (fun j => window_pair src h i (S j))
                       (seq 0 (2 * h))))
    with (map Some (tl (window_pairs src h i)))
    by (now rewrite window_pairs_cons).
  rewrite En, Hrp, Hrv, Hni.
  change (window_value src h i (2 * h + 1)) with (fst n).
  rewrite Eup.
  rewrite deref_In by (eapply nth_error_In; eauto).
  assert (Permutation s' (window_pairs src h (S i))) as Hperm.
  { rewrite Hp', window_pairs_step. fold n.
    rewrite <- surjective_pairing.
    rewrite <- Permutation_cons_append. constructor.
    apply (Permutation_cons_inv (a := p)).
    rewrite <- (remove_elt_perm _ _ Hpin), Hp.
    now rewrite window_pairs_cons. }
  rewrite Hdest, Hdpos.
  assert (exists d, skipn (S i) dest0 = d :: skipn (S (S i)) dest0)
    as [d Ed].
  { destruct (nth_error dest0 (S i)) as [d|] eqn:E.
    - exists d. pose proof (firstn_skipn_middle _ _ E) as Hm.
      apply (f_equal (skipn (S i))) in Hm.
      rewrite skipn_app, firstn_length_le in Hm by lia.
      rewrite skipn_all2 in Hm by (rewrite firstn_length_le; lia).
      now rewrite Nat.sub_diag in Hm.
    - apply nth_error_None in E. lia. }
  rewrite Ed.
  pose proof (write_at_middle (map (reference_value src h k) (seq 0 (S i)))
                (skipn (S (S i)) dest0) d (fst r')) as Ew.
  rewrite length_map, length_seq in Ew. rewrite Ew.
  eexists. split; [reflexivity|]. split.
  2:{ exists r, r'. repeat split; auto; apply Hadj; auto. }
  constructor; cbn [sorted_window window_iters values_seen src_pos
                      src_not_empty window_reflect_pos rank_point rank_value
                      dest dest_pos writes]; auto.
  - rewrite window_pairs_step, map_app, <- surjective_pairing. reflexivity.
  - subst n. unfold window_pair, sequence_index. cbn [snd].
    destruct (Nat.leb_spec (i + (2 * h + 1)) (2 * h)); lia.
  - eauto.
  - rewrite Hwrites. now rewrite (seq_S (S i)).
  - rewrite (seq_S (S i)), map_app, <- app_assoc. cbn [map app Nat.add].
    now rewrite (cursor_value src h k (S i) s' r' Hs' Hperm Hr').
Qed.

Lemma roll_step_tracks (i : nat) (st : state) :
  (S i < length src)%nat ->
  tracks src dest0 h k i st ->
  exists st', roll_step src st = Some st' /\ tracks src dest0 h k (S i) st'.
Proof using window_fits result_fits counters_fit.
  intros Hi Ht.
  destruct (roll_step_invariant i st Hi Ht) as (st' & E & Ht' & _).
  eauto.
Qed.

(** ** The whole loop *)

Lemma run_steps_tracks (d i : nat) (st : state) :
  (i + d < length src)%nat -> tracks src dest0 h k i st ->
  exists st', run_steps d src st = Some st' /\
              tracks src dest0 h k (i + d) st'.
Proof using window_fits result_fits counters_fit.
  revert i st. induction d as [|d IH]; intros i st Hi Ht.
  - exists st. rewrite Nat.add_0_r. now split.
  - cbn [run_steps].
    destruct (roll_step_tracks i st ltac:(lia) Ht) as (st1 & E & Ht1).
    rewrite E. destruct (IH (S i) st1 ltac:(lia) Ht1) as (st' & E' & Ht').
    exists st'. split; [exact E'|].
    now replace (i + S d)%nat with (S i + d)%nat by lia.
Qed.

(** The loop leaves after exactly the iterations that remain: with that
    much fuel it returns the state those iterations lead to, with less it
    is cut off. *)
Lemma roll_forward_tracks (d i fuel : nat) (st : state) :
  (i + d + 1 = length src)%nat -> tracks src dest0 h k i st ->
  ((d <= fuel)%nat ->
   exists st', roll_forward fuel src st = Returned st' /\
               run_steps d src st = Some st' /\
               tracks src dest0 h k (length src - 1) st') /\
  ((fuel < d)%nat -> roll_forward fuel src st = OutOfFuel).
Proof using window_fits result_fits counters_fit.
  revert i fuel st. induction d as [|d IH]; intros i fuel st Hi Ht.
  - split; [intros _|lia].
    exists st. replace (length src - 1)%nat with i by lia.
    split; [|split; [reflexivity|exact Ht]].
    destruct fuel; simpl;
      rewrite (loop_cond_tracks i st ltac:(lia) Ht);
      destruct (Nat.ltb_spec (S i) (length src)); auto; lia.
  - assert (loop_cond st = true) as Hc.
    { rewrite (loop_cond_tracks i st ltac:(lia) Ht).
      apply Nat.ltb_lt. lia. }
    destruct (roll_step_tracks i st ltac:(lia) Ht) as (st1 & E & Ht1).
    destruct fuel as [|fuel]; cbn [roll_forward run_steps]; rewrite Hc.
    + split; [lia|reflexivity].
    + rewrite E.
      destruct (IH (S i) fuel st1 ltac:(lia) Ht1) as [IH1 IH2].
      split; intros Hf; [apply IH1|apply IH2]; lia.
Qed.

End Loop.

(** ** Valid inputs *)

Lemma valid_input_nat (src dest0 : list T) (half_length : Z) (rank : Q) :
  valid_input src dest0 half_length rank ->
  half_length = Z.of_nat (Z.to_nat half_length) /\
  (Z.to_nat half_length < length src)%nat /\
  (length src <= length dest0)%nat /\
  Z.of_nat (2 * Z.to_nat half_length + 1) + Z.of_nat (length src)
    < size_modulus /\
  (0 <= rank)%Q /\ (rank <= 1)%Q /\
  2 * Z.of_nat (Z.to_nat half_length) <= 2 ^ 53.
Proof.
  unfold valid_input, distance. intros (H0 & H1 & H2 & H3 & H4 & H5 & H6).
  repeat split; auto; lia.
Qed.

Lemma checks_pass (fuel : nat) (src dest0 : list T) (half_length : Z)
    (rank : Q) :
  valid_input src dest0 half_length rank ->
  lineRankOrderFilter1D fuel src dest0 half_length rank =
  match initial_state src dest0 half_length rank with
  | None => Undefined
  | Some st => roll_forward fuel src st
  end.
Proof.
  intros Hv.
  destruct (valid_input_nat _ _ _ _ Hv) as (Eh & Hh & _ & Hb & _ & _ & Hw).
  destruct (window_setup_spec src _ Hh ltac:(lia) Hw) as (w & E & _).
  rewrite <- Eh in E.
  destruct Hv as (H0 & H1 & H2 & H3 & H4 & H5 & _).
  unfold lineRankOrderFilter1D, initial_state.
  rewrite wrap_small by (unfold distance in *; lia).
  rewrite (proj2 (Z.leb_le _ _) H2), (proj2 (Z.leb_le _ _) H1).
  rewrite (proj2 (Qle_bool_iff _ _) H4), (proj2 (Qle_bool_iff _ _) H5).
  cbn [andb negb]. now rewrite E.
Qed.

(** Every state the loop passes through satisfies the invariant. *)
Lemma state_after_tracks (src dest0 : list T) (half_length : Z) (rank : Q)
    (n : nat) :
  valid_input src dest0 half_length rank -> (n < length src)%nat ->
  exists st,
    state_after n src dest0 half_length rank = Some st /\
    tracks src dest0 (Z.to_nat half_length) (rank_index half_length rank) n st.
Proof.
  intros Hv Hn.
  destruct (valid_input_nat _ _ _ _ Hv) as (Eh & Hh & Hd & Hb & H0 & H1 & Hw).
  set (h := Z.to_nat half_length) in *. rewrite Eh.
  destruct (initial_state_tracks src dest0 h rank Hh Hd ltac:(lia) Hw H0 H1)
    as (st0 & E0 & Ht0).
  unfold state_after. rewrite E0.
  apply (run_steps_tracks src dest0 h _ Hh Hd Hb n 0 st0); auto.
Qed.

(** On a valid input the call returns once the loop has run
    [length src - 1] times, and not before. *)
Lemma filter_returns (fuel : nat) (src dest0 : list T) (half_length : Z)
    (rank : Q) :
  valid_input src dest0 half_length rank ->
  ((length src - 1 <= fuel)%nat ->
   exists st,
     lineRankOrderFilter1D fuel src dest0 half_length rank = Returned st /\
     state_after (length src - 1) src dest0 half_length rank = Some st /\
     tracks src dest0 (Z.to_nat half_length) (rank_index half_length rank)
       (length src - 1) st) /\
  ((fuel < length src - 1)%nat ->
   lineRankOrderFilter1D fuel src dest0 half_length rank = OutOfFuel).
Proof.
  intros Hv. rewrite (checks_pass fuel _ _ _ _ Hv).
  destruct (valid_input_nat _ _ _ _ Hv) as (Eh & Hh & Hd & Hb & H0 & H1 & Hw).
  set (h := Z.to_nat half_length) in *. rewrite Eh.
  destruct (initial_state_tracks src dest0 h rank Hh Hd ltac:(lia) Hw H0 H1)
    as (st0 & E0 & Ht0).
  unfold state_after. rewrite E0.
  destruct (roll_forward_tracks src dest0 h _ Hh Hd Hb (length src - 1) 0
              fuel st0 ltac:(lia) Ht0) as [HA HB].
  split; intros Hf.
  - destruct (HA Hf) as (st & E1 & E2 & Ht). eauto.
  - now apply HB.
Qed.

Lemma rank_index_round (src dest0 : list T) (half_length : Z) (rank : Q) :
  valid_input src dest0 half_length rank ->
  rank_index half_length rank = Z.to_nat (rank_position rank (2 * half_length)).
Proof.
  intros (H0 & H1 & H2 & H3 & _). unfold rank_index.
  rewrite wrap_small; [reflexivity|]. unfold distance in *. lia.
Qed.

Lemma valid_input_nonempty (src dest0 : list T) (half_length : Z) (rank : Q) :
  valid_input src dest0 half_length rank -> (0 < length src)%nat.
Proof. intros (H0 & H1 & _). unfold distance in *. lia. Qed.



Lemma final_dest (src dest0 : list T) (h k : nat) (st : state) :
  (0 < length src)%nat ->
  tracks src dest0 h k (length src - 1) st ->
  dest st = rank_filter_reference src h k ++ skipn (length src) dest0.
Proof.
  intros Hn Ht. rewrite (tr_dest _ _ _ _ _ _ Ht).
  now replace (S (length src - 1)) with (length src) by lia.
Qed.

(** Discharge [valid_input] on literal arguments. *)
Ltac valid_input_by_computation :=
  unfold valid_input, distance, size_modulus, size_bits, Qle, double_0_35;
  cbn [length fst snd Qnum Qden]; repeat split; lia.

(** * The properties of the specification *)

(** C1.  On every valid input each output position [p] receives the
    [rank_pos]-th smallest value (counting from 0) of the boundary-reflected
    window of [2 * half_length + 1] values centred at [p], as found by
    sorting that window from scratch, where [rank_pos] is the position
    line 98 computes: the binary64 product of [rank] and
    [2 * half_length], rounded to the nearest integer, halves away from
    zero. *)
Theorem output_is_window_order_statistic (fuel : nat) (src dest0 : list T)
    (half_length : Z) (rank : Q) :
  valid_input src dest0 half_length rank ->
  (length src - 1 <= fuel)%nat ->
  exists out,
    output (lineRankOrderFilter1D fuel src dest0 half_length rank) = Some out /\
    forall p, (p < length src)%nat ->
      nth_error out p =
      Some (nth (Z.to_nat (rank_position rank (2 * half_length)))
              (sort_values (reflected_window src (Z.to_nat half_length) p)) 0).
Proof.
  intros Hv Hf.
  destruct (proj1 (filter_returns fuel _ _ _ _ Hv) Hf) as (st & E & _ & Ht).
  rewrite E. exists (dest st). split; [reflexivity|]. intros p Hp.
  rewrite (final_dest _ _ _ _ _ (valid_input_nonempty _ _ _ _ Hv) Ht).
  rewrite nth_error_app1
    by (unfold rank_filter_reference; now rewrite length_map, length_seq).
  unfold rank_filter_reference. rewrite nth_error_map_seq.
  destruct (Nat.ltb_spec p (length src)); [|lia].
  unfold reference_value. now rewrite (rank_index_round _ _ _ _ Hv).
Qed.

Lemma output_is_window_order_statistic_witness :
  valid_input [0; 1; 2; 3; 4; 5; 6; 7; 8; 9; 10]
    [0; 0; 0; 0; 0; 0; 0; 0; 0; 0; 0] 5 double_0_35 /\
  exists out,
    output (lineRankOrderFilter1D 10 [0; 1; 2; 3; 4; 5; 6; 7; 8; 9; 10]
              [0; 0; 0; 0; 0; 0; 0; 0; 0; 0; 0] 5 double_0_35) = Some out /\
    forall p, (p < 11)%nat ->
      nth_error out p =
      Some (nth (Z.to_nat (rank_position double_0_35 (2 * 5)))
              (sort_values (reflected_window [0; 1; 2; 3; 4; 5; 6; 7; 8; 9; 10]
                              (Z.to_nat 5) p)) 0).
Proof.
  assert (valid_input [0; 1; 2; 3; 4; 5; 6; 7; 8; 9; 10]
            [0; 0; 0; 0; 0; 0; 0; 0; 0; 0; 0] 5 double_0_35)
    as Hv by valid_input_by_computation.
  split; [exact Hv|].
  apply (output_is_window_order_statistic 10 _ _ _ _ Hv). simpl. lia.
Defined.



(** C3.  On every valid input, after initialisation and after every
    iteration of the loop, exactly [rank_pos] samples of the ordered window
    are below the cursor's sample in the (value, sequence index) order,
    [rank_pos] being the position line 98 computes from the binary64
    product of [rank] and [2 * half_length]: the cursor is the element at
    ordinal position [rank_pos].  An iteration leaves the cursor where it
    was or moves it to what was a neighbour: no sample of the new window
    lies between the old and the new cursor. *)
Theorem cursor_keeps_rank_position (src dest0 : list T) (half_length : Z)
    (rank : Q) (n : nat) :
  valid_input src dest0 half_length rank ->
  (n < length src)%nat ->
  exists st r,
    state_after n src dest0 half_length rank = Some st /\
    rank_point st = Some r /\
    In r (sorted_window st) /\
    count_below r (sorted_window st) =
      Z.to_nat (rank_position rank (2 * half_length)) /\
    nth_error (sorted_window st)
      (Z.to_nat (rank_position rank (2 * half_length))) = Some r /\
    ((S n < length src)%nat ->
     exists st', roll_step src st = Some st' /\ cursor_adjacent st st').
Proof.
  intros Hv Hn.
  destruct (valid_input_nat _ _ _ _ Hv) as (Eh & Hh & Hd & Hb & H0 & H1 & Hw).
  destruct (state_after_tracks _ _ _ _ n Hv Hn) as (st & E & Ht).
  rewrite <- (rank_index_round _ _ _ _ Hv).
  destruct (tr_cursor _ _ _ _ _ _ Ht) as (r & Hrp & Hr & _).
  exists st, r. repeat split; auto.
  - eapply nth_error_In; eauto.
  - apply nth_error_count; auto. apply (tr_sorted _ _ _ _ _ _ Ht).
  - intros Hn'.
    destruct (roll_step_invariant _ _ _ _ Hh Hd Hb _ _ Hn' Ht)
      as (st' & E' & _ & Hadj).
    eauto.
Qed.

Lemma cursor_keeps_rank_position_witness :
  valid_input [3; 0; 1; 2; 4; 5; 9; 6; 8; 7; 10]
    [0; 0; 0; 0; 0; 0; 0; 0; 0; 0; 0] 5 double_0_35 /\
  exists st r,
    state_after 4 [3; 0; 1; 2; 4; 5; 9; 6; 8; 7; 10]
      [0; 0; 0; 0; 0; 0; 0; 0; 0; 0; 0] 5 double_0_35 = Some st /\
    rank_point st = Some r /\
    In r (sorted_window st) /\
    count_below r (sorted_window st) = Z.to_nat (rank_position double_0_35 (2 * 5)) /\
    nth_error (sorted_window st) (Z.to_nat (rank_position double_0_35 (2 * 5)))
    = Some r /\
    ((5 < 11)%nat ->
     exists st', roll_step [3; 0; 1; 2; 4; 5; 9; 6; 8; 7; 10] st = Some st' /\
                 cursor_adjacent st st').
Proof.
  assert (valid_input [3; 0; 1; 2; 4; 5; 9; 6; 8; 7; 10]
            [0; 0; 0; 0; 0; 0; 0; 0; 0; 0; 0] 5 double_0_35)
    as Hv by valid_input_by_computation.
  split; [exact Hv|].
  apply (cursor_keeps_rank_position _ _ _ _ 4 Hv). simpl. lia.
Defined.

(** C4.  For every three values the if/else-if chain takes exactly one of
    its four guarded branches, each exactly when its condition holds; the
    conditions exclude one another and together cover every case, so the
    chain never falls through. *)
Theorem branches_partition (rank_value prev_value next_value : T) :
  (select_branch rank_value prev_value next_value = BranchA <->
   rank_value < prev_value /\ rank_value <= next_value) /\
  (select_branch rank_value prev_value next_value = BranchB <->
   rank_value >= prev_value /\ rank_value > next_value) /\
  (select_branch rank_value prev_value next_value = BranchC <->
   rank_value < prev_value /\ rank_value > next_value) /\
  (select_branch rank_value prev_value next_value = BranchD <->
   rank_value >= prev_value /\ rank_value <= next_value) /\
  select_branch rank_value prev_value next_value <> FallThrough.
Proof.
  rewrite select_branch_cases.
  destruct (Z.ltb_spec rank_value prev_value),
    (Z.leb_spec rank_value next_value);
    repeat split; try discriminate; try lia; intros [? ?]; lia.
Qed.

(** C8.  On every valid input the loop ends.  It runs exactly
    [|source| - 1] times: [|source| - (half_length + 1)] iterations that
    consume a source sample, with the reflection counter at
    [2 * half_length], and then [half_length] reflective iterations, each
    entered with the counter at 2 or more and lowering it by exactly 2.
    The counter is 0 on exit. *)
Theorem loop_terminates (src dest0 : list T) (half_length : Z) (rank : Q) :
  valid_input src dest0 half_length rank ->
  (forall fuel, (length src - 1 <= fuel)%nat ->
     exists st,
       lineRankOrderFilter1D fuel src dest0 half_length rank = Returned st /\
       state_after (length src - 1) src dest0 half_length rank = Some st /\
       src_not_empty st = false /\ window_reflect_pos st = 0) /\
  (forall fuel, (fuel < length src - 1)%nat ->
     lineRankOrderFilter1D fuel src dest0 half_length rank = OutOfFuel) /\
  (forall n, (n < length src)%nat ->
     exists st,
       state_after n src dest0 half_length rank = Some st /\
       loop_cond st = (S n <? length src)%nat /\
       src_not_empty st = (Z.of_nat n <? distance src - (half_length + 1)) /\
       window_reflect_pos st =
         2 * half_length
         - 2 * Z.max 0 (Z.of_nat n - (distance src - (half_length + 1))) /\
       (loop_cond st = true -> src_not_empty st = false ->
        2 <= window_reflect_pos st)).
Proof.
  intros Hv.
  destruct (valid_input_nat _ _ _ _ Hv) as (Eh & Hh & Hd & Hb & H0 & H1 & Hw).
  pose proof (valid_input_nonempty _ _ _ _ Hv) as Hne.
  assert (forall n st,
            (n < length src)%nat ->
            tracks src dest0 (Z.to_nat half_length)
              (rank_index half_length rank) n st ->
            src_not_empty st
              = (Z.of_nat n <? distance src - (half_length + 1)) /\
            window_reflect_pos st =
              2 * half_length
              - 2 * Z.max 0 (Z.of_nat n - (distance src - (half_length + 1))))
    as Hshape.
  { intros n st Hn Ht. unfold distance.
    rewrite (tr_src_flag _ _ _ _ _ _ Ht), (tr_reflect _ _ _ _ _ _ Ht). split.
    - destruct (Nat.ltb_spec (Z.to_nat half_length + 1 + n) (length src)),
        (Z.ltb_spec (Z.of_nat n)
           (Z.of_nat (length src) - (half_length + 1))); auto; lia.
    - lia. }
  split; [|split].
  - intros fuel Hf.
    destruct (proj1 (filter_returns fuel _ _ _ _ Hv) Hf) as (st & E & E' & Ht).
    exists st. split; [exact E|]. split; [exact E'|].
    destruct (Hshape (length src - 1)%nat st ltac:(lia) Ht) as [Hflag Hrefl].
    rewrite Hflag, Hrefl. unfold distance. split.
    + apply Z.ltb_ge. lia.
    + lia.
  - intros fuel Hf. now apply (proj2 (filter_returns fuel _ _ _ _ Hv)).
  - intros n Hn.
    destruct (state_after_tracks _ _ _ _ n Hv Hn) as (st & E & Ht).
    exists st. split; [exact E|].
    pose proof (loop_cond_tracks _ _ _ _ _ _ Hn Ht) as Hc.
    destruct (Hshape _ st Hn Ht) as [Hflag Hrefl].
    repeat split; auto.
    rewrite Hc, Hflag, Hrefl. unfold distance.
    intros Hlt Hge. apply Nat.ltb_lt in Hlt. apply Z.ltb_ge in Hge. lia.
Qed.

Lemma loop_terminates_witness :
  valid_input [5; 3; 8; 1; 9; 2; 7] [0; 0; 0; 0; 0; 0; 0] 2 (1 # 4) /\
  exists st,
    lineRankOrderFilter1D 6 [5; 3; 8; 1; 9; 2; 7] [0; 0; 0; 0; 0; 0; 0] 2
      (1 # 4) = Returned st /\
    state_after 6 [5; 3; 8; 1; 9; 2; 7] [0; 0; 0; 0; 0; 0; 0] 2 (1 # 4)
      = Some st /\
    src_not_empty st = false /\ window_reflect_pos st = 0.
Proof.
  assert (valid_input [5; 3; 8; 1; 9; 2; 7] [0; 0; 0; 0; 0; 0; 0] 2 (1 # 4))
    as Hv by valid_input_by_computation.
  split; [exact Hv|].
  apply (proj1 (loop_terminates _ _ _ _ Hv) 6%nat). simpl. lia.
Defined.

Lemma window_pairs_indices_NoDup (src : list T) (h p : nat) :
  NoDup (map snd (window_pairs src h p)).
Proof.
  unfold window_pairs. rewrite map_map. cbn [snd window_pair].
  apply NoDup_map_NoDup_ForallPairs; [|apply seq_NoDup].
  intros a b _ _ E.
  destruct (Nat.lt_trichotomy a b) as [H|[H|H]]; auto;
    pose proof (sequence_index_mono h (p + a) (p + b));
    pose proof (sequence_index_mono h (p + b) (p + a)); lia.
Qed.

(** C9.  On every valid input, after initialisation and after every
    iteration the ordered window and the queue of iterators each hold
    exactly [2 * half_length + 1] entries, and the stored pairs carry
    pairwise different sequence indices, all below the next one handed
    out.  So in the following iteration the erase takes the window down by
    one and the insert, before or after it, takes it up by one, whatever
    value comes in. *)
Theorem window_sizes_constant (src dest0 : list T) (half_length : Z)
    (rank : Q) (n : nat) :
  valid_input src dest0 half_length rank ->
  (n < length src)%nat ->
  exists st,
    state_after n src dest0 half_length rank = Some st /\
    Z.of_nat (length (sorted_window st)) = 2 * half_length + 1 /\
    Z.of_nat (length (window_iters st)) = 2 * half_length + 1 /\
    NoDup (map snd (sorted_window st)) /\
    (forall x, In x (sorted_window st) -> snd x < wrap (values_seen st + 1)) /\
    exists prev_iter iters s1,
      window_iters st = prev_iter :: iters /\
      set_erase prev_iter (sorted_window st) = Some s1 /\
      Z.of_nat (length s1) = 2 * half_length /\
      forall v,
        length (fst (set_insert (v, wrap (values_seen st + 1)) s1))
          = S (length s1) /\
        length (fst (set_insert (v, wrap (values_seen st + 1))
                       (sorted_window st)))
          = S (length (sorted_window st)).
Proof.
  intros Hv Hn.
  destruct (valid_input_nat _ _ _ _ Hv) as (Eh & Hh & Hd & Hb & H0 & H1 & Hw).
  destruct (state_after_tracks _ _ _ _ n Hv Hn) as (st & E & Ht).
  set (h := Z.to_nat half_length) in *.
  destruct Ht as [Hiters Hs Hp Hseen _ _ _ _ _ _ _].
  assert (length (sorted_window st) = (2 * h + 1)%nat) as Hlen.
  { rewrite (Permutation_length Hp). apply window_pairs_length. }
  assert (forall x, In x (sorted_window st) ->
                    snd x < wrap (values_seen st + 1)) as Hfresh.
  { intros x Hx. rewrite Hseen, wrap_small by lia.
    eapply Permutation_in in Hx; [|exact Hp].
    apply window_pairs_In in Hx as (j & Hj & ->). cbn [snd window_pair].
    unfold sequence_index. destruct (Nat.leb_spec (n + j) (2 * h)); lia. }
  assert (forall v s, sorted s -> incl s (sorted_window st) ->
            length (fst (set_insert (v, wrap (values_seen st + 1)) s))
              = S (length s)) as Hgrow.
  { intros v s Hss Hincl.
    destruct (set_insert_fresh (v, wrap (values_seen st + 1)) s Hss)
      as (s' & Es & _ & Hps).
    - intros Hin. apply Hincl, Hfresh in Hin. simpl in Hin. lia.
    - rewrite Es. simpl. now rewrite (Permutation_length Hps). }
  exists st. split; [exact E|].
  split; [lia|].
  split; [rewrite Hiters, length_map, window_pairs_length; lia|].
  split.
  { eapply Permutation_NoDup; [symmetry; apply Permutation_map; exact Hp|].
    apply window_pairs_indices_NoDup. }
  split; [exact Hfresh|].
  assert (In (window_pair src h n 0) (sorted_window st)) as Hpin.
  { eapply Permutation_in; [symmetry; exact Hp|].
    apply window_pairs_In. exists 0%nat. split; [lia|reflexivity]. }
  rewrite (window_pairs_cons src h n) in Hiters. cbn [map] in Hiters.
  eexists _, _, _. split; [exact Hiters|].
  split; [now apply set_erase_In|].
  split.
  { pose proof (Permutation_length (remove_elt_perm _ _ Hpin)) as Hl.
    simpl in Hl. lia. }
  intros v. split; apply Hgrow; auto.
  - now apply remove_elt_sorted.
  - intros x. apply remove_elt_incl.
  - apply incl_refl.
Qed.

Lemma window_sizes_constant_witness :
  valid_input [4; 4; 4; 1; 4; 4] [0; 0; 0; 0; 0; 0] 2 (3 # 4) /\
  exists st,
    state_after 3 [4; 4; 4; 1; 4; 4] [0; 0; 0; 0; 0; 0] 2 (3 # 4) = Some st /\
    Z.of_nat (length (sorted_window st)) = 2 * 2 + 1 /\
    Z.of_nat (length (window_iters st)) = 2 * 2 + 1 /\
    NoDup (map snd (sorted_window st)) /\
    (forall x, In x (sorted_window st) -> snd x < wrap (values_seen st + 1)) /\
    exists prev_iter iters s1,
      window_iters st = prev_iter :: iters /\
      set_erase prev_iter (sorted_window st) = Some s1 /\
      Z.of_nat (length s1) = 2 * 2 /\
      forall v,
        length (fst (set_insert (v, wrap (values_seen st + 1)) s1))
          = S (length s1) /\
        length (fst (set_insert (v, wrap (values_seen st + 1))
                       (sorted_window st)))
          = S (length (sorted_window st)).
Proof.
  assert (valid_input [4; 4; 4; 1; 4; 4] [0; 0; 0; 0; 0; 0] 2 (3 # 4))
    as Hv by valid_input_by_computation.
  split; [exact Hv|].
  apply (window_sizes_constant _ _ _ _ 3 Hv). simpl. lia.
Defined.

(** ** The initial window *)

Lemma initial_window_pairs (src : list T) (h : nat) :
  (h < length src)%nat ->
  window_pairs src h 0 =
  combine (rev (firstn h (skipn 1 src)) ++ firstn (h + 1) src)
          (map Z.of_nat (seq 0 (2 * h + 1))).
Proof.
  intros Hh.
  assert (length (rev (firstn h (skipn 1 src))) = h) as Hl1.
  { rewrite length_rev, firstn_length_le; auto. rewrite length_skipn. lia. }
  assert (length (firstn (h + 1) src) = (h + 1)%nat) as Hl2.
  { apply firstn_length_le. lia. }
  assert (length (rev (firstn h (skipn 1 src)) ++ firstn (h + 1) src)
          = length (map Z.of_nat (seq 0 (2 * h + 1)))) as Hl.
  { rewrite length_app, Hl1, Hl2, length_map, length_seq. lia. }
  apply (nth_ext _ _ (0, 0) (0, 0)).
  - rewrite window_pairs_length, length_combine, <- Hl, Nat.min_id.
    rewrite length_app, Hl1, Hl2. lia.
  - rewrite window_pairs_length. intros j Hj.
    rewrite (combine_nth _ _ _ _ _ Hl).
    unfold window_pairs. rewrite nth_map_seq by lia.
    unfold window_pair. f_equal.
    + destruct (Nat.lt_ge_cases j h) as [Hlt|Hge].
      * rewrite app_nth1 by lia.
        rewrite rev_nth by (rewrite length_rev in Hl1; lia).
        rewrite length_rev in Hl1. rewrite Hl1.
        rewrite nth_firstn, nth_skipn.
        destruct (Nat.ltb_spec (h - S j) h); [|lia].
        rewrite window_value_left by lia. f_equal. lia.
      * rewrite app_nth2 by lia. rewrite Hl1, nth_firstn.
        destruct (Nat.ltb_spec (j - h) (h + 1)); [|lia].
        rewrite window_value_inside by lia. f_equal.
    + rewrite nth_map_seq by lia.
      unfold sequence_index. cbn [Nat.add].
      destruct (Nat.leb_spec j (2 * h)); [reflexivity|lia].
Qed.

(** C5.  On every valid input the window built by the initialisation is,
    in insertion order, the source over indices [1 .. half_length]
    reversed, then the source over indices [0 .. half_length] forward,
    numbered [0, 1, ..., 2 * half_length] as they go in; and the first
    value stored in the destination is the value at ordinal position
    [rank_pos] of that window, [rank_pos] being the position line 98
    computes from the binary64 product of [rank] and [2 * half_length]. *)
Theorem initial_window_is_reflected (src dest0 : list T) (half_length : Z)
    (rank : Q) :
  valid_input src dest0 half_length rank ->
  exists st r,
    initial_state src dest0 half_length rank = Some st /\
    window_iters st =
      map Some
        (combine (rev (firstn (Z.to_nat half_length) (skipn 1 src))
                  ++ firstn (Z.to_nat half_length + 1) src)
                 (map Z.of_nat (seq 0 (2 * Z.to_nat half_length + 1)))) /\
    sorted (sorted_window st) /\
    Permutation (sorted_window st)
      (combine (rev (firstn (Z.to_nat half_length) (skipn 1 src))
                ++ firstn (Z.to_nat half_length + 1) src)
               (map Z.of_nat (seq 0 (2 * Z.to_nat half_length + 1)))) /\
    nth_error (sorted_window st)
      (Z.to_nat (rank_position rank (2 * half_length))) = Some r /\
    writes st = [0%nat] /\
    nth_error (dest st) 0 = Some (fst r).
Proof.
  intros Hv.
  destruct (valid_input_nat _ _ _ _ Hv) as (Eh & Hh & Hd & Hb & H0 & H1 & Hw).
  destruct (state_after_tracks _ _ _ _ 0 Hv ltac:(lia)) as (st & E & Ht).
  unfold state_after in E.
  destruct (initial_state src dest0 half_length rank) as [st0|];
    [|discriminate].
  injection E as ->.
  rewrite <- (rank_index_round _ _ _ _ Hv).
  rewrite <- (initial_window_pairs src _ Hh).
  destruct (tr_cursor _ _ _ _ _ _ Ht) as (r & Hrp & Hr & Hrv).
  exists st, r. split; [reflexivity|].
  split; [apply (tr_iters _ _ _ _ _ _ Ht)|].
  split; [apply (tr_sorted _ _ _ _ _ _ Ht)|].
  split; [apply (tr_perm _ _ _ _ _ _ Ht)|].
  split; [exact Hr|].
  split; [apply (tr_writes _ _ _ _ _ _ Ht)|].
  rewrite (tr_dest _ _ _ _ _ _ Ht). cbn [seq map app nth_error].
  f_equal.
  exact (cursor_value src _ _ 0 _ r (tr_sorted _ _ _ _ _ _ Ht)
           (tr_perm _ _ _ _ _ _ Ht) Hr).
Qed.

Lemma initial_window_is_reflected_witness :
  valid_input [3; 0; 1; 2; 4; 5; 9] [0; 0; 0; 0; 0; 0; 0] 5 double_0_35 /\
  exists st r,
    initial_state [3; 0; 1; 2; 4; 5; 9] [0; 0; 0; 0; 0; 0; 0] 5 double_0_35
      = Some st /\
    window_iters st =
      map Some [(5, 0); (4, 1); (2, 2); (1, 3); (0, 4); (3, 5); (0, 6);
                (1, 7); (2, 8); (4, 9); (5, 10)] /\
    sorted (sorted_window st) /\
    Permutation (sorted_window st)
      [(5, 0); (4, 1); (2, 2); (1, 3); (0, 4); (3, 5); (0, 6);
       (1, 7); (2, 8); (4, 9); (5, 10)] /\
    nth_error (sorted_window st) (Z.to_nat (rank_position double_0_35 (2 * 5)))
    = Some r /\
    writes st = [0%nat] /\
    nth_error (dest st) 0 = Some (fst r).
Proof.
  assert (valid_input [3; 0; 1; 2; 4; 5; 9] [0; 0; 0; 0; 0; 0; 0] 5 double_0_35)
    as Hv by valid_input_by_computation.
  split; [exact Hv|].
  apply (initial_window_is_reflected _ _ _ _ Hv).
Defined.

(** ** Reversing the source *)

Lemma rev_map_seq {A : Type} (g : nat -> A) (n : nat) :
  rev (map g (seq 0 n)) = map (fun p => g (n - 1 - p)%nat) (seq 0 n).
Proof.
  induction n as [|n IH]; [reflexivity|].
  rewrite seq_S at 1. rewrite map_app, rev_app_distr.
  cbn [map rev app Nat.add].
  rewrite IH, <- cons_seq, <- seq_shift. cbn [map]. rewrite map_map.
  f_equal; [f_equal; lia|].
  apply map_ext_in. intros p Hp. apply in_seq in Hp. f_equal. lia.
Qed.

Lemma window_value_rev (src : list T) (h p j : nat) :
  (h < length src)%nat -> (p < length src)%nat -> (j <= 2 * h)%nat ->
  window_value (rev src) h p j =
  window_value src h (length src - 1 - p) (2 * h - j).
Proof.
  intros Hh Hp Hj. unfold window_value. rewrite length_rev.
  assert (forall q, - Z.of_nat (length src) < q < 2 * Z.of_nat (length src) - 1 ->
            (reflect_index (length src) q < length src)%nat /\
            reflect_index (length src) (Z.of_nat (length src) - 1 - q) =
            (length src - S (reflect_index (length src) q))%nat) as Hre.
  { intros q Hq. unfold reflect_index.
    destruct (Z.ltb_spec q 0), (Z.leb_spec (Z.of_nat (length src)) q),
      (Z.ltb_spec (Z.of_nat (length src) - 1 - q) 0),
      (Z.leb_spec (Z.of_nat (length src)) (Z.of_nat (length src) - 1 - q));
      lia. }
  destruct (Hre (Z.of_nat p - Z.of_nat h + Z.of_nat j) ltac:(lia)) as [H1 H2].
  rewrite rev_nth by exact H1. f_equal. rewrite <- H2. f_equal. lia.
Qed.

Lemma reflected_window_rev (src : list T) (h p : nat) :
  (h < length src)%nat -> (p < length src)%nat ->
  reflected_window (rev src) h p =
  rev (reflected_window src h (length src - 1 - p)).
Proof.
  intros Hh Hp. unfold reflected_window. rewrite rev_map_seq.
  apply map_ext_in. intros j Hj. apply in_seq in Hj.
  rewrite window_value_rev by lia. f_equal. lia.
Qed.

Lemma sort_values_permutation (l1 l2 : list T) :
  Permutation l1 l2 -> sort_values l1 = sort_values l2.
Proof.
  intros Hp. apply sorted_perm_unique; try apply sort_values_sorted.
  now rewrite !sort_values_perm.
Qed.

Lemma rank_filter_reference_rev (src : list T) (h k : nat) :
  (h < length src)%nat ->
  rank_filter_reference (rev src) h k = rev (rank_filter_reference src h k).
Proof.
  intros Hh. unfold rank_filter_reference.
  rewrite rev_map_seq, length_rev.
  apply map_ext_in. intros p Hp. apply in_seq in Hp.
  unfold reference_value. f_equal. apply sort_values_permutation.
  rewrite reflected_window_rev by lia. symmetry. apply Permutation_rev.
Qed.

Lemma valid_input_rev (src dest0 : list T) (half_length : Z) (rank : Q) :
  valid_input src dest0 half_length rank ->
  valid_input (rev src) dest0 half_length rank.
Proof. unfold valid_input, distance. now rewrite length_rev. Qed.

Lemma output_firstn (fuel : nat) (src dest0 : list T) (half_length : Z)
    (rank : Q) :
  valid_input src dest0 half_length rank ->
  (length src - 1 <= fuel)%nat ->
  exists out,
    output (lineRankOrderFilter1D fuel src dest0 half_length rank) = Some out /\
    firstn (length src) out =
    rank_filter_reference src (Z.to_nat half_length)
      (rank_index half_length rank).
Proof.
  intros Hv Hf.
  destruct (proj1 (filter_returns fuel _ _ _ _ Hv) Hf) as (st & E & _ & Ht).
  rewrite E. exists (dest st). split; [reflexivity|].
  rewrite (final_dest _ _ _ _ _ (valid_input_nonempty _ _ _ _ Hv) Ht).
  assert (length (rank_filter_reference src (Z.to_nat half_length)
                    (rank_index half_length rank)) = length src) as Hlen.
  { unfold rank_filter_reference. now rewrite length_map, length_seq. }
  rewrite firstn_app, Hlen, Nat.sub_diag. cbn [firstn].
  rewrite app_nil_r. apply firstn_all2. lia.
Qed.

(** C7.  On every valid input, filtering the reversed source and reversing
    the [|source|] values that produces gives the values produced by
    filtering the source itself. *)
Theorem filter_commutes_with_reversal (fuel : nat) (src dest0 : list T)
    (half_length : Z) (rank : Q) :
  valid_input src dest0 half_length rank ->
  (length src - 1 <= fuel)%nat ->
  exists out out_rev,
    output (lineRankOrderFilter1D fuel src dest0 half_length rank)
      = Some out /\
    output (lineRankOrderFilter1D fuel (rev src) dest0 half_length rank)
      = Some out_rev /\
    rev (firstn (length src) out_rev) = firstn (length src) out.
Proof.
  intros Hv Hf.
  destruct (valid_input_nat _ _ _ _ Hv) as (_ & Hh & _).
  destruct (output_firstn fuel _ _ _ _ Hv Hf) as (out & E & Hout).
  destruct (output_firstn fuel _ _ _ _ (valid_input_rev _ _ _ _ Hv))
    as (out_rev & E' & Hrev).
  { now rewrite length_rev. }
  rewrite length_rev in Hrev.
  exists out, out_rev. split; [exact E|]. split; [exact E'|].
  rewrite Hout, Hrev, rank_filter_reference_rev by exact Hh.
  apply rev_involutive.
Qed.

Lemma filter_commutes_with_reversal_witness :
  valid_input [5; 3; 8; 1; 9; 2; 7] [0; 0; 0; 0; 0; 0; 0; 0] 3 (2 # 3) /\
  exists out out_rev,
    output (lineRankOrderFilter1D 9 [5; 3; 8; 1; 9; 2; 7]
              [0; 0; 0; 0; 0; 0; 0; 0] 3 (2 # 3)) = Some out /\
    output (lineRankOrderFilter1D 9 (rev [5; 3; 8; 1; 9; 2; 7])
              [0; 0; 0; 0; 0; 0; 0; 0] 3 (2 # 3)) = Some out_rev /\
    rev (firstn 7 out_rev) = firstn 7 out.
Proof.
  assert (valid_input [5; 3; 8; 1; 9; 2; 7] [0; 0; 0; 0; 0; 0; 0; 0] 3
            (2 # 3)) as Hv by valid_input_by_computation.
  split; [exact Hv|].
  apply (filter_commutes_with_reversal 9 _ _ _ _ Hv). simpl. lia.
Defined.

(** ** Half-way cases of the rounding *)

Lemma Qceiling_half (k : Z) : Qceiling (inject_Z k + (1 # 2))%Q = k + 1.
Proof.
  pose proof (Qle_ceiling (inject_Z k + (1 # 2))) as H1.
  pose proof (Qceiling_lt (inject_Z k + (1 # 2))) as H2.
  set (c := Qceiling (inject_Z k + (1 # 2))) in *.
  assert (inject_Z k < inject_Z c)%Q as H3 by lra.
  assert (inject_Z (c - 1) < inject_Z (k + 1))%Q as H4.
  { rewrite (inject_Z_plus k 1). change (inject_Z 1) with 1%Q. lra. }
  rewrite <- Zlt_Qlt in H3, H4. lia.
Qed.

Lemma Qfloor_neg_half (k : Z) :
  Qfloor (- (inject_Z k + (1 # 2)))%Q = - (k + 1).
Proof.
  pose proof (Qceiling_half k) as H. unfold Qceiling in H. lia.
Qed.

(** [round] sends the half-way point between two integers to the one
    farther from zero. *)
Lemma round_half_away (v : Q) (k : Z) :
  0 <= k ->
  ((v == inject_Z k + (1 # 2))%Q -> round v = k + 1) /\
  ((v == - (inject_Z k + (1 # 2)))%Q -> round v = - (k + 1)).
Proof.
  intros Hk.
  assert (0 <= inject_Z k)%Q as Hk'.
  { rewrite <- (Zle_Qle 0). exact Hk. }
  split; intros E; unfold round.
  - assert (Qltb v (1 # 2) = false) as -> by (apply Qltb_ge; lra).
    rewrite andb_false_r.
    assert (Qltb 0 v = true) as -> by (apply Qltb_lt; lra).
    rewrite (Qceiling_comp _ _ E), Qceiling_half.
    assert (Qltb (1 # 2) (inject_Z (k + 1) - v) = false) as ->;
      [|reflexivity].
    apply Qltb_ge. rewrite inject_Z_plus. change (inject_Z 1) with 1%Q. lra.
  - assert (Qltb (- (1 # 2)) v = false) as -> by (apply Qltb_ge; lra).
    cbn [andb].
    assert (Qltb 0 v = false) as -> by (apply Qltb_ge; lra).
    rewrite (Qfloor_comp _ _ E), Qfloor_neg_half.
    assert (Qltb (1 # 2) (v - inject_Z (- (k + 1))) = false) as ->;
      [|reflexivity].
    apply Qltb_ge. rewrite inject_Z_opp, inject_Z_plus.
    change (inject_Z 1) with 1%Q. lra.
Qed.

(** C10.  The cursor's ordinal position is the product of [rank] and
    [2 * half_length] rounded to the nearest integer, half-way cases away
    from zero, which for the non-negative product at hand is upwards:
    whenever the product, as line 98 forms it in binary64, is [k + 1/2] for
    an integer [k], the position is [k + 1]; and that is the case whenever
    the exact product is [k + 1/2] with [k] below [2^52], where every
    half-integer is a [double]. *)
Theorem rank_position_rounds_half_up (rank : Q) (half_length k : Z) :
  0 <= half_length -> 2 * half_length < size_modulus ->
  (0 <= rank)%Q ->
  ((binary64 (rank * binary64 (inject_Z (2 * half_length)))
    == inject_Z k + (1 # 2))%Q ->
   rank_position rank (wrap (2 * half_length)) = k + 1) /\
  (2 * half_length <= 2 ^ 53 -> k < 2 ^ 52 ->
   (rank * inject_Z (2 * half_length) == inject_Z k + (1 # 2))%Q ->
   rank_position rank (wrap (2 * half_length)) = k + 1).
Proof.
  intros Hh Hb Hr. rewrite wrap_small by lia. unfold rank_position.
  assert (forall j : Z, (0 <= inject_Z j + (1 # 2))%Q -> 0 <= j) as Hpos.
  { intros j Hj.
    assert (inject_Z (-1) < inject_Z j)%Q as Hlt.
    { change (inject_Z (-1)) with (-1)%Q. lra. }
    rewrite <- Zlt_Qlt in Hlt. lia. }
  assert (0 <= inject_Z (2 * half_length))%Q as Hz.
  { rewrite <- (Zle_Qle 0). lia. }
  split.
  - intros E. apply (round_half_away _ k); [|exact E].
    apply Hpos. rewrite <- E. apply binary64_nonneg.
    apply Qmult_le_0_compat; [exact Hr|]. now apply binary64_nonneg.
  - intros Hw Hk E.
    assert (0 <= k) as Hk0 by (apply Hpos; rewrite <- E; nra).
    apply (round_half_away _ k); [exact Hk0|].
    apply Qeq_trans with (binary64 (inject_Z k + (1 # 2))).
    + apply binary64_comp. rewrite binary64_integer by lia. exact E.
    + apply binary64_half_integer. lia.
Qed.

Lemma rank_position_rounds_half_up_witness :
  rank_position double_0_35 (wrap (2 * 5)) = 3 + 1 /\
  rank_position (1 # 4) (wrap (2 * 5)) = 2 + 1.
Proof.
  split.
  - refine (proj1 (rank_position_rounds_half_up double_0_35 5 3 _ _ _) _).
    + lia.
    + reflexivity.
    + unfold Qle. simpl. lia.
    + vm_compute. reflexivity.
  - refine (proj2 (rank_position_rounds_half_up (1 # 4) 5 2 _ _ _) _ _ _).
    + lia.
    + reflexivity.
    + unfold Qle. simpl. lia.
    + vm_compute. discriminate.
    + reflexivity.
    + reflexivity.
Defined.

(** ** The entry checks *)

(** As long as [half_length + 1] does not wrap, an assertion fails exactly
    when a precondition is violated, and the destination is then as the
    caller passed it. *)
Lemma reports_failure_iff (fuel : nat) (src dest0 : list T) (half_length : Z)
    (rank : Q) :
  0 <= half_length -> half_length + 1 < size_modulus ->
  ((exists v d,
      lineRankOrderFilter1D fuel src dest0 half_length rank
        = AssertionFailed v d) <->
   (half_length + 1 > distance src \/ distance dest0 < distance src \/
    ~ (0 <= rank /\ rank <= 1)%Q)) /\
  (forall v d,
     lineRankOrderFilter1D fuel src dest0 half_length rank
       = AssertionFailed v d -> d = dest0).
Proof.
  intros H0 Hb. unfold lineRankOrderFilter1D.
  rewrite wrap_small by lia.
  assert (forall st v d, roll_forward fuel src st <> AssertionFailed v d)
    as Hloop'.
  { clear. induction fuel as [|fuel IH]; intros st v d; simpl;
      destruct (loop_cond st); try discriminate.
    destruct (roll_step src st) as [st'|]; [apply IH|discriminate]. }
  destruct (Z.leb_spec (distance src) (distance dest0)) as [Hd|Hd];
    cbn [negb].
  2:{ split; [split; [lia|eauto]|]. now intros v d [= _ <-]. }
  destruct (Z.leb_spec (half_length + 1) (distance src)) as [Hw|Hw];
    cbn [negb].
  2:{ split; [split; [lia|eauto]|]. now intros v d [= _ <-]. }
  destruct (Qle_bool 0 rank && Qle_bool rank 1) eqn:Er; cbn [negb].
  - apply andb_true_iff in Er as [E0 E1].
    apply Qle_bool_iff in E0, E1.
    assert (forall o : outcome,
              (forall v d, o <> AssertionFailed v d) ->
              ((exists v d, o = AssertionFailed v d) <->
               (half_length + 1 > distance src \/
                distance dest0 < distance src \/
                ~ (0 <= rank /\ rank <= 1)%Q)) /\
              (forall v d, o = AssertionFailed v d -> d = dest0)) as Hnone.
    { intros o Ho. split; [split|].
      - intros (v & d & E). now apply Ho in E.
      - intros [H|[H|H]]; try lia. tauto.
      - intros v d E. now apply Ho in E. }
    apply Hnone. intros v d.
    destruct (window_setup src half_length) as [w src_pos| |];
      try discriminate.
    destruct (cursor_setup src dest0 rank half_length w src_pos) as [st|];
      [apply Hloop'|discriminate].
  - split; [split; [|eauto]|].
    + intros _. right. right. intros [E0 E1].
      apply Qle_bool_iff in E0, E1. rewrite E0, E1 in Er. discriminate.
    + now intros v d [= _ <-].
Qed.

(** C6.  The window check adds 1 to [half_length] in [size_t]: at the
    largest [size_t] the sum wraps to 0 and every source passes the check
    of line 54 although the window cannot fit.  No assertion reports the
    violation; the call fails one step later, when line 62 asks for a
    deque of [2^64 - 1] iterators and the constructor throws
    [std::length_error], the destination still as it was passed in. *)
Theorem window_check_wraps (fuel : nat) (src dest0 : list T) (rank : Q) :
  distance src < size_modulus ->
  distance src <= distance dest0 ->
  (0 <= rank)%Q -> (rank <= 1)%Q ->
  (size_modulus - 1) + 1 > distance src /\
  wrap ((size_modulus - 1) + 1) <= distance src /\
  lineRankOrderFilter1D fuel src dest0 (size_modulus - 1) rank
  = LengthError dest0.
Proof.
  intros Hs Hd H0 H1.
  assert (0 <= distance src) as Hn by (unfold distance; lia).
  change (wrap (size_modulus - 1 + 1)) with 0.
  split; [lia|]. split; [exact Hn|].
  unfold lineRankOrderFilter1D.
  change (wrap (size_modulus - 1 + 1)) with 0.
  rewrite (proj2 (Z.leb_le _ _) Hd), (proj2 (Z.leb_le _ _) Hn).
  rewrite (proj2 (Qle_bool_iff _ _) H0), (proj2 (Qle_bool_iff _ _) H1).
  reflexivity.
Qed.

Lemma window_check_wraps_witness :
  (size_modulus - 1) + 1 > distance [1] /\
  wrap ((size_modulus - 1) + 1) <= distance [1] /\
  lineRankOrderFilter1D 0 [1] [0] (size_modulus - 1) 0 = LengthError [0].
Proof.
  apply (window_check_wraps 0 [1] [0] 0).
  - reflexivity.
  - discriminate.
  - discriminate.
  - discriminate.
Defined.

(** * Further properties of the filter *)

(** ** Helpers: windows, sorted lists and counts *)

Lemma reflect_index_in_range (n h p j : nat) :
  (h < n)%nat -> (p < n)%nat -> (j <= 2 * h)%nat ->
  (reflect_index n (Z.of_nat p - Z.of_nat h + Z.of_nat j) < n)%nat.
Proof.
  intros Hh Hp Hj. unfold reflect_index.
  destruct (Z.ltb_spec (Z.of_nat p - Z.of_nat h + Z.of_nat j) 0); [lia|].
  destruct (Z.leb_spec (Z.of_nat n) (Z.of_nat p - Z.of_nat h + Z.of_nat j));
    lia.
Qed.

Lemma reflected_window_length (src : list T) (h p : nat) :
  length (reflected_window src h p) = (2 * h + 1)%nat.
Proof. unfold reflected_window. now rewrite length_map, length_seq. Qed.

Lemma reflected_window_In (src : list T) (h p : nat) (v : T) :
  In v (reflected_window src h p) <->
  exists j, (j <= 2 * h)%nat /\ v = window_value src h p j.
Proof.
  unfold reflected_window. rewrite in_map_iff. split.
  - intros (j & <- & Hj). apply in_seq in Hj. exists j. split; [lia|auto].
  - intros (j & Hj & ->). exists j. split; [auto|]. apply in_seq. lia.
Qed.

Lemma reflected_window_incl (src : list T) (h p : nat) (v : T) :
  (h < length src)%nat -> (p < length src)%nat ->
  In v (reflected_window src h p) -> In v src.
Proof.
  intros Hh Hp Hv. apply reflected_window_In in Hv as (j & Hj & ->).
  unfold window_value. apply nth_In. now apply reflect_index_in_range.
Qed.

Lemma sort_values_length (l : list T) : length (sort_values l) = length l.
Proof. apply Permutation_length, sort_values_perm. Qed.

Lemma sorted_nth_le (l : list T) (i j : nat) :
  StronglySorted Z.le l -> (i <= j)%nat -> (j < length l)%nat ->
  nth i l 0 <= nth j l 0.
Proof.
  revert i j. induction l as [|x l IH]; intros i j Hl Hij Hj; simpl in Hj;
    [lia|].
  apply StronglySorted_inv in Hl as [Hl Hx]. rewrite Forall_forall in Hx.
  destruct i as [|i], j as [|j]; simpl; try lia.
  - apply Hx, nth_In. lia.
  - apply IH; auto; lia.
Qed.

Lemma filter_length_perm {A : Type} (f : A -> bool) (l l' : list A) :
  Permutation l l' -> length (filter f l) = length (filter f l').
Proof.
  induction 1 as [|x l l' _ IH|x y l|l l' l'' _ IH1 _ IH2]; simpl; auto.
  - destruct (f x); simpl; auto.
  - destruct (f x), (f y); reflexivity.
  - congruence.
Qed.

Lemma filter_none {A : Type} (f : A -> bool) (l : list A) :
  (forall x, In x l -> f x = false) -> filter f l = [].
Proof.
  induction l as [|x l IH]; intros H; simpl; [reflexivity|].
  rewrite (H x (or_introl eq_refl)). apply IH. intros y Hy. apply H. now right.
Qed.

Lemma filter_length_le {A : Type} (f : A -> bool) (l : list A) :
  (length (filter f l) <= length l)%nat.
Proof.
  induction l as [|x l IH]; simpl; [lia|]. destruct (f x); simpl; lia.
Qed.

(** In a sorted list at most [k] values are below the one in place [k], and
    at most those after it are above. *)
Lemma sorted_nth_counts (l : list T) (k : nat) :
  StronglySorted Z.le l -> (k < length l)%nat ->
  (count_less (nth k l 0%Z) l <= k)%nat /\
  (count_greater (nth k l 0%Z) l <= length l - 1 - k)%nat.
Proof.
  intros Hl Hk. unfold count_less, count_greater. set (v := nth k l 0).
  assert (forall i, (i < length l)%nat -> (k <= i)%nat -> v <= nth i l 0)
    as Hup by (intros; now apply sorted_nth_le).
  assert (forall i, (i <= k)%nat -> nth i l 0 <= v)
    as Hdown by (intros; apply sorted_nth_le; auto; lia).
  split.
  - rewrite <- (firstn_skipn k l) at 1. rewrite filter_app, length_app.
    rewrite (filter_none _ (skipn k l)).
    + pose proof (filter_length_le (fun x => x <? v) (firstn k l)).
      rewrite firstn_length_le in H by lia. cbn [length].
      rewrite Nat.add_0_r. exact H.
    + intros x Hx. apply In_nth with (d := 0) in Hx as (i & Hi & <-).
      rewrite length_skipn in Hi. rewrite nth_skipn.
      apply Z.ltb_ge, Hup; lia.
  - rewrite <- (firstn_skipn (S k) l) at 1. rewrite filter_app, length_app.
    rewrite (filter_none _ (firstn (S k) l)).
    + pose proof (filter_length_le (fun x => v <? x) (skipn (S k) l)).
      rewrite length_skipn in H. cbn [length Nat.add].
      etransitivity; [exact H|]. lia.
    + intros x Hx. apply In_nth with (d := 0) in Hx as (i & Hi & <-).
      rewrite firstn_length_le in Hi by lia. rewrite nth_firstn.
      destruct (Nat.ltb_spec i (S k)); [|lia].
      apply Z.ltb_ge, Hdown. lia.
Qed.

(** What the reference puts at [p] is in the window there, with at most
    [k] values of the window below it and at most [2 * h - k] above. *)
Lemma reference_value_counts (src : list T) (h k p : nat) :
  (k <= 2 * h)%nat ->
  In (reference_value src h k p) (reflected_window src h p) /\
  (count_less (reference_value src h k p) (reflected_window src h p)
   <= k)%nat /\
  (count_greater (reference_value src h k p) (reflected_window src h p)
   <= 2 * h - k)%nat.
Proof.
  intros Hk. unfold reference_value.
  set (w := reflected_window src h p).
  pose proof (sort_values_perm w) as Hp.
  assert (length (sort_values w) = (2 * h + 1)%nat) as Hlen.
  { rewrite sort_values_length. apply reflected_window_length. }
  destruct (sorted_nth_counts (sort_values w) k (sort_values_sorted w))
    as [Hlo Hhi]; [lia|].
  split; [|split].
  - eapply Permutation_in; [exact Hp|]. apply nth_In. lia.
  - unfold count_less in *. now rewrite <- (filter_length_perm _ _ _ Hp).
  - unfold count_greater in *. rewrite <- (filter_length_perm _ _ _ Hp).
    etransitivity; [exact Hhi|]. lia.
Qed.

(** The values a returning call leaves in the destination. *)
Lemma output_reference (fuel : nat) (src dest0 : list T) (half_length : Z)
    (rank : Q) :
  valid_input src dest0 half_length rank ->
  (length src - 1 <= fuel)%nat ->
  output (lineRankOrderFilter1D fuel src dest0 half_length rank) =
  Some (rank_filter_reference src (Z.to_nat half_length)
          (rank_index half_length rank)
        ++ skipn (length src) dest0).
Proof.
  intros Hv Hf.
  destruct (proj1 (filter_returns fuel _ _ _ _ Hv) Hf) as (st & E & _ & Ht).
  rewrite E. simpl. f_equal.
  apply (final_dest _ _ _ _ _ (valid_input_nonempty _ _ _ _ Hv) Ht).
Qed.

Lemma reference_nth_error (src rest : list T) (h k p : nat) :
  (p < length src)%nat ->
  nth_error (rank_filter_reference src h k ++ rest) p =
  Some (reference_value src h k p).
Proof.
  intros Hp. unfold rank_filter_reference.
  rewrite nth_error_app1 by (now rewrite length_map, length_seq).
  rewrite nth_error_map_seq.
  destruct (Nat.ltb_spec p (length src)); [reflexivity|lia].
Qed.

Lemma valid_rank_index_bound (src dest0 : list T) (half_length : Z) (rank : Q) :
  valid_input src dest0 half_length rank ->
  (rank_index half_length rank <= 2 * Z.to_nat half_length)%nat.
Proof.
  intros Hv.
  destruct (valid_input_nat _ _ _ _ Hv) as (Eh & Hh & Hd & Hb & H0 & H1 & Hw).
  rewrite Eh at 1. apply rank_index_bound; auto. lia.
Qed.

(** X1.  Each output is an order statistic of its window in the plain
    sense: it is one of the window's values, at most [rank_pos] values of
    the window are smaller than it and at most [2 * half_length - rank_pos]
    are larger, [rank_pos] being the position line 98 computes from the
    binary64 product of [rank] and [2 * half_length]. *)
Theorem output_splits_window (fuel : nat) (src dest0 : list T)
    (half_length : Z) (rank : Q) :
  valid_input src dest0 half_length rank ->
  (length src - 1 <= fuel)%nat ->
  exists out,
    output (lineRankOrderFilter1D fuel src dest0 half_length rank) = Some out /\
    forall p, (p < length src)%nat ->
      exists v,
        nth_error out p = Some v /\
        In v (reflected_window src (Z.to_nat half_length) p) /\
        (count_less v (reflected_window src (Z.to_nat half_length) p)
         <= Z.to_nat (rank_position rank (2 * half_length)))%nat /\
        (count_greater v (reflected_window src (Z.to_nat half_length) p)
         <= 2 * Z.to_nat half_length
            - Z.to_nat (rank_position rank (2 * half_length)))%nat.
Proof.
  intros Hv Hf. rewrite (output_reference fuel _ _ _ _ Hv Hf).
  eexists. split; [reflexivity|]. intros p Hp.
  rewrite reference_nth_error by exact Hp.
  eexists. split; [reflexivity|].
  rewrite <- (rank_index_round _ _ _ _ Hv).
  apply reference_value_counts, (valid_rank_index_bound _ _ _ _ Hv).
Qed.

Lemma output_splits_window_witness :
  valid_input [3; 0; 1; 2; 4; 5; 9; 6; 8; 7; 10]
    [0; 0; 0; 0; 0; 0; 0; 0; 0; 0; 0] 5 double_0_35 /\
  exists out,
    output (lineRankOrderFilter1D 10 [3; 0; 1; 2; 4; 5; 9; 6; 8; 7; 10]
              [0; 0; 0; 0; 0; 0; 0; 0; 0; 0; 0] 5 double_0_35) = Some out /\
    forall p, (p < 11)%nat ->
      exists v,
        nth_error out p = Some v /\
        In v (reflected_window [3; 0; 1; 2; 4; 5; 9; 6; 8; 7; 10]
                (Z.to_nat 5) p) /\
        (count_less v
           (reflected_window [3; 0; 1; 2; 4; 5; 9; 6; 8; 7; 10]%Z
              (Z.to_nat 5) p)
         <= Z.to_nat (rank_position double_0_35 (2 * 5)))%nat /\
        (count_greater v
           (reflected_window [3; 0; 1; 2; 4; 5; 9; 6; 8; 7; 10]%Z
              (Z.to_nat 5) p)
         <= 2 * Z.to_nat 5 - Z.to_nat (rank_position double_0_35 (2 * 5)))%nat.
Proof.
  assert (valid_input [3; 0; 1; 2; 4; 5; 9; 6; 8; 7; 10]
            [0; 0; 0; 0; 0; 0; 0; 0; 0; 0; 0] 5 double_0_35)
    as Hv by valid_input_by_computation.
  split; [exact Hv|].
  apply (output_splits_window 10 _ _ _ _ Hv). simpl. lia.
Defined.

(** ** Helpers: more on rounding *)

Lemma round_comp (v w : Q) : (v == w)%Q -> round v = round w.
Proof.
  intros E. unfold round.
  rewrite (Qltb_comp (- (1 # 2)) (- (1 # 2)) v w) by (auto; reflexivity).
  rewrite (Qltb_comp v w (1 # 2) (1 # 2)) by (auto; reflexivity).
  rewrite (Qltb_comp 0 0 v w) by (auto; reflexivity).
  rewrite (Qceiling_comp v w E), (Qfloor_comp v w E).
  rewrite (Qltb_comp (1 # 2) (1 # 2) (inject_Z (Qceiling w) - v)
             (inject_Z (Qceiling w) - w)) by (try rewrite E; reflexivity).
  rewrite (Qltb_comp (1 # 2) (1 # 2) (v - inject_Z (Qfloor w))
             (w - inject_Z (Qfloor w))) by (try rewrite E; reflexivity).
  reflexivity.
Qed.

Lemma Qfloor_unique (x : Q) (z : Z) :
  (inject_Z z <= x)%Q -> (x < inject_Z (z + 1))%Q -> Qfloor x = z.
Proof.
  intros H1 H2.
  pose proof (Qfloor_le x) as H3. pose proof (Qlt_floor x) as H4.
  assert (inject_Z (Qfloor x) < inject_Z (z + 1))%Q as H5 by lra.
  assert (inject_Z z < inject_Z (Qfloor x + 1))%Q as H6 by lra.
  rewrite <- Zlt_Qlt in H5, H6. lia.
Qed.

(** On a non-negative argument [round] is the floor of the argument plus
    one half. *)
Lemma round_nonneg_floor (v : Q) :
  (0 <= v)%Q -> round v = Qfloor (v + (1 # 2)).
Proof.
  intros H0. symmetry. unfold round.
  destruct (Qltb (- (1 # 2)) v && Qltb v (1 # 2)) eqn:E1.
  - apply andb_true_iff in E1 as [_ E1]. apply Qltb_lt in E1.
    apply Qfloor_unique;
      [change (inject_Z 0) with 0%Q | change (inject_Z (0 + 1)) with 1%Q];
      lra.
  - assert (Qltb (- (1 # 2)) v = true) as E0 by (apply Qltb_lt; lra).
    rewrite E0 in E1. cbn [andb] in E1. apply Qltb_ge in E1.
    assert (Qltb 0 v = true) as -> by (apply Qltb_lt; lra).
    pose proof (Qle_ceiling v) as Hc1. pose proof (Qceiling_lt v) as Hc2.
    unfold Z.sub in Hc2. rewrite inject_Z_plus, inject_Z_opp in Hc2.
    change (inject_Z 1) with 1%Q in Hc2.
    destruct (Qltb (1 # 2) (inject_Z (Qceiling v) - v)) eqn:E2.
    + apply Qltb_lt in E2. apply Qfloor_unique.
      * unfold Z.sub. rewrite inject_Z_plus, inject_Z_opp.
        change (inject_Z 1) with 1%Q. lra.
      * replace (Qceiling v - 1 + 1) with (Qceiling v) by lia. lra.
    + apply Qltb_ge in E2. apply Qfloor_unique; [lra|].
      rewrite inject_Z_plus. change (inject_Z 1) with 1%Q. lra.
Qed.

Lemma round_monotone (v w : Q) :
  (0 <= v)%Q -> (v <= w)%Q -> round v <= round w.
Proof.
  intros H0 Hvw. rewrite !round_nonneg_floor by lra.
  apply Qfloor_resp_le. lra.
Qed.

Lemma round_integer (n : Z) : 0 <= n -> round (inject_Z n) = n.
Proof.
  intros Hn. rewrite round_nonneg_floor by (rewrite <- (Zle_Qle 0); exact Hn).
  apply Qfloor_unique; [lra|].
  rewrite inject_Z_plus. change (inject_Z 1) with 1%Q. lra.
Qed.

(** On a valid input the window length is a [double]. *)
Lemma valid_length_exact (src dest0 : list T) (half_length : Z) (rank : Q) :
  valid_input src dest0 half_length rank ->
  (binary64 (inject_Z (2 * half_length)) == inject_Z (2 * half_length))%Q.
Proof.
  intros (H0 & _ & _ & _ & _ & _ & Hw). apply binary64_integer. lia.
Qed.

(** The cursor's position at the two ends and in the middle of the rank
    range. *)
Lemma rank_index_zero (src dest0 : list T) (half_length : Z) (rank : Q) :
  valid_input src dest0 half_length rank -> (rank == 0)%Q ->
  rank_index half_length rank = 0%nat.
Proof.
  intros Hv E. rewrite (rank_index_round _ _ _ _ Hv). unfold rank_position.
  rewrite (round_comp _ 0); [reflexivity|].
  apply binary64_zero. rewrite E. ring.
Qed.

Lemma rank_index_one (src dest0 : list T) (half_length : Z) (rank : Q) :
  valid_input src dest0 half_length rank -> (rank == 1)%Q ->
  rank_index half_length rank = (2 * Z.to_nat half_length)%nat.
Proof.
  intros Hv E. rewrite (rank_index_round _ _ _ _ Hv). unfold rank_position.
  pose proof (valid_length_exact _ _ _ _ Hv) as El.
  destruct Hv as (H0 & _).
  rewrite (round_comp _ (inject_Z (2 * half_length))).
  - rewrite round_integer by lia. lia.
  - apply Qeq_trans with (binary64 (inject_Z (2 * half_length)));
      [|exact El].
    apply binary64_comp. rewrite El, E. ring.
Qed.

Lemma rank_index_half (src dest0 : list T) (half_length : Z) (rank : Q) :
  valid_input src dest0 half_length rank -> (rank == 1 # 2)%Q ->
  rank_index half_length rank = Z.to_nat half_length.
Proof.
  intros Hv E. rewrite (rank_index_round _ _ _ _ Hv). unfold rank_position.
  pose proof (valid_length_exact _ _ _ _ Hv) as El.
  destruct Hv as (H0 & _ & _ & _ & _ & _ & Hw).
  rewrite (round_comp _ (inject_Z half_length)).
  - now rewrite round_integer by lia.
  - apply Qeq_trans with (binary64 (inject_Z half_length));
      [|apply binary64_integer; lia].
    apply binary64_comp. rewrite El, E, inject_Z_mult.
    change (inject_Z 2) with 2%Q. field.
Qed.

Lemma rank_index_monotone (src dest0 dest0' : list T) (half_length : Z)
    (rank rank' : Q) :
  valid_input src dest0 half_length rank ->
  valid_input src dest0' half_length rank' ->
  (rank <= rank')%Q ->
  (rank_index half_length rank <= rank_index half_length rank')%nat.
Proof.
  intros Hv Hv' Hle.
  rewrite (rank_index_round _ _ _ _ Hv), (rank_index_round _ _ _ _ Hv').
  pose proof (valid_length_exact _ _ _ _ Hv) as El.
  destruct Hv as (H0 & _ & _ & _ & Hr & Hr1 & Hw).
  destruct Hv' as (_ & _ & _ & _ & Hr' & Hr1' & _).
  assert (0 <= inject_Z (2 * half_length))%Q as Hz.
  { rewrite <- (Zle_Qle 0). lia. }
  pose proof (rank_position_bounds rank (2 * half_length) ltac:(lia) Hr Hr1).
  pose proof (rank_position_bounds rank' (2 * half_length) ltac:(lia)
                Hr' Hr1').
  apply Z2Nat.inj_le; [lia|lia|]. unfold rank_position.
  apply round_monotone.
  - apply binary64_nonneg. rewrite El. nra.
  - apply binary64_monotone; rewrite El; nra.
Qed.

(** ** Rank 0, rank 1, rank 1/2 *)

Lemma reference_value_min (src : list T) (h p : nat) (x : T) :
  In x (reflected_window src h p) -> reference_value src h 0 p <= x.
Proof.
  intros Hx. unfold reference_value.
  eapply Permutation_in in Hx; [|symmetry; apply sort_values_perm].
  apply In_nth with (d := 0) in Hx as (i & Hi & <-).
  apply sorted_nth_le; auto; [apply sort_values_sorted|lia].
Qed.

Lemma reference_value_max (src : list T) (h p : nat) (x : T) :
  In x (reflected_window src h p) -> x <= reference_value src h (2 * h) p.
Proof.
  intros Hx. unfold reference_value.
  eapply Permutation_in in Hx; [|symmetry; apply sort_values_perm].
  apply In_nth with (d := 0) in Hx as (i & Hi & <-).
  pose proof (sort_values_length (reflected_window src h p)) as Hl.
  rewrite reflected_window_length in Hl.
  apply sorted_nth_le; [apply sort_values_sorted|lia|lia].
Qed.

(** X2.  At rank 0 every output is the minimum of its window. *)
Theorem rank_zero_is_minimum (fuel : nat) (src dest0 : list T)
    (half_length : Z) (rank : Q) :
  valid_input src dest0 half_length rank -> (rank == 0)%Q ->
  (length src - 1 <= fuel)%nat ->
  exists out,
    output (lineRankOrderFilter1D fuel src dest0 half_length rank) = Some out /\
    forall p, (p < length src)%nat ->
      exists v,
        nth_error out p = Some v /\
        In v (reflected_window src (Z.to_nat half_length) p) /\
        forall x, In x (reflected_window src (Z.to_nat half_length) p) ->
                  v <= x.
Proof.
  intros Hv E Hf. rewrite (output_reference fuel _ _ _ _ Hv Hf).
  rewrite (rank_index_zero _ _ _ _ Hv E).
  eexists. split; [reflexivity|]. intros p Hp.
  rewrite reference_nth_error by exact Hp.
  eexists. split; [reflexivity|]. split.
  - apply reference_value_counts. lia.
  - apply reference_value_min.
Qed.

Lemma rank_zero_is_minimum_witness :
  valid_input [5; 3; 8; 1; 9; 2; 7] [0; 0; 0; 0; 0; 0; 0] 2 0 /\
  exists out,
    output (lineRankOrderFilter1D 6 [5; 3; 8; 1; 9; 2; 7]
              [0; 0; 0; 0; 0; 0; 0] 2 0) = Some out /\
    forall p, (p < 7)%nat ->
      exists v,
        nth_error out p = Some v /\
        In v (reflected_window [5; 3; 8; 1; 9; 2; 7] (Z.to_nat 2) p) /\
        forall x, In x (reflected_window [5; 3; 8; 1; 9; 2; 7] (Z.to_nat 2) p)
                  -> v <= x.
Proof.
  assert (valid_input [5; 3; 8; 1; 9; 2; 7] [0; 0; 0; 0; 0; 0; 0] 2 0)
    as Hv by valid_input_by_computation.
  split; [exact Hv|].
  apply (rank_zero_is_minimum 6 _ _ _ _ Hv); [reflexivity|simpl; lia].
Defined.

(** X3.  At rank 1 every output is the maximum of its window. *)
Theorem rank_one_is_maximum (fuel : nat) (src dest0 : list T)
    (half_length : Z) (rank : Q) :
  valid_input src dest0 half_length rank -> (rank == 1)%Q ->
  (length src - 1 <= fuel)%nat ->
  exists out,
    output (lineRankOrderFilter1D fuel src dest0 half_length rank) = Some out /\
    forall p, (p < length src)%nat ->
      exists v,
        nth_error out p = Some v /\
        In v (reflected_window src (Z.to_nat half_length) p) /\
        forall x, In x (reflected_window src (Z.to_nat half_length) p) ->
                  x <= v.
Proof.
  intros Hv E Hf. rewrite (output_reference fuel _ _ _ _ Hv Hf).
  rewrite (rank_index_one _ _ _ _ Hv E).
  eexists. split; [reflexivity|]. intros p Hp.
  rewrite reference_nth_error by exact Hp.
  eexists. split; [reflexivity|]. split.
  - apply reference_value_counts. lia.
  - apply reference_value_max.
Qed.

Lemma rank_one_is_maximum_witness :
  valid_input [5; 3; 8; 1; 9; 2; 7] [0; 0; 0; 0; 0; 0; 0] 2 1 /\
  exists out,
    output (lineRankOrderFilter1D 6 [5; 3; 8; 1; 9; 2; 7]
              [0; 0; 0; 0; 0; 0; 0] 2 1) = Some out /\
    forall p, (p < 7)%nat ->
      exists v,
        nth_error out p = Some v /\
        In v (reflected_window [5; 3; 8; 1; 9; 2; 7] (Z.to_nat 2) p) /\
        forall x, In x (reflected_window [5; 3; 8; 1; 9; 2; 7] (Z.to_nat 2) p)
                  -> x <= v.
Proof.
  assert (valid_input [5; 3; 8; 1; 9; 2; 7] [0; 0; 0; 0; 0; 0; 0] 2 1)
    as Hv by valid_input_by_computation.
  split; [exact Hv|].
  apply (rank_one_is_maximum 6 _ _ _ _ Hv); [reflexivity|simpl; lia].
Defined.

(** X4.  At rank 1/2 every output is a median of its window: it is one of
    the [2 * half_length + 1] values, at most [half_length] of them are
    smaller and at most [half_length] are larger. *)
Theorem rank_half_is_median (fuel : nat) (src dest0 : list T)
    (half_length : Z) (rank : Q) :
  valid_input src dest0 half_length rank -> (rank == 1 # 2)%Q ->
  (length src - 1 <= fuel)%nat ->
  exists out,
    output (lineRankOrderFilter1D fuel src dest0 half_length rank) = Some out /\
    forall p, (p < length src)%nat ->
      exists v,
        nth_error out p = Some v /\
        In v (reflected_window src (Z.to_nat half_length) p) /\
        (count_less v (reflected_window src (Z.to_nat half_length) p)
         <= Z.to_nat half_length)%nat /\
        (count_greater v (reflected_window src (Z.to_nat half_length) p)
         <= Z.to_nat half_length)%nat.
Proof.
  intros Hv E Hf. rewrite (output_reference fuel _ _ _ _ Hv Hf).
  rewrite (rank_index_half _ _ _ _ Hv E).
  eexists. split; [reflexivity|]. intros p Hp.
  rewrite reference_nth_error by exact Hp.
  eexists. split; [reflexivity|].
  destruct (reference_value_counts src (Z.to_nat half_length)
              (Z.to_nat half_length) p ltac:(lia)) as (H1 & H2 & H3).
  repeat split; auto. etransitivity; [exact H3|]. lia.
Qed.

Lemma rank_half_is_median_witness :
  valid_input [5; 3; 8; 1; 9; 2; 7] [0; 0; 0; 0; 0; 0; 0] 2 (2 # 4) /\
  exists out,
    output (lineRankOrderFilter1D 6 [5; 3; 8; 1; 9; 2; 7]
              [0; 0; 0; 0; 0; 0; 0] 2 (2 # 4)) = Some out /\
    forall p, (p < 7)%nat ->
      exists v,
        nth_error out p = Some v /\
        In v (reflected_window [5; 3; 8; 1; 9; 2; 7] (Z.to_nat 2) p) /\
        (count_less v
           (reflected_window [5; 3; 8; 1; 9; 2; 7]%Z (Z.to_nat 2) p)
         <= Z.to_nat 2)%nat /\
        (count_greater v
           (reflected_window [5; 3; 8; 1; 9; 2; 7]%Z (Z.to_nat 2) p)
         <= Z.to_nat 2)%nat.
Proof.
  assert (valid_input [5; 3; 8; 1; 9; 2; 7] [0; 0; 0; 0; 0; 0; 0] 2 (2 # 4))
    as Hv by valid_input_by_computation.
  split; [exact Hv|].
  apply (rank_half_is_median 6 _ _ _ _ Hv); [reflexivity|simpl; lia].
Defined.

(** ** A window of one *)

Lemma map_nth_seq (l : list T) :
  map (fun p => nth p l 0) (seq 0 (length l)) = l.
Proof.
  apply nth_error_ext. intros j. rewrite nth_error_map_seq.
  destruct (Nat.ltb_spec j (length l)).
  - symmetry. now apply nth_error_nth'.
  - symmetry. now apply nth_error_None.
Qed.

(** X5.  With [half_length = 0] the filter copies the source, whatever the
    rank. *)
Theorem half_length_zero_copies (fuel : nat) (src dest0 : list T) (rank : Q) :
  valid_input src dest0 0 rank ->
  (length src - 1 <= fuel)%nat ->
  output (lineRankOrderFilter1D fuel src dest0 0 rank) =
  Some (src ++ skipn (length src) dest0).
Proof.
  intros Hv Hf. rewrite (output_reference fuel _ _ _ _ Hv Hf).
  pose proof (valid_rank_index_bound _ _ _ _ Hv) as Hk.
  change (Z.to_nat 0) with 0%nat in *.
  replace (rank_index 0 rank) with 0%nat by lia.
  do 2 f_equal. rewrite <- (map_nth_seq src) at 2.
  unfold rank_filter_reference. apply map_ext_in. intros p Hp.
  apply in_seq in Hp. unfold reference_value, reflected_window.
  cbn [Nat.mul Nat.add seq map sort_values fold_right sort_insert nth].
  rewrite window_value_inside by lia. f_equal. lia.
Qed.

Lemma half_length_zero_copies_witness :
  valid_input [5; 3; 8; 1] [0; 0; 0; 0; 6] 0 (1 # 3) /\
  output (lineRankOrderFilter1D 3 [5; 3; 8; 1] [0; 0; 0; 0; 6] 0 (1 # 3)) =
  Some ([5; 3; 8; 1] ++ skipn 4 [0; 0; 0; 0; 6]).
Proof.
  assert (valid_input [5; 3; 8; 1] [0; 0; 0; 0; 6] 0 (1 # 3))
    as Hv by valid_input_by_computation.
  split; [exact Hv|].
  apply (half_length_zero_copies 3 _ _ _ Hv). simpl. lia.
Defined.

(** ** Values are never invented *)

(** X6.  Every output is a value of the source. *)
Theorem outputs_come_from_source (fuel : nat) (src dest0 : list T)
    (half_length : Z) (rank : Q) :
  valid_input src dest0 half_length rank ->
  (length src - 1 <= fuel)%nat ->
  exists out,
    output (lineRankOrderFilter1D fuel src dest0 half_length rank) = Some out /\
    forall p, (p < length src)%nat ->
      exists v, nth_error out p = Some v /\ In v src.
Proof.
  intros Hv Hf. rewrite (output_reference fuel _ _ _ _ Hv Hf).
  destruct (valid_input_nat _ _ _ _ Hv) as (_ & Hh & _).
  eexists. split; [reflexivity|]. intros p Hp.
  rewrite reference_nth_error by exact Hp.
  eexists. split; [reflexivity|].
  apply (reflected_window_incl src (Z.to_nat half_length) p); auto.
  apply reference_value_counts, (valid_rank_index_bound _ _ _ _ Hv).
Qed.

Lemma outputs_come_from_source_witness :
  valid_input [4; 4; 4; 1; 4; 4] [0; 0; 0; 0; 0; 0] 2 (3 # 4) /\
  exists out,
    output (lineRankOrderFilter1D 5 [4; 4; 4; 1; 4; 4] [0; 0; 0; 0; 0; 0] 2
              (3 # 4)) = Some out /\
    forall p, (p < 6)%nat ->
      exists v, nth_error out p = Some v /\ In v [4; 4; 4; 1; 4; 4].
Proof.
  assert (valid_input [4; 4; 4; 1; 4; 4] [0; 0; 0; 0; 0; 0] 2 (3 # 4))
    as Hv by valid_input_by_computation.
  split; [exact Hv|].
  apply (outputs_come_from_source 5 _ _ _ _ Hv). simpl. lia.
Defined.

(** ** Raising the rank *)

(** X7.  On the same source and half length, a larger rank gives, position
    by position, an output at least as large. *)
Theorem output_grows_with_rank (fuel : nat) (src dest0 dest0' : list T)
    (half_length : Z) (rank rank' : Q) :
  valid_input src dest0 half_length rank ->
  valid_input src dest0' half_length rank' ->
  (rank <= rank')%Q ->
  (length src - 1 <= fuel)%nat ->
  exists out out',
    output (lineRankOrderFilter1D fuel src dest0 half_length rank)
      = Some out /\
    output (lineRankOrderFilter1D fuel src dest0' half_length rank')
      = Some out' /\
    forall p, (p < length src)%nat ->
      exists v v',
        nth_error out p = Some v /\ nth_error out' p = Some v' /\ v <= v'.
Proof.
  intros Hv Hv' Hle Hf.
  rewrite (output_reference fuel _ _ _ _ Hv Hf).
  rewrite (output_reference fuel _ _ _ _ Hv' Hf).
  do 2 eexists. split; [reflexivity|]. split; [reflexivity|]. intros p Hp.
  rewrite !reference_nth_error by exact Hp.
  do 2 eexists. split; [reflexivity|]. split; [reflexivity|].
  unfold reference_value.
  pose proof (valid_rank_index_bound _ _ _ _ Hv').
  apply sorted_nth_le.
  - apply sort_values_sorted.
  - apply (rank_index_monotone _ _ _ _ _ _ Hv Hv' Hle).
  - rewrite sort_values_length, reflected_window_length. lia.
Qed.

Lemma output_grows_with_rank_witness :
  valid_input [5; 3; 8; 1; 9; 2; 7] [0; 0; 0; 0; 0; 0; 0] 2 (1 # 4) /\
  valid_input [5; 3; 8; 1; 9; 2; 7] [0; 0; 0; 0; 0; 0; 0] 2 (3 # 5) /\
  exists out out',
    output (lineRankOrderFilter1D 6 [5; 3; 8; 1; 9; 2; 7]
              [0; 0; 0; 0; 0; 0; 0] 2 (1 # 4)) = Some out /\
    output (lineRankOrderFilter1D 6 [5; 3; 8; 1; 9; 2; 7]
              [0; 0; 0; 0; 0; 0; 0] 2 (3 # 5)) = Some out' /\
    forall p, (p < 7)%nat ->
      exists v v',
        nth_error out p = Some v /\ nth_error out' p = Some v' /\ v <= v'.
Proof.
  assert (valid_input [5; 3; 8; 1; 9; 2; 7] [0; 0; 0; 0; 0; 0; 0] 2 (1 # 4))
    as Hv by valid_input_by_computation.
  assert (valid_input [5; 3; 8; 1; 9; 2; 7] [0; 0; 0; 0; 0; 0; 0] 2 (3 # 5))
    as Hv' by valid_input_by_computation.
  split; [exact Hv|]. split; [exact Hv'|].
  apply (output_grows_with_rank 6 _ _ _ _ _ _ Hv Hv').
  - unfold Qle. simpl. lia.
  - simpl. lia.
Defined.

(** ** Order-preserving maps of the values *)

Lemma window_value_map (f : T -> T) (src : list T) (h p j : nat) :
  (h < length src)%nat -> (p < length src)%nat -> (j <= 2 * h)%nat ->
  window_value (map f src) h p j = f (window_value src h p j).
Proof.
  intros Hh Hp Hj. unfold window_value. rewrite length_map.
  pose proof (reflect_index_in_range (length src) h p j Hh Hp Hj) as Hr.
  rewrite (nth_indep _ 0 (f 0)) by (now rewrite length_map).
  apply map_nth.
Qed.

Lemma reflected_window_map (f : T -> T) (src : list T) (h p : nat) :
  (h < length src)%nat -> (p < length src)%nat ->
  reflected_window (map f src) h p = map f (reflected_window src h p).
Proof.
  intros Hh Hp. unfold reflected_window. rewrite map_map.
  apply map_ext_in. intros j Hj. apply in_seq in Hj.
  apply window_value_map; lia.
Qed.

Lemma sort_values_map (f : T -> T) (l : list T) :
  (forall x y, x <= y -> f x <= f y) ->
  sort_values (map f l) = map f (sort_values l).
Proof.
  intros Hf. apply sorted_perm_unique.
  - apply sort_values_sorted.
  - pose proof (sort_values_sorted l) as Hs.
    induction Hs as [|x s Hs IH Hx]; simpl; constructor; auto.
    rewrite Forall_forall in *. intros y Hy.
    apply in_map_iff in Hy as (z & <- & Hz). auto.
  - rewrite sort_values_perm. apply Permutation_map. symmetry.
    apply sort_values_perm.
Qed.

Lemma rank_filter_reference_map (f : T -> T) (src : list T) (h k : nat) :
  (forall x y, x <= y -> f x <= f y) ->
  (h < length src)%nat -> (k <= 2 * h)%nat ->
  rank_filter_reference (map f src) h k = map f (rank_filter_reference src h k).
Proof.
  intros Hf Hh Hk. unfold rank_filter_reference.
  rewrite length_map, map_map. apply map_ext_in. intros p Hp.
  apply in_seq in Hp. unfold reference_value.
  rewrite reflected_window_map by lia. rewrite (sort_values_map f _ Hf).
  rewrite (nth_indep _ 0 (f 0)).
  - apply map_nth.
  - rewrite length_map, sort_values_length, reflected_window_length. lia.
Qed.

Lemma valid_input_same_length (src src' dest0 : list T) (half_length : Z)
    (rank : Q) :
  length src' = length src ->
  valid_input src dest0 half_length rank ->
  valid_input src' dest0 half_length rank.
Proof. unfold valid_input, distance. now intros ->. Qed.

Lemma firstn_reference (src rest : list T) (h k : nat) :
  firstn (length src) (rank_filter_reference src h k ++ rest) =
  rank_filter_reference src h k.
Proof.
  assert (length (rank_filter_reference src h k) = length src) as Hlen.
  { unfold rank_filter_reference. now rewrite length_map, length_seq. }
  rewrite firstn_app, Hlen, Nat.sub_diag. cbn [firstn].
  rewrite app_nil_r. apply firstn_all2. lia.
Qed.

(** X8.  The filter commutes with every order-preserving map of the
    values (a shift, a positive scaling, a clamp): filtering the mapped
    source gives the mapped outputs. *)
Theorem filter_commutes_with_monotone_map (fuel : nat) (f : T -> T)
    (src dest0 : list T) (half_length : Z) (rank : Q) :
  valid_input src dest0 half_length rank ->
  (forall x y, x <= y -> f x <= f y) ->
  (length src - 1 <= fuel)%nat ->
  exists out out_f,
    output (lineRankOrderFilter1D fuel src dest0 half_length rank)
      = Some out /\
    output (lineRankOrderFilter1D fuel (map f src) dest0 half_length rank)
      = Some out_f /\
    firstn (length src) out_f = map f (firstn (length src) out).
Proof.
  intros Hv Hf Hfuel.
  destruct (valid_input_nat _ _ _ _ Hv) as (_ & Hh & _).
  assert (valid_input (map f src) dest0 half_length rank) as Hv'.
  { apply (valid_input_same_length src); auto. apply length_map. }
  rewrite (output_reference fuel _ _ _ _ Hv Hfuel).
  rewrite (output_reference fuel _ _ _ _ Hv')
    by (now rewrite length_map).
  do 2 eexists. split; [reflexivity|]. split; [reflexivity|].
  rewrite firstn_reference.
  rewrite <- (length_map f src) at 1. rewrite length_map at 2.
  rewrite firstn_reference.
  apply rank_filter_reference_map; auto.
  apply (valid_rank_index_bound _ _ _ _ Hv).
Qed.

Lemma filter_commutes_with_monotone_map_witness :
  valid_input [5; 3; 8; 1; 9; 2; 7] [0; 0; 0; 0; 0; 0; 0] 2 (1 # 4) /\
  exists out out_f,
    output (lineRankOrderFilter1D 6 [5; 3; 8; 1; 9; 2; 7]
              [0; 0; 0; 0; 0; 0; 0] 2 (1 # 4)) = Some out /\
    output (lineRankOrderFilter1D 6
              (map (fun x => Z.min (3 * x - 4) 10) [5; 3; 8; 1; 9; 2; 7])
              [0; 0; 0; 0; 0; 0; 0] 2 (1 # 4)) = Some out_f /\
    firstn 7 out_f = map (fun x => Z.min (3 * x - 4) 10) (firstn 7 out).
Proof.
  assert (valid_input [5; 3; 8; 1; 9; 2; 7] [0; 0; 0; 0; 0; 0; 0] 2 (1 # 4))
    as Hv by valid_input_by_computation.
  split; [exact Hv|].
  apply (filter_commutes_with_monotone_map 6
           (fun x => Z.min (3 * x - 4) 10) _ _ _ _ Hv).
  - intros x y Hxy. lia.
  - simpl. lia.
Defined.

(** ** Raising the source *)

Lemma Forall2_le_nth (l l' : list T) (i : nat) :
  Forall2 Z.le l l' -> nth i l 0 <= nth i l' 0.
Proof.
  intros H. revert i. induction H as [|x y l l' Hxy _ IH]; intros [|i];
    simpl; auto; lia.
Qed.

Lemma Forall2_le_map_seq (f g : nat -> T) (a n : nat) :
  (forall j, f j <= g j) ->
  Forall2 Z.le (map f (seq a n)) (map g (seq a n)).
Proof.
  intros H. revert a. induction n as [|n IH]; intros a; simpl; constructor;
    auto.
Qed.

(** Inserting into the smaller list, below what the larger one starts
    with. *)
Lemma sort_insert_under (s s' : list T) :
  Forall2 Z.le s s' ->
  forall x y', x <= y' -> StronglySorted Z.le (y' :: s') ->
  Forall2 Z.le (sort_insert x s) (y' :: s').
Proof.
  induction 1 as [|a a' s s' Ha Hss IH]; intros x y' Hx Hs; simpl.
  - repeat constructor. exact Hx.
  - apply StronglySorted_inv in Hs as [Hs Hy'].
    apply Forall_cons_iff in Hy' as [Hya Hy'].
    destruct (Z.leb_spec x a).
    + repeat constructor; auto.
    + constructor; [lia|]. apply IH; [lia|exact Hs].
Qed.

(** Inserting into the larger list, above what the smaller one starts
    with. *)
Lemma sort_insert_over (s s' : list T) :
  Forall2 Z.le s s' ->
  forall a x', a <= x' -> Forall (Z.le a) s' -> StronglySorted Z.le s' ->
  Forall2 Z.le (a :: s) (sort_insert x' s').
Proof.
  induction 1 as [|b b' s s' Hb Hss IH]; intros a x' Ha Hall Hs; simpl.
  - repeat constructor. exact Ha.
  - apply Forall_cons_iff in Hall as [Hab Hall].
    apply StronglySorted_inv in Hs as [Hs Hb'].
    destruct (Z.leb_spec x' b').
    + repeat constructor; auto.
    + constructor; [exact Hab|]. apply IH; auto; [lia|].
      eapply Forall_impl; [|exact Hb']. intros z Hz. simpl in *. lia.
Qed.

Lemma sort_insert_monotone (s s' : list T) :
  Forall2 Z.le s s' ->
  forall x x', x <= x' -> StronglySorted Z.le s' ->
  Forall2 Z.le (sort_insert x s) (sort_insert x' s').
Proof.
  induction 1 as [|a a' s s' Ha Hss IH]; intros x x' Hx Hs; simpl.
  - repeat constructor. exact Hx.
  - pose proof Hs as Hs0. apply StronglySorted_inv in Hs as [Hs Ha'].
    destruct (Z.leb_spec x a), (Z.leb_spec x' a').
    + repeat constructor; auto.
    + constructor; [lia|]. apply sort_insert_over; auto; [lia|].
      eapply Forall_impl; [|exact Ha']. intros z Hz. simpl in *. lia.
    + constructor; [lia|]. apply sort_insert_under; auto. lia.
    + constructor; [exact Ha|]. now apply IH.
Qed.

Lemma sort_values_monotone (l l' : list T) :
  Forall2 Z.le l l' -> Forall2 Z.le (sort_values l) (sort_values l').
Proof.
  induction 1 as [|x x' l l' Hx _ IH]; simpl; [constructor|].
  apply sort_insert_monotone; auto. apply sort_values_sorted.
Qed.

Lemma reference_value_monotone (src src' : list T) (h k p : nat) :
  Forall2 Z.le src src' ->
  reference_value src h k p <= reference_value src' h k p.
Proof.
  intros H. unfold reference_value.
  apply Forall2_le_nth, sort_values_monotone.
  unfold reflected_window. apply Forall2_le_map_seq. intros j.
  assert (length src = length src') as E by exact (Forall2_length H).
  unfold window_value. rewrite E. now apply Forall2_le_nth.
Qed.

(** X9.  The filter is order preserving in its source: raise any of the
    source values and no output goes down. *)
Theorem output_grows_with_source (fuel : nat) (src src' dest0 : list T)
    (half_length : Z) (rank : Q) :
  valid_input src dest0 half_length rank ->
  Forall2 Z.le src src' ->
  (length src - 1 <= fuel)%nat ->
  exists out out',
    output (lineRankOrderFilter1D fuel src dest0 half_length rank)
      = Some out /\
    output (lineRankOrderFilter1D fuel src' dest0 half_length rank)
      = Some out' /\
    forall p, (p < length src)%nat ->
      exists v v',
        nth_error out p = Some v /\ nth_error out' p = Some v' /\ v <= v'.
Proof.
  intros Hv Hle Hf.
  assert (length src = length src') as Hlen by exact (Forall2_length Hle).
  assert (valid_input src' dest0 half_length rank) as Hv'.
  { apply (valid_input_same_length src); auto. }
  rewrite (output_reference fuel _ _ _ _ Hv Hf).
  rewrite (output_reference fuel _ _ _ _ Hv') by (rewrite <- Hlen; exact Hf).
  do 2 eexists. split; [reflexivity|]. split; [reflexivity|]. intros p Hp.
  rewrite !reference_nth_error by (rewrite <- ?Hlen; exact Hp).
  do 2 eexists. split; [reflexivity|]. split; [reflexivity|].
  now apply reference_value_monotone.
Qed.

Lemma output_grows_with_source_witness :
  valid_input [5; 3; 8; 1; 9; 2; 7] [0; 0; 0; 0; 0; 0; 0] 2 (1 # 4) /\
  Forall2 Z.le [5; 3; 8; 1; 9; 2; 7] [5; 4; 8; 6; 9; 2; 9] /\
  exists out out',
    output (lineRankOrderFilter1D 6 [5; 3; 8; 1; 9; 2; 7]
              [0; 0; 0; 0; 0; 0; 0] 2 (1 # 4)) = Some out /\
    output (lineRankOrderFilter1D 6 [5; 4; 8; 6; 9; 2; 9]
              [0; 0; 0; 0; 0; 0; 0] 2 (1 # 4)) = Some out' /\
    forall p, (p < 7)%nat ->
      exists v v',
        nth_error out p = Some v /\ nth_error out' p = Some v' /\ v <= v'.
Proof.
  assert (valid_input [5; 3; 8; 1; 9; 2; 7] [0; 0; 0; 0; 0; 0; 0] 2 (1 # 4))
    as Hv by valid_input_by_computation.
  assert (Forall2 Z.le [5; 3; 8; 1; 9; 2; 7] [5; 4; 8; 6; 9; 2; 9]) as Hle
    by (repeat constructor; lia).
  split; [exact Hv|]. split; [exact Hle|].
  apply (output_grows_with_source 6 _ _ _ _ _ Hv Hle). simpl. lia.
Defined.

(** ** Away from the ends, and only nearby *)

Lemma reflected_window_interior (src : list T) (h p : nat) :
  (h <= p)%nat -> (p + h < length src)%nat ->
  reflected_window src h p = firstn (2 * h + 1) (skipn (p - h) src).
Proof.
  intros Hlo Hhi. apply nth_error_ext. intros j.
  unfold reflected_window.
  rewrite nth_error_map_seq, nth_error_firstn, nth_error_skipn.
  destruct (Nat.ltb_spec j (2 * h + 1)); [|reflexivity].
  rewrite window_value_inside by lia.
  rewrite (nth_error_nth' src 0) by lia. do 2 f_equal. lia.
Qed.

(** X10.  At a position at least [half_length] away from both ends no
    reflection is involved: the output is the order statistic of the
    [2 * half_length + 1] consecutive source values centred there, at the
    position line 98 computes from the binary64 product of [rank] and
    [2 * half_length]. *)
Theorem interior_output_uses_plain_window (fuel : nat) (src dest0 : list T)
    (half_length : Z) (rank : Q) :
  valid_input src dest0 half_length rank ->
  (length src - 1 <= fuel)%nat ->
  exists out,
    output (lineRankOrderFilter1D fuel src dest0 half_length rank) = Some out /\
    forall p,
      (Z.to_nat half_length <= p)%nat ->
      (p + Z.to_nat half_length < length src)%nat ->
      nth_error out p =
      Some (nth (Z.to_nat (rank_position rank (2 * half_length)))
              (sort_values
                 (firstn (2 * Z.to_nat half_length + 1)
                    (skipn (p - Z.to_nat half_length) src))) 0).
Proof.
  intros Hv Hf. rewrite (output_reference fuel _ _ _ _ Hv Hf).
  eexists. split; [reflexivity|]. intros p Hlo Hhi.
  rewrite reference_nth_error by lia.
  rewrite <- (rank_index_round _ _ _ _ Hv).
  unfold reference_value. now rewrite reflected_window_interior.
Qed.

Lemma interior_output_uses_plain_window_witness :
  valid_input [3; 0; 1; 2; 4; 5; 9; 6; 8; 7; 10; 12; 11]
    [0; 0; 0; 0; 0; 0; 0; 0; 0; 0; 0; 0; 0] 5 double_0_35 /\
  exists out,
    output (lineRankOrderFilter1D 12 [3; 0; 1; 2; 4; 5; 9; 6; 8; 7; 10; 12; 11]
              [0; 0; 0; 0; 0; 0; 0; 0; 0; 0; 0; 0; 0] 5 double_0_35) = Some out /\
    forall p,
      (Z.to_nat 5 <= p)%nat ->
      (p + Z.to_nat 5 < 13)%nat ->
      nth_error out p =
      Some (nth (Z.to_nat (rank_position double_0_35 (2 * 5)))
              (sort_values
                 (firstn (2 * Z.to_nat 5 + 1)
                    (skipn (p - Z.to_nat 5)
                       [3; 0; 1; 2; 4; 5; 9; 6; 8; 7; 10; 12; 11]))) 0).
Proof.
  assert (valid_input [3; 0; 1; 2; 4; 5; 9; 6; 8; 7; 10; 12; 11]
            [0; 0; 0; 0; 0; 0; 0; 0; 0; 0; 0; 0; 0] 5 double_0_35)
    as Hv by valid_input_by_computation.
  split; [exact Hv|].
  apply (interior_output_uses_plain_window 12 _ _ _ _ Hv). simpl. lia.
Defined.

Lemma reflect_index_nearby (n h p j : nat) :
  (h < n)%nat -> (p < n)%nat -> (j <= 2 * h)%nat ->
  (p <= reflect_index n (Z.of_nat p - Z.of_nat h + Z.of_nat j) + h)%nat /\
  (reflect_index n (Z.of_nat p - Z.of_nat h + Z.of_nat j) <= p + h)%nat.
Proof.
  intros Hh Hp Hj. unfold reflect_index.
  destruct (Z.ltb_spec (Z.of_nat p - Z.of_nat h + Z.of_nat j) 0); [lia|].
  destruct (Z.leb_spec (Z.of_nat n) (Z.of_nat p - Z.of_nat h + Z.of_nat j));
    lia.
Qed.

(** X11.  The output at [p] depends only on the source values within
    [half_length] of [p]: two sources of one length that agree there get
    the same output at [p]. *)
Theorem output_depends_on_neighbourhood (fuel : nat) (src src' dest0 : list T)
    (half_length : Z) (rank : Q) (p : nat) :
  valid_input src dest0 half_length rank ->
  length src' = length src ->
  (p < length src)%nat ->
  (forall i, (p <= i + Z.to_nat half_length)%nat ->
             (i <= p + Z.to_nat half_length)%nat ->
             nth i src 0 = nth i src' 0) ->
  (length src - 1 <= fuel)%nat ->
  exists out out',
    output (lineRankOrderFilter1D fuel src dest0 half_length rank)
      = Some out /\
    output (lineRankOrderFilter1D fuel src' dest0 half_length rank)
      = Some out' /\
    nth_error out p = nth_error out' p.
Proof.
  intros Hv Hlen Hp Hagree Hf.
  destruct (valid_input_nat _ _ _ _ Hv) as (_ & Hh & _).
  assert (valid_input src' dest0 half_length rank) as Hv'.
  { apply (valid_input_same_length src); auto. }
  rewrite (output_reference fuel _ _ _ _ Hv Hf).
  rewrite (output_reference fuel _ _ _ _ Hv') by (rewrite Hlen; exact Hf).
  do 2 eexists. split; [reflexivity|]. split; [reflexivity|].
  rewrite !reference_nth_error by (rewrite ?Hlen; exact Hp).
  f_equal. unfold reference_value. f_equal. f_equal.
  unfold reflected_window. apply map_ext_in. intros j Hj.
  apply in_seq in Hj. unfold window_value. rewrite Hlen.
  apply Hagree; apply reflect_index_nearby; lia.
Qed.

Lemma output_depends_on_neighbourhood_witness :
  valid_input [5; 3; 8; 1; 9; 2; 7] [0; 0; 0; 0; 0; 0; 0] 1 (1 # 2) /\
  exists out out',
    output (lineRankOrderFilter1D 6 [5; 3; 8; 1; 9; 2; 7]
              [0; 0; 0; 0; 0; 0; 0] 1 (1 # 2)) = Some out /\
    output (lineRankOrderFilter1D 6 [0; 3; 8; 1; 6; 6; 6]
              [0; 0; 0; 0; 0; 0; 0] 1 (1 # 2)) = Some out' /\
    nth_error out 2 = nth_error out' 2.
Proof.
  assert (valid_input [5; 3; 8; 1; 9; 2; 7] [0; 0; 0; 0; 0; 0; 0] 1 (1 # 2))
    as Hv by valid_input_by_computation.
  split; [exact Hv|].
  apply (output_depends_on_neighbourhood 6 _ [0; 3; 8; 1; 6; 6; 6] _ _ _ 2 Hv).
  - reflexivity.
  - simpl. lia.
  - intros i H1 H2. simpl in H1, H2.
    assert (i = 1 \/ i = 2 \/ i = 3)%nat as [->|[->| ->]] by lia;
      reflexivity.
  - simpl. lia.
Defined.

(** ** The queue and the set *)

Lemma increasing_map_seq (g : nat -> Z) (a n : nat) :
  (forall i j, (i < j)%nat -> g i < g j) ->
  StronglySorted Z.lt (map g (seq a n)).
Proof.
  intros Hg. revert a. induction n as [|n IH]; intros a; simpl;
    constructor; auto.
  apply Forall_forall. intros z Hz.
  apply in_map_iff in Hz as (j & <- & Hj). apply in_seq in Hj.
  apply Hg. lia.
Qed.

(** X13.  In every state of the loop the queue holds one iterator to each
    sample of the ordered set and to nothing else, oldest first, that is
    in increasing sequence index; [rank_value] is the value under the
    cursor, and it is the value last stored in the destination. *)
Theorem queue_mirrors_set (src dest0 : list T) (half_length : Z) (rank : Q)
    (n : nat) :
  valid_input src dest0 half_length rank ->
  (n < length src)%nat ->
  exists st q r,
    state_after n src dest0 half_length rank = Some st /\
    window_iters st = map Some q /\
    Permutation (sorted_window st) q /\
    StronglySorted Z.lt (map snd q) /\
    sorted (sorted_window st) /\
    rank_point st = Some r /\
    rank_value st = fst r /\
    dest_pos st = n /\
    nth_error (dest st) n = Some (rank_value st).
Proof.
  intros Hv Hn.
  destruct (state_after_tracks _ _ _ _ n Hv Hn) as (st & E & Ht).
  destruct (tr_cursor _ _ _ _ _ _ Ht) as (r & Hrp & Hr & Hrv).
  exists st, (window_pairs src (Z.to_nat half_length) n), r.
  split; [exact E|].
  split; [apply (tr_iters _ _ _ _ _ _ Ht)|].
  split; [apply (tr_perm _ _ _ _ _ _ Ht)|].
  split.
  { unfold window_pairs. rewrite map_map. cbn [snd window_pair].
    apply increasing_map_seq. intros i j Hij.
    apply sequence_index_mono. lia. }
  split; [apply (tr_sorted _ _ _ _ _ _ Ht)|].
  split; [exact Hrp|]. split; [exact Hrv|].
  split; [apply (tr_dest_pos _ _ _ _ _ _ Ht)|].
  rewrite (tr_dest _ _ _ _ _ _ Ht), Hrv.
  rewrite nth_error_app1 by (rewrite length_map, length_seq; lia).
  rewrite nth_error_map_seq.
  destruct (Nat.ltb_spec n (S n)); [|lia]. f_equal.
  exact (cursor_value src _ _ n _ r (tr_sorted _ _ _ _ _ _ Ht)
           (tr_perm _ _ _ _ _ _ Ht) Hr).
Qed.

Lemma queue_mirrors_set_witness :
  valid_input [4; 4; 4; 1; 4; 4] [0; 0; 0; 0; 0; 0] 2 (3 # 4) /\
  exists st q r,
    state_after 4 [4; 4; 4; 1; 4; 4] [0; 0; 0; 0; 0; 0] 2 (3 # 4) = Some st /\
    window_iters st = map Some q /\
    Permutation (sorted_window st) q /\
    StronglySorted Z.lt (map snd q) /\
    sorted (sorted_window st) /\
    rank_point st = Some r /\
    rank_value st = fst r /\
    dest_pos st = 4%nat /\
    nth_error (dest st) 4 = Some (rank_value st).
Proof.
  assert (valid_input [4; 4; 4; 1; 4; 4] [0; 0; 0; 0; 0; 0] 2 (3 # 4))
    as Hv by valid_input_by_computation.
  split; [exact Hv|].
  apply (queue_mirrors_set _ _ _ _ 4 Hv). simpl. lia.
Defined.

(** * Printing an array *)

Lemma append_assoc (a b c : String.string) :
  String.append (String.append a b) c = String.append a (String.append b c).
Proof. induction a as [|ch a IH]; simpl; [reflexivity|]. now rewrite IH. Qed.

Lemma append_empty_r (a : String.string) :
  String.append a String.EmptyString = a.
Proof. induction a as [|ch a IH]; simpl; [reflexivity|]. now rewrite IH. Qed.

Lemma concat_comma_last {E : Type} (show : E -> String.string) (l : list E)
    (x : E) :
  String.concat ", " (map show (l ++ [x])) =
  String.append (comma_after_each E show l) (show x).
Proof.
  induction l as [|y l IH]; [reflexivity|].
  cbn [app map comma_after_each fold_right]. fold (comma_after_each E show l).
  rewrite !append_assoc, <- IH.
  destruct l; reflexivity.
Qed.

(** The loop writes the elements from [i] up to the last but one. *)
Lemma print_elements_spec {E : Type} (show : E -> String.string)
    (that : list E) (d : nat) :
  forall (i fuel : nat) (out : String.string),
  (i + d + 1 = length that)%nat -> distance that <= uint_modulus ->
  (d <= fuel)%nat ->
  print_elements E show fuel that (Z.of_nat i) out =
  Printed (String.append out
             (comma_after_each E show (firstn d (skipn i that)))).
Proof.
  induction d as [|d IH]; intros i fuel out Hi Hn Hf.
  - destruct fuel; cbn [print_elements firstn comma_after_each fold_right];
      rewrite wrap_small
        by (unfold distance, uint_modulus, size_modulus, size_bits in *; lia);
      (destruct (Z.ltb_spec (Z.of_nat i) (distance that - 1));
       [unfold distance in *; lia | now rewrite append_empty_r]).
  - destruct fuel as [|fuel]; [lia|]. cbn [print_elements].
    rewrite wrap_small
      by (unfold distance, uint_modulus, size_modulus, size_bits in *; lia).
    destruct (Z.ltb_spec (Z.of_nat i) (distance that - 1));
      [|unfold distance in *; lia].
    rewrite Nat2Z.id.
    destruct (nth_error that i) as [x|] eqn:Ex.
    2:{ apply nth_error_None in Ex. lia. }
    rewrite Z.mod_small by (unfold distance, uint_modulus in *; lia).
    replace (Z.of_nat i + 1) with (Z.of_nat (S i)) by lia.
    rewrite (IH (S i) fuel) by (auto; lia).
    assert (skipn i that = x :: skipn (S i) that) as ->.
    { pose proof (firstn_skipn_middle _ _ Ex) as Hm.
      apply (f_equal (skipn i)) in Hm.
      rewrite skipn_app, firstn_length_le in Hm by lia.
      rewrite skipn_all2 in Hm by (rewrite firstn_length_le; lia).
      now rewrite Nat.sub_diag in Hm. }
    cbn [firstn comma_after_each fold_right].
    fold (comma_after_each E show (firstn d (skipn (S i) that))).
    now rewrite !append_assoc.
Qed.

(** X14.  A non-empty array of at most [2^32] elements is printed as an
    opening brace and blank, its elements in order with a comma and a
    blank between neighbours, and a blank and closing brace, after
    whatever the stream already held. *)
Theorem print_array_format {E : Type} (show : E -> String.string)
    (fuel : nat) (that : list E) (out : String.string) :
  that <> [] -> distance that <= uint_modulus ->
  (length that - 1 <= fuel)%nat ->
  print_array E show fuel that out =
  Printed (String.append out
             (String.append "{ "
                (String.append (String.concat ", " (map show that)) " }"))).
Proof.
  intros Hne Hn Hf.
  assert (0 < length that)%nat as Hlen by (destruct that; [congruence|simpl; lia]).
  unfold print_array.
  rewrite (print_elements_spec show that (length that - 1) 0 fuel)
    by (auto; lia).
  rewrite wrap_small
    by (unfold distance, uint_modulus, size_modulus, size_bits in *; lia).
  replace (Z.to_nat (distance that - 1)) with (length that - 1)%nat
    by (unfold distance; lia).
  destruct (nth_error that (length that - 1)) as [x|] eqn:Ex.
  2:{ apply nth_error_None in Ex. lia. }
  cbn [skipn].
  assert (that = firstn (length that - 1) that ++ [x]) as Ethat.
  { pose proof (firstn_skipn_middle _ _ Ex) as Hm.
    rewrite skipn_all2 in Hm by lia. now symmetry. }
  rewrite Ethat at 3. rewrite concat_comma_last.
  now rewrite !append_assoc.
Qed.

Lemma print_array_format_witness :
  [5; -3; 0; 12] <> [] /\
  print_array Z show_Z 3 [5; -3; 0; 12] "a = " =
  Printed (String.append "a = "
             (String.append "{ "
                (String.append
                   (String.concat ", " (map show_Z [5; -3; 0; 12])) " }"))).
Proof.
  assert ([5; -3; 0; 12] <> []) as Hne by discriminate.
  split; [exact Hne|].
  apply (print_array_format show_Z 3 [5; -3; 0; 12] _ Hne).
  - unfold distance, uint_modulus. simpl. lia.
  - simpl. lia.
Defined.

Example print_four :
  print_array Z show_Z 3 [5; -3; 0; 12] String.EmptyString
  = Printed "{ 5, -3, 0, 12 }".
Proof. vm_compute. reflexivity. Qed.

(** X15.  Printing an array of no elements does not complete: [N - 1]
    wraps to the largest [size_t], so the loop is entered and reads
    [that[0]], which is not there. *)
Theorem print_array_empty {E : Type} (show : E -> String.string)
    (fuel : nat) (out : String.string) :
  print_array E show (S fuel) [] out = PrintUndefined.
Proof. reflexivity. Qed.

(** * The cursor's position *)

(** X16.  For a rank in [0, 1] and a window of at most [2^53] samples the
    cursor's ordinal position is an index into the window, between 0 and
    [2 * half_length], and it is the integer nearest to the binary64
    product of [rank] and [2 * half_length] that line 98 forms: it lies
    within one half of that product, the upper end excluded. *)
Theorem rank_position_is_nearest (rank : Q) (half_length : Z) :
  0 <= half_length -> 2 * half_length <= 2 ^ 53 ->
  (0 <= rank)%Q -> (rank <= 1)%Q ->
  0 <= rank_position rank (wrap (2 * half_length)) <= 2 * half_length /\
  (binary64 (rank * binary64 (inject_Z (2 * half_length))) - (1 # 2)
   < inject_Z (rank_position rank (wrap (2 * half_length))))%Q /\
  (inject_Z (rank_position rank (wrap (2 * half_length)))
   <= binary64 (rank * binary64 (inject_Z (2 * half_length))) + (1 # 2))%Q.
Proof.
  intros Hh Hb H0 H1.
  rewrite wrap_small by (unfold size_modulus, size_bits; lia).
  unfold rank_position.
  destruct (rank_product_bounds rank (2 * half_length) ltac:(lia) H0 H1)
    as [Hx0 Hx1].
  set (x := binary64 (rank * binary64 (inject_Z (2 * half_length)))) in *.
  split; [now apply round_bounds|].
  rewrite (round_nonneg_floor x Hx0).
  pose proof (Qfloor_le (x + (1 # 2))) as Hlo.
  pose proof (Qlt_floor (x + (1 # 2))) as Hhi.
  rewrite inject_Z_plus in Hhi. change (inject_Z 1) with 1%Q in Hhi.
  split; lra.
Qed.

Lemma rank_position_is_nearest_witness :
  0 <= rank_position double_0_35 (wrap (2 * 5)) <= 2 * 5 /\
  (binary64 (double_0_35 * binary64 (inject_Z (2 * 5))) - (1 # 2)
   < inject_Z (rank_position double_0_35 (wrap (2 * 5))))%Q /\
  (inject_Z (rank_position double_0_35 (wrap (2 * 5)))
   <= binary64 (double_0_35 * binary64 (inject_Z (2 * 5))) + (1 # 2))%Q.
Proof.
  apply (rank_position_is_nearest double_0_35 5).
  - lia.
  - vm_compute. discriminate.
  - unfold Qle. simpl. lia.
  - unfold Qle. simpl. lia.
Defined.
